(** * gfifo / sfifo: typed ring FIFOs with power-of-two capacity

    A shallow embedding of [gfifo.h] (caller-supplied buffer) and
    [inc/sfifo.h] (embedded buffer), and the properties of their index
    arithmetic and bulk transfer.

    Conventions of the embedding.
    - A [uint32_t] is a [Z]; every arithmetic operation of the source that
      can leave the range [0, 2^32) is written with its wrap-around
      ([U32.add], [U32.sub]).  Comparisons and [&] are those of [Z].
    - The element array is a [list T].  An access outside the array is
      undefined behaviour in C: the operations that touch the array return
      an [option], and [None] stands for such an access.
    - A pointer argument [type *e] is passed as the value stored behind it
      before the call, and the value stored behind it after the call is part
      of the result.  The caller's objects ([*e], [arr]) do not overlap the
      queue's array.
    - The functions are sequential: [volatile] loads and stores are plain
      reads and writes of the field. *)

From Stdlib Require Import ZArith Lia List Bool.
From stdpp Require Import base option list.

Local Open Scope Z_scope.

(** ** 32-bit unsigned arithmetic *)

Module U32.

Definition modulus : Z := 2 ^ 32.

Definition wrap (z : Z) : Z := z mod modulus.

Definition add (a b : Z) : Z := wrap (a + b).

Definition sub (a b : Z) : Z := wrap (a - b).

Definition in_range (z : Z) : Prop := 0 <= z < modulus.

End U32.

(** ** Array accesses *)

Section Memory.

Context {T : Type}.

(** [a[idx]] as an rvalue. *)
Definition load (a : list T) (idx : Z) : option T :=
  if 0 <=? idx then a !! Z.to_nat idx else None.

(** [a[idx] = x]. *)
Definition store (a : list T) (idx : Z) (x : T) : option (list T) :=
  if (0 <=? idx) && (idx <? Z.of_nat (length a))
  then Some (<[Z.to_nat idx := x]> a)
  else None.

(** [memcpy(&dst[doff], &src[soff], n * sizeof(type))]: [n] elements, both
    ranges inside their arrays. *)
Definition memcpy (dst : list T) (doff : Z) (src : list T) (soff : Z) (n : Z)
  : option (list T) :=
  if (0 <=? doff) && (0 <=? soff) && (0 <=? n)
     && (doff + n <=? Z.of_nat (length dst))
     && (soff + n <=? Z.of_nat (length src))
  then Some (take (Z.to_nat doff) dst
             ++ take (Z.to_nat n) (drop (Z.to_nat soff) src)
             ++ drop (Z.to_nat (doff + n)) dst)
  else None.

End Memory.

(** ** gfifo.h: the queue over a caller-supplied buffer *)

Module Gfifo.

Section WithType.

Context {T : Type}.

(** [gfifo_<name>_t].  [buf] is the pointer to the caller's array, carried
    with the contents of that array; [None] is a null pointer. *)
Record gfifo_t : Type := mk {
  buf : option (list T);
  cap : Z;
  msk : Z;
  i : Z;
  o : Z
}.

Definition set_buf (f : gfifo_t) (b : list T) : gfifo_t :=
  {| buf := Some b; cap := cap f; msk := msk f; i := i f; o := o f |}.

Definition set_i (f : gfifo_t) (v : Z) : gfifo_t :=
  {| buf := buf f; cap := cap f; msk := msk f; i := v; o := o f |}.

Definition set_o (f : gfifo_t) (v : Z) : gfifo_t :=
  {| buf := buf f; cap := cap f; msk := msk f; i := i f; o := v |}.

Definition is_null (p : option (list T)) : bool :=
  match p with None => true | Some _ => false end.

Definition gfifo_init (f : gfifo_t) (buf : option (list T)) (size : Z)
  : gfifo_t * bool :=
  if (size =? 0) || negb (Z.land size (U32.sub size 1) =? 0) || is_null buf
  then (f, false)
  else ({| buf := buf; cap := size; msk := U32.sub size 1; i := 0; o := 0 |},
        true).

Definition gfifo_reset (f : gfifo_t) : gfifo_t :=
  set_i (set_o f 0) 0.

Definition gfifo_is_empty (f : gfifo_t) : bool :=
  i f =? o f.

Definition gfifo_is_full (f : gfifo_t) : bool :=
  U32.sub (i f) (o f) =? cap f.

Definition gfifo_count (f : gfifo_t) : Z :=
  U32.sub (i f) (o f).

Definition gfifo_push (f : gfifo_t) (e : T) : option (gfifo_t * bool) :=
  let cnt := U32.sub (i f) (o f) in
  if cnt <? cap f then
    let idx := i f in
    b ← buf f;
    b' ← store b (Z.land idx (msk f)) e;
    Some (set_i (set_buf f b') (U32.add (i f) 1), true)
  else Some (f, false).

Definition gfifo_pop (f : gfifo_t) (e : T) : option (gfifo_t * T * bool) :=
  let cnt := U32.sub (i f) (o f) in
  if 0 <? cnt then
    let idx := o f in
    b ← buf f;
    x ← load b (Z.land idx (msk f));
    Some (set_o f (U32.add (o f) 1), x, true)
  else Some (f, e, false).

Definition gfifo_drop (f : gfifo_t) : gfifo_t * bool :=
  let cnt := U32.sub (i f) (o f) in
  if 0 <? cnt then (set_o f (U32.add (o f) 1), true)
  else (f, false).

(** [gfifo_<name>_drop_multi] as the header has it.  The parameter is
    [cnt].  The body declares [cnt] a second time, for the occupancy
    [in - out], and reads the number of elements to drop as [len], a name
    the function does not declare: [len] is a further argument here, for
    whatever the name stands for.  [cap] and [msk] are loaded and not
    used. *)
Definition gfifo_drop_multi_declared (len : Z) (f : gfifo_t) (cnt : Z)
  : gfifo_t * bool :=
  let in_ := i f in
  let out := o f in
  let cap := cap f in
  let msk := msk f in
  let cnt := U32.sub in_ out in
  if len =? 0 then (f, true)
  else if cnt <? len then (f, false)
  else (set_o f (U32.add out len), true).

(** The function that body describes, with the parameter under the name
    the body reads, as the sibling [gfifo_<name>_pop_array] declares its
    own: [len] is the number of elements to drop. *)
Definition gfifo_drop_multi (f : gfifo_t) (len : Z) : gfifo_t * bool :=
  gfifo_drop_multi_declared len f len.

Definition gfifo_peek (f : gfifo_t) (e : T) : option (gfifo_t * T * bool) :=
  let cnt := U32.sub (i f) (o f) in
  if 0 <? cnt then
    let idx := o f in
    b ← buf f;
    x ← load b (Z.land idx (msk f));
    Some (f, x, true)
  else Some (f, e, false).

Definition gfifo_peek_at (f : gfifo_t) (e : T) (ofst : Z)
  : option (gfifo_t * T * bool) :=
  let cnt := U32.sub (i f) (o f) in
  if ofst <? cnt then
    let idx := o f in
    b ← buf f;
    x ← load b (Z.land (U32.add idx ofst) (msk f));
    Some (f, x, true)
  else Some (f, e, false).

Definition gfifo_push_array (f : gfifo_t) (arr : list T) (len : Z)
  : option (gfifo_t * bool) :=
  let in_ := i f in
  let out := o f in
  let cap := cap f in
  let msk := msk f in
  let spc := U32.sub cap (U32.sub in_ out) in
  if len =? 0 then Some (f, true)
  else if spc <? len then Some (f, false)
  else
    let ofst := Z.land in_ msk in
    let l2e := U32.sub cap ofst in
    let l1 := if len <? l2e then len else l2e in
    b ← buf f;
    b1 ← memcpy b ofst arr 0 l1;
    b2 ← (if l1 <? len then memcpy b1 0 arr l1 (U32.sub len l1) else Some b1);
    Some (set_i (set_buf f b2) (U32.add in_ len), true).

Definition gfifo_pop_array (f : gfifo_t) (arr : list T) (len : Z)
  : option (gfifo_t * list T * bool) :=
  let in_ := i f in
  let out := o f in
  let cap := cap f in
  let msk := msk f in
  let cnt := U32.sub in_ out in
  if len =? 0 then Some (f, arr, true)
  else if cnt <? len then Some (f, arr, false)
  else
    let ofst := Z.land out msk in
    let l2e := U32.sub cap ofst in
    let l1 := if len <? l2e then len else l2e in
    b ← buf f;
    a1 ← memcpy arr 0 b ofst l1;
    a2 ← (if l1 <? len then memcpy a1 l1 b 0 (U32.sub len l1) else Some a1);
    Some (set_o f (U32.add out len), a2, true).

End WithType.

Arguments gfifo_t : clear implicits.

End Gfifo.

(** ** inc/sfifo.h: the queue with its buffer embedded *)

Module Sfifo.

Section WithType.

Context {T : Type}.

(** The macro parameter [size] of [DECLARE_SFIFO_TYPE]. *)
Variable size : Z.

(** [_Static_assert(((size) & ((size) - 1)) == 0, ...)], evaluated on the
    constant [size]. *)
Definition static_assert : bool :=
  Z.land size (size - 1) =? 0.

(** [sfifo_<name>_<size>_t]; [buf] is the array [type buf[size]] itself. *)
Record sfifo_t : Type := mk {
  buf : list T;
  cap : Z;
  msk : Z;
  i : Z;
  o : Z
}.

Definition set_buf (f : sfifo_t) (b : list T) : sfifo_t :=
  {| buf := b; cap := cap f; msk := msk f; i := i f; o := o f |}.

Definition set_i (f : sfifo_t) (v : Z) : sfifo_t :=
  {| buf := buf f; cap := cap f; msk := msk f; i := v; o := o f |}.

Definition set_o (f : sfifo_t) (v : Z) : sfifo_t :=
  {| buf := buf f; cap := cap f; msk := msk f; i := i f; o := v |}.

(** The argument is the pointer [f]: [None] is a null pointer.  [size] and
    [size - 1] are converted to [uint32_t] by the assignments. *)
Definition sfifo_init (f : option sfifo_t) : option sfifo_t * bool :=
  match f with
  | None => (None, false)
  | Some f =>
      (Some {| buf := buf f; cap := U32.wrap size;
               msk := U32.wrap (size - 1); i := 0; o := 0 |}, true)
  end.

Definition sfifo_reset (f : sfifo_t) : sfifo_t :=
  set_i (set_o f 0) 0.

Definition sfifo_is_empty (f : sfifo_t) : bool :=
  i f =? o f.

Definition sfifo_is_full (f : sfifo_t) : bool :=
  U32.sub (i f) (o f) =? cap f.

Definition sfifo_count (f : sfifo_t) : Z :=
  U32.sub (i f) (o f).

Definition sfifo_push (f : sfifo_t) (e : T) : option (sfifo_t * bool) :=
  let cnt := U32.sub (i f) (o f) in
  if cnt <? cap f then
    let idx := i f in
    b' ← store (buf f) (Z.land idx (msk f)) e;
    Some (set_i (set_buf f b') (U32.add (i f) 1), true)
  else Some (f, false).

Definition sfifo_pop (f : sfifo_t) (e : T) : option (sfifo_t * T * bool) :=
  let cnt := U32.sub (i f) (o f) in
  if 0 <? cnt then
    let idx := o f in
    x ← load (buf f) (Z.land idx (msk f));
    Some (set_o f (U32.add (o f) 1), x, true)
  else Some (f, e, false).

Definition sfifo_drop (f : sfifo_t) : sfifo_t * bool :=
  let cnt := U32.sub (i f) (o f) in
  if 0 <? cnt then (set_o f (U32.add (o f) 1), true)
  else (f, false).

Definition sfifo_peek (f : sfifo_t) (e : T) : option (sfifo_t * T * bool) :=
  let cnt := U32.sub (i f) (o f) in
  if 0 <? cnt then
    let idx := o f in
    x ← load (buf f) (Z.land idx (msk f));
    Some (f, x, true)
  else Some (f, e, false).

Definition sfifo_peek_at (f : sfifo_t) (e : T) (ofst : Z)
  : option (sfifo_t * T * bool) :=
  let cnt := U32.sub (i f) (o f) in
  if ofst <? cnt then
    let idx := o f in
    x ← load (buf f) (Z.land (U32.add idx ofst) (msk f));
    Some (f, x, true)
  else Some (f, e, false).

Definition sfifo_push_array (f : sfifo_t) (arr : list T) (len : Z)
  : option (sfifo_t * bool) :=
  let in_ := i f in
  let out := o f in
  let cap := cap f in
  let msk := msk f in
  let spc := U32.sub cap (U32.sub in_ out) in
  if len =? 0 then Some (f, true)
  else if spc <? len then Some (f, false)
  else
    let ofst := Z.land in_ msk in
    let l2e := U32.sub cap ofst in
    let l1 := if len <? l2e then len else l2e in
    b1 ← memcpy (buf f) ofst arr 0 l1;
    b2 ← (if l1 <? len then memcpy b1 0 arr l1 (U32.sub len l1) else Some b1);
    Some (set_i (set_buf f b2) (U32.add in_ len), true).

Definition sfifo_pop_array (f : sfifo_t) (arr : list T) (len : Z)
  : option (sfifo_t * list T * bool) :=
  let in_ := i f in
  let out := o f in
  let cap := cap f in
  let msk := msk f in
  let cnt := U32.sub in_ out in
  if len =? 0 then Some (f, arr, true)
  else if cnt <? len then Some (f, arr, false)
  else
    let ofst := Z.land out msk in
    let l2e := U32.sub cap ofst in
    let l1 := if len <? l2e then len else l2e in
    a1 ← memcpy arr 0 (buf f) ofst l1;
    a2 ← (if l1 <? len then memcpy a1 l1 (buf f) 0 (U32.sub len l1)
          else Some a1);
    Some (set_o f (U32.add out len), a2, true).

End WithType.

Arguments sfifo_t : clear implicits.

End Sfifo.

(** ** The functions each header declares *)

Inductive operation : Type :=
  | Init | Reset | Is_empty | Is_full | Count
  | Push | Pop | Drop | Drop_multi
  | Peek | Peek_at | Push_array | Pop_array.

(** The operation set of the specification's interface table. *)
Definition common_operation_set : list operation :=
  [Init; Reset; Is_empty; Is_full; Count; Push; Pop; Drop; Drop_multi;
   Peek; Peek_at; Push_array; Pop_array].

(** The functions [DECLARE_GFIFO_TYPE] expands to, in the order of the
    header. *)
Definition gfifo_operations : list operation :=
  [Init; Reset; Is_empty; Is_full; Count; Push; Pop; Drop; Drop_multi;
   Peek; Peek_at; Push_array; Pop_array].

(** The functions [DECLARE_SFIFO_TYPE] expands to, in the order of the
    header. *)
Definition sfifo_operations : list operation :=
  [Init; Reset; Is_empty; Is_full; Count; Push; Pop; Drop;
   Peek; Peek_at; Push_array; Pop_array].


(** ** Notions used by the statements *)

(** [n] is a power of two. *)
Definition is_power_of_two (n : Z) : Prop :=
  exists k : Z, 0 <= k /\ n = 2 ^ k.

Section Notions.

Context {T : Type}.

Import Gfifo.

(** One call, with 32-bit arguments, of an operation other than
    [gfifo_init]; a call that runs outside an array is no step.  The
    queries [gfifo_is_empty], [gfifo_is_full] and [gfifo_count] take the
    queue as [const] and return no queue. *)
Inductive gfifo_step : gfifo_t T -> gfifo_t T -> Prop :=
  | step_push f e f' r :
      gfifo_push f e = Some (f', r) -> gfifo_step f f'
  | step_pop f e f' x r :
      gfifo_pop f e = Some (f', x, r) -> gfifo_step f f'
  | step_drop f :
      gfifo_step f (gfifo_drop f).1
  | step_drop_multi f len :
      U32.in_range len -> gfifo_step f (gfifo_drop_multi f len).1
  | step_peek f e f' x r :
      gfifo_peek f e = Some (f', x, r) -> gfifo_step f f'
  | step_peek_at f e ofst f' x r :
      U32.in_range ofst ->
      gfifo_peek_at f e ofst = Some (f', x, r) -> gfifo_step f f'
  | step_push_array f arr len f' r :
      U32.in_range len ->
      gfifo_push_array f arr len = Some (f', r) -> gfifo_step f f'
  | step_pop_array f arr len f' a r :
      U32.in_range len ->
      gfifo_pop_array f arr len = Some (f', a, r) -> gfifo_step f f'
  | step_reset f :
      gfifo_step f (gfifo_reset f).

(** The states a queue goes through: a successful [gfifo_init] followed by
    any number of calls. *)
Inductive gfifo_reachable : gfifo_t T -> Prop :=
  | reach_init f0 buf size f :
      U32.in_range size ->
      gfifo_init f0 buf size = (f, true) -> gfifo_reachable f
  | reach_step f f' :
      gfifo_reachable f -> gfifo_step f f' -> gfifo_reachable f'.

(** What the index arithmetic relies on. *)
Definition gfifo_inv (f : gfifo_t T) : Prop :=
  U32.in_range (i f) /\ U32.in_range (o f) /\ U32.in_range (cap f)
  /\ gfifo_count f <= cap f.

(** The free space [spc] that [gfifo_push_array] computes. *)
Definition gfifo_free_space (f : gfifo_t T) : Z :=
  U32.sub (cap f) (gfifo_count f).

(** The same for [sfifo_push_array]. *)
Definition sfifo_free_space (s : Sfifo.sfifo_t T) : Z :=
  U32.sub (Sfifo.cap s) (Sfifo.sfifo_count s).

(** A queue set up as [gfifo_init] leaves it when the caller's array has
    [size] elements, with its indices in step. *)
Definition gfifo_wf (f : gfifo_t T) : Prop :=
  gfifo_inv f
  /\ is_power_of_two (cap f)
  /\ msk f = cap f - 1
  /\ exists b : list T, buf f = Some b /\ Z.of_nat (length b) = cap f.

(** A call of [gfifo_peek] or of [gfifo_peek_at], with the value behind the
    output pointer before the call. *)
Inductive peek_call : Type :=
  | Call_peek (e : T)
  | Call_peek_at (e : T) (ofst : Z).

Definition run_peek_call (f : gfifo_t T) (c : peek_call)
  : option (gfifo_t T * T * bool) :=
  match c with
  | Call_peek e => gfifo_peek f e
  | Call_peek_at e ofst => gfifo_peek_at f e ofst
  end.

(** The calls one after the other on the same queue; the result lists, per
    call, the value behind the output pointer and the returned flag. *)
Fixpoint run_peek_calls (f : gfifo_t T) (cs : list peek_call)
  : option (gfifo_t T * list (T * bool)) :=
  match cs with
  | [] => Some (f, [])
  | c :: cs =>
      '(f1, x, r) ← run_peek_call f c;
      '(f2, outs) ← run_peek_calls f1 cs;
      Some (f2, (x, r) :: outs)
  end.

(** [gfifo_push] of each element of [es] in turn, with the flags
    returned. *)
Fixpoint push_each (f : gfifo_t T) (es : list T)
  : option (gfifo_t T * list bool) :=
  match es with
  | [] => Some (f, [])
  | e :: es =>
      '(f1, r) ← gfifo_push f e;
      '(f2, rs) ← push_each f1 es;
      Some (f2, r :: rs)
  end.

(** [n] calls of [gfifo_pop] into one output variable that holds [e] at
    first; the result lists, per call, the value of the variable after the
    call and the flag. *)
Fixpoint pop_times (f : gfifo_t T) (n : nat) (e : T)
  : option (gfifo_t T * list (T * bool)) :=
  match n with
  | O => Some (f, [])
  | S n =>
      '(f1, x, r) ← gfifo_pop f e;
      '(f2, outs) ← pop_times f1 n x;
      Some (f2, (x, r) :: outs)
  end.

(** The two structs hold the same logical state: same capacity, mask and
    indices, and the same elements in the array. *)
Definition same_state (g : gfifo_t T) (s : Sfifo.sfifo_t T) : Prop :=
  buf g = Some (Sfifo.buf s)
  /\ cap g = Sfifo.cap s
  /\ msk g = Sfifo.msk s
  /\ i g = Sfifo.i s
  /\ o g = Sfifo.o s.

(** Two calls end alike: both run outside an array, or both return, with
    the same outputs and flag and in the same logical state. *)
Definition same_outcome {A : Type}
    (r : option (gfifo_t T * A)) (r' : option (Sfifo.sfifo_t T * A)) : Prop :=
  match r, r' with
  | Some (g', a), Some (s', a') => a = a' /\ same_state g' s'
  | None, None => True
  | _, _ => False
  end.

(** The results of the calls with an output, regrouped as queue and
    outputs. *)
Definition regroup {Q A B : Type} (r : option (Q * A * B))
  : option (Q * (A * B)) :=
  '(q, a, b) ← r; Some (q, (a, b)).

(** The external-buffer queue with the fields of an embedded-buffer one. *)
Definition to_gfifo (s : Sfifo.sfifo_t T) : gfifo_t T :=
  {| buf := Some (Sfifo.buf s); cap := Sfifo.cap s; msk := Sfifo.msk s;
     i := Sfifo.i s; o := Sfifo.o s |}.

(** One call of an operation of [sfifo.h] other than [sfifo_init]. *)
Inductive sfifo_step : Sfifo.sfifo_t T -> Sfifo.sfifo_t T -> Prop :=
  | sstep_push s e s' r :
      Sfifo.sfifo_push s e = Some (s', r) -> sfifo_step s s'
  | sstep_pop s e s' x r :
      Sfifo.sfifo_pop s e = Some (s', x, r) -> sfifo_step s s'
  | sstep_drop s :
      sfifo_step s (Sfifo.sfifo_drop s).1
  | sstep_peek s e s' x r :
      Sfifo.sfifo_peek s e = Some (s', x, r) -> sfifo_step s s'
  | sstep_peek_at s e ofst s' x r :
      U32.in_range ofst ->
      Sfifo.sfifo_peek_at s e ofst = Some (s', x, r) -> sfifo_step s s'
  | sstep_push_array s arr len s' r :
      U32.in_range len ->
      Sfifo.sfifo_push_array s arr len = Some (s', r) -> sfifo_step s s'
  | sstep_pop_array s arr len s' a r :
      U32.in_range len ->
      Sfifo.sfifo_pop_array s arr len = Some (s', a, r) -> sfifo_step s s'
  | sstep_reset s :
      sfifo_step s (Sfifo.sfifo_reset s).

(** The states of a queue of the type declared for [size]. *)
Inductive sfifo_reachable (size : Z) : Sfifo.sfifo_t T -> Prop :=
  | sreach_init s0 s :
      Sfifo.sfifo_init size (Some s0) = (Some s, true) ->
      sfifo_reachable size s
  | sreach_step s s' :
      sfifo_reachable size s -> sfifo_step s s' -> sfifo_reachable size s'.

End Notions.

(** ** Queues used as examples *)

(** A queue of four slots that all hold 7, after [n] rounds of push 7 and
    drop. *)
Definition after_rounds (n : Z) : Gfifo.gfifo_t Z :=
  {| Gfifo.buf := Some [7; 7; 7; 7]; Gfifo.cap := 4; Gfifo.msk := 3;
     Gfifo.i := U32.wrap n; Gfifo.o := U32.wrap n |}.

(** Head 1, tail 2^32 - 1: two elements, the head past the wrap. *)
Definition wrapped_queue : Gfifo.gfifo_t Z :=
  {| Gfifo.buf := Some [7; 7; 7; 7]; Gfifo.cap := 4; Gfifo.msk := 3;
     Gfifo.i := 1; Gfifo.o := 4294967295 |}.


(** ** The elements a queue holds *)

Section Contents.

Context {T : Type}.

Import Gfifo.

(** The elements between tail and head, oldest first: the array read
    round from the slot [o & msk], [gfifo_count] elements of it.  They are
    what [gfifo_peek_at] delivers at the offsets 0, 1, ... *)
Definition gfifo_queued (f : gfifo_t T) : list T :=
  match buf f with
  | Some b =>
      take (Z.to_nat (gfifo_count f))
           (rotate (Z.to_nat (Z.land (o f) (msk f))) b)
  | None => []
  end.

(** The same for the embedded-buffer queue. *)
Definition sfifo_queued (s : Sfifo.sfifo_t T) : list T :=
  take (Z.to_nat (Sfifo.sfifo_count s))
       (rotate (Z.to_nat (Z.land (Sfifo.o s) (Sfifo.msk s))) (Sfifo.buf s)).

End Contents.

(** ** Runs of calls, and the embedded-buffer queue well-formed *)

Section SfifoNotions.

Context {T : Type}.

(** Any number of calls, one after the other. *)
Inductive gfifo_run : Gfifo.gfifo_t T -> Gfifo.gfifo_t T -> Prop :=
  | run_done f : gfifo_run f f
  | run_step f f1 f2 : gfifo_step f f1 -> gfifo_run f1 f2 -> gfifo_run f f2.

(** The embedded-buffer queue as [sfifo_init] leaves it for a power of two
    [size] and an array of [size] elements, with its indices in step. *)
Definition sfifo_wf (s : Sfifo.sfifo_t T) : Prop :=
  gfifo_wf (to_gfifo s).

End SfifoNotions.

(** ** demo/demo_gfifo.c and demo/demo_sfifo.c *)

Module Demo.

Definition FIFO_SIZE : Z := 1024.

Definition CIRCULAR_LOOP : Z := 50000.

Definition IO_DATA_BYTE_COUNT : Z := 17.

(** [memcmp(a, b, n) != 0] on arrays of bytes. *)
Definition memcmp_differs (a b : list Z) (n : Z) : bool :=
  negb (bool_decide (take (Z.to_nat n) a = take (Z.to_nat n) b)).

(** The globals of the demos, zero-initialised. *)
Definition fifo_buf : list Z := replicate (Z.to_nat FIFO_SIZE) 0.

Definition push_data : list Z := replicate (Z.to_nat IO_DATA_BYTE_COUNT) 0.

Definition pop_data : list Z := replicate (Z.to_nat IO_DATA_BYTE_COUNT) 0.

Definition gfifo_fifo : Gfifo.gfifo_t Z :=
  {| Gfifo.buf := None; Gfifo.cap := 0; Gfifo.msk := 0;
     Gfifo.i := 0; Gfifo.o := 0 |}.

Definition sfifo_fifo : Sfifo.sfifo_t Z :=
  {| Sfifo.buf := replicate (Z.to_nat FIFO_SIZE) 0; Sfifo.cap := 0;
     Sfifo.msk := 0; Sfifo.i := 0; Sfifo.o := 0 |}.

Section Loop.

(** [gen i] is the byte that iteration [i] stores in every place of
    [push_data]: [random_data * i] converted to [uint8_t], with
    [random_data = 10 * rand()].  The generator is outside the program. *)
Variable gen : Z -> Z.

(** The iterations [i], [i + 1], ... of the [for] loop of
    [demo_gfifo.c], [n] of them, from the data loop on; the result is the
    value [main] returns from inside the loop, or [None] with the queue
    and [pop_data] when the loop runs to its end.  The writes to the
    report file are left out. *)
Fixpoint gfifo_loop (n : nat) (i : Z) (fifo : Gfifo.gfifo_t Z)
    (pop_data : list Z) : option (option Z * Gfifo.gfifo_t Z * list Z) :=
  match n with
  | O => Some (None, fifo, pop_data)
  | S n =>
      let push_data :=
        replicate (Z.to_nat IO_DATA_BYTE_COUNT) (gen i) in
      '(fifo, ok) ← Gfifo.gfifo_push_array fifo push_data IO_DATA_BYTE_COUNT;
      if negb ok then Some (Some (-1), fifo, pop_data)
      else
        '(fifo, pop_data, ok) ←
          Gfifo.gfifo_pop_array fifo pop_data IO_DATA_BYTE_COUNT;
        if negb ok then Some (Some (-2), fifo, pop_data)
        else if memcmp_differs push_data pop_data IO_DATA_BYTE_COUNT
             then Some (Some (-3), fifo, pop_data)
             else gfifo_loop n (i + 1) fifo pop_data
  end.

(** [main] of [demo_gfifo.c]; [fd_ok] tells whether [fopen] returned a
    file.  The value returned by [gfifo_byte_init] is not looked at.
    [main] calls [init], [push_array] and [pop_array] only.  The file as
    shipped is not accepted by a compiler: its expansion of
    [DECLARE_GFIFO_TYPE] also contains [drop_multi], which reads the
    undeclared [len].  This is [main] once that function is out of the
    way, not a run of the shipped program. *)
Definition gfifo_main (fd_ok : bool) : option Z :=
  let fifo := (Gfifo.gfifo_init gfifo_fifo (Some fifo_buf) FIFO_SIZE).1 in
  if fd_ok then
    '(r, _, _) ← gfifo_loop (Z.to_nat CIRCULAR_LOOP) 0 fifo pop_data;
    match r with
    | Some code => Some code
    | None => Some 0
    end
  else Some (-1).

(** The same loop in [demo_sfifo.c]. *)
Fixpoint sfifo_loop (n : nat) (i : Z) (fifo : Sfifo.sfifo_t Z)
    (pop_data : list Z) : option (option Z * Sfifo.sfifo_t Z * list Z) :=
  match n with
  | O => Some (None, fifo, pop_data)
  | S n =>
      let push_data :=
        replicate (Z.to_nat IO_DATA_BYTE_COUNT) (gen i) in
      '(fifo, ok) ← Sfifo.sfifo_push_array fifo push_data IO_DATA_BYTE_COUNT;
      if negb ok then Some (Some (-1), fifo, pop_data)
      else
        '(fifo, pop_data, ok) ←
          Sfifo.sfifo_pop_array fifo pop_data IO_DATA_BYTE_COUNT;
        if negb ok then Some (Some (-2), fifo, pop_data)
        else if memcmp_differs push_data pop_data IO_DATA_BYTE_COUNT
             then Some (Some (-3), fifo, pop_data)
             else sfifo_loop n (i + 1) fifo pop_data
  end.

(** [main] of [demo_sfifo.c], for [DECLARE_SFIFO_TYPE(byte, uint8_t,
    1024)]; the address of the global [fifo] is not null. *)
Definition sfifo_main (fd_ok : bool) : option Z :=
  match (Sfifo.sfifo_init FIFO_SIZE (Some sfifo_fifo)).1 with
  | None => None
  | Some fifo =>
      if fd_ok then
        '(r, _, _) ← sfifo_loop (Z.to_nat CIRCULAR_LOOP) 0 fifo pop_data;
        match r with
        | Some code => Some code
        | None => Some 0
        end
      else Some (-1)
  end.

End Loop.

End Demo.

(** A queue of four slots whose indices are past the end of the array: it
    holds 5 and 6, in the slots 3 and 0. *)
Definition example_queue : Gfifo.gfifo_t Z :=
  {| Gfifo.buf := Some [6; 0; 0; 5]; Gfifo.cap := 4; Gfifo.msk := 3;
     Gfifo.i := 5; Gfifo.o := 3 |}.

(** The same as an embedded-buffer queue. *)
Definition example_squeue : Sfifo.sfifo_t Z :=
  {| Sfifo.buf := [6; 0; 0; 5]; Sfifo.cap := 4; Sfifo.msk := 3;
     Sfifo.i := 5; Sfifo.o := 3 |}.

(** An empty queue of four slots with both indices at 7. *)
Definition example_empty_queue : Gfifo.gfifo_t Z :=
  {| Gfifo.buf := Some [6; 0; 0; 5]; Gfifo.cap := 4; Gfifo.msk := 3;
     Gfifo.i := 7; Gfifo.o := 7 |}.
(** * Properties *)

(** ** Facts on 32-bit arithmetic *)

Lemma wrap_range (z : Z) : U32.in_range (U32.wrap z).
Proof.
  unfold U32.in_range, U32.wrap, U32.modulus.
  apply Z.mod_pos_bound. lia.
Qed.

Lemma wrap_small (z : Z) : U32.in_range z -> U32.wrap z = z.
Proof.
  unfold U32.in_range, U32.wrap. intros H. apply Z.mod_small. exact H.
Qed.

Lemma sub_range (a b : Z) : U32.in_range (U32.sub a b).
Proof. apply wrap_range. Qed.

Lemma add_range (a b : Z) : U32.in_range (U32.add a b).
Proof. apply wrap_range. Qed.

Lemma sub_add_l (a b n : Z) :
  U32.sub (U32.add a n) b = U32.wrap (U32.sub a b + n).
Proof.
  unfold U32.sub, U32.add, U32.wrap.
  rewrite Zminus_mod_idemp_l, Zplus_mod_idemp_l. f_equal. lia.
Qed.

Lemma sub_add_r (a b n : Z) :
  U32.sub a (U32.add b n) = U32.wrap (U32.sub a b - n).
Proof.
  unfold U32.sub, U32.add, U32.wrap.
  rewrite Zminus_mod_idemp_r, Zminus_mod_idemp_l. f_equal. lia.
Qed.

Lemma sub_diag (a : Z) : U32.sub a a = 0.
Proof. unfold U32.sub, U32.wrap. rewrite Z.sub_diag. reflexivity. Qed.

Lemma sub_eq_0 (a b : Z) :
  U32.in_range a -> U32.in_range b -> (U32.sub a b = 0 <-> a = b).
Proof.
  unfold U32.in_range, U32.sub, U32.wrap, U32.modulus. intros Ha Hb. split.
  - intros H.
    destruct (Z.eq_dec a b) as [|Hne]; [assumption|exfalso].
    destruct (Z_lt_le_dec a b).
    + assert (E : (a - b) mod 2 ^ 32 = a - b + 2 ^ 32).
      { symmetry. apply Z.mod_unique with (q := -1); lia. }
      lia.
    + rewrite Z.mod_small in H by lia. lia.
  - intros ->. rewrite Z.sub_diag. reflexivity.
Qed.

(** ** Powers of two and the test [size & (size - 1)] *)

Lemma land_pred_pow2 (k : Z) : 0 <= k -> Z.land (2 ^ k) (2 ^ k - 1) = 0.
Proof.
  intros Hk. replace (2 ^ k - 1) with (Z.ones k).
  - rewrite Z.land_ones by assumption. apply Z.mod_same.
    apply Z.pow_nonzero; lia.
  - rewrite Z.ones_equiv. lia.
Qed.

Lemma land_pred_not_pow2 (n : Z) :
  0 < n -> n <> 2 ^ Z.log2 n -> Z.land n (n - 1) <> 0.
Proof.
  intros Hn Hne E.
  pose proof (Z.log2_spec n Hn) as [Hlo Hhi].
  pose proof (Z.log2_nonneg n) as Hk.
  assert (Hlog : Z.log2 (n - 1) = Z.log2 n).
  { apply Z.log2_unique; [assumption|]. rewrite <- Z.add_1_r. lia. }
  assert (Hb1 : Z.testbit n (Z.log2 n) = true) by (apply Z.bit_log2; lia).
  assert (Hb2 : Z.testbit (n - 1) (Z.log2 n) = true).
  { rewrite <- Hlog. apply Z.bit_log2. lia. }
  assert (Hb : Z.testbit (Z.land n (n - 1)) (Z.log2 n) = true).
  { rewrite Z.land_spec, Hb1, Hb2. reflexivity. }
  rewrite E, Z.bits_0 in Hb. discriminate.
Qed.

Lemma land_pred_iff (n : Z) :
  0 < n -> (Z.land n (n - 1) = 0 <-> is_power_of_two n).
Proof.
  intros Hn. split.
  - intros E. exists (Z.log2 n). split; [apply Z.log2_nonneg|].
    destruct (Z.eq_dec n (2 ^ Z.log2 n)) as [|Hne]; [assumption|].
    exfalso. exact (land_pred_not_pow2 n Hn Hne E).
  - intros (k & Hk & ->). apply land_pred_pow2. assumption.
Qed.

Lemma power_of_two_pos (n : Z) : is_power_of_two n -> 0 < n.
Proof. intros (k & Hk & ->). apply Z.pow_pos_nonneg; lia. Qed.

(** ** Initialisation of the external-buffer queue *)

Section Init.

Context {T : Type}.

Import Gfifo.

Lemma gfifo_init_test (size : Z) :
  U32.in_range size ->
  ((size =? 0) || negb (Z.land size (U32.sub size 1) =? 0) = false
   <-> is_power_of_two size).
Proof.
  intros Hr. rewrite orb_false_iff, negb_false_iff, Z.eqb_neq, Z.eqb_eq.
  split.
  - intros [Hz E].
    assert (Hp : 0 < size) by (unfold U32.in_range in Hr; lia).
    unfold U32.sub in E. rewrite wrap_small in E.
    + apply land_pred_iff; assumption.
    + unfold U32.in_range in *. lia.
  - intros Hp. pose proof (power_of_two_pos _ Hp) as Hpos.
    split; [lia|].
    unfold U32.sub. rewrite wrap_small.
    + apply land_pred_iff; assumption.
    + unfold U32.in_range in *. lia.
Qed.

(** C5. [gfifo_init] on a 32-bit [size]: it returns [false] exactly when
    [size] is 0, [size] is not a power of two, or [buf] is null, and then
    the queue is returned with every field as it was; sizes 0, 3 and 1000
    are refused and sizes 1, 2, 4 and 1024 are accepted with a buffer;
    when it returns [true] the queue holds the buffer, [cap = size],
    [msk = size - 1] and [i = o = 0]. *)
Theorem gfifo_init_spec (f : gfifo_t T) (buf : option (list T)) (size : Z) :
  U32.in_range size ->
  ((gfifo_init f buf size).2 = false
     <-> size = 0 \/ ~ is_power_of_two size \/ buf = None)
  /\ ((gfifo_init f buf size).2 = false -> (gfifo_init f buf size).1 = f)
  /\ ((gfifo_init f buf size).2 = true ->
        (gfifo_init f buf size).1
        = {| buf := buf; cap := size; msk := size - 1; i := 0; o := 0 |})
  /\ (forall b : list T,
        (gfifo_init f (Some b) 0).2 = false
        /\ (gfifo_init f (Some b) 3).2 = false
        /\ (gfifo_init f (Some b) 1000).2 = false
        /\ (gfifo_init f (Some b) 1).2 = true
        /\ (gfifo_init f (Some b) 2).2 = true
        /\ (gfifo_init f (Some b) 4).2 = true
        /\ (gfifo_init f (Some b) 1024).2 = true).
Proof.
  intros Hr. pose proof (gfifo_init_test size Hr) as Htest.
  unfold gfifo_init.
  destruct ((size =? 0) || negb (Z.land size (U32.sub size 1) =? 0)) eqn:Et.
  - (* the size is refused *)
    assert (Hnp : ~ is_power_of_two size).
    { intros Hp. apply Htest in Hp. discriminate. }
    cbn. repeat split; try discriminate; try reflexivity.
    intros _. destruct (Z.eq_dec size 0); [left|right; left]; assumption.
  - assert (Hp : is_power_of_two size) by (apply Htest; reflexivity).
    pose proof (power_of_two_pos _ Hp) as Hpos.
    destruct buf as [b|]; cbn.
    + repeat split; try discriminate; try reflexivity.
      * intros [Hz | [Hn | Hb]]; [lia | contradiction | discriminate].
      * intros _. f_equal. unfold U32.sub. apply wrap_small.
        unfold U32.in_range in *. lia.
    + repeat split; try discriminate; try reflexivity.
      intros _. right; right; reflexivity.
Qed.

End Init.

(** The theorem at [size = 8] with an eight-element buffer. *)
Lemma gfifo_init_spec_witness :
  U32.in_range 8
  /\ (Gfifo.gfifo_init (Gfifo.mk None 0 0 0 0)
        (Some [0; 0; 0; 0; 0; 0; 0; 0]) 8).1
     = Gfifo.mk (Some [0; 0; 0; 0; 0; 0; 0; 0]) 8 7 0 0.
Proof.
  assert (Hr : U32.in_range 8) by (unfold U32.in_range, U32.modulus; lia).
  split; [exact Hr|].
  apply (gfifo_init_spec (Gfifo.mk None 0 0 0 0)
           (Some [0; 0; 0; 0; 0; 0; 0; 0]) 8 Hr).
  reflexivity.
Defined.

(** ** Occupancy of reachable queues *)

Section Occupancy.

Context {T : Type}.

Import Gfifo.

Implicit Types f : gfifo_t T.

Lemma count_advance_i f n :
  gfifo_count (set_i f (U32.add (i f) n)) = U32.wrap (gfifo_count f + n).
Proof. unfold gfifo_count. cbn. apply sub_add_l. Qed.

Lemma count_advance_o f n :
  gfifo_count (set_o f (U32.add (o f) n)) = U32.wrap (gfifo_count f - n).
Proof. unfold gfifo_count. cbn. apply sub_add_r. Qed.

Lemma inv_advance_i f b n :
  gfifo_inv f -> 0 <= n -> gfifo_count f + n <= cap f ->
  gfifo_inv (set_i (set_buf f b) (U32.add (i f) n))
  /\ gfifo_count (set_i (set_buf f b) (U32.add (i f) n)) = gfifo_count f + n.
Proof.
  intros (Hi & Ho & Hc & Hn) Hn0 Hle.
  pose proof (sub_range (i f) (o f)) as Hcnt.
  assert (E : gfifo_count (set_i (set_buf f b) (U32.add (i f) n))
              = gfifo_count f + n).
  { unfold gfifo_count. cbn. rewrite sub_add_l. apply wrap_small.
    unfold gfifo_count, U32.in_range in *. lia. }
  split; [|exact E].
  unfold gfifo_inv. rewrite E. cbn.
  repeat split; try apply add_range; try apply Hi; try apply Ho;
    try apply Hc; lia.
Qed.

Lemma inv_advance_o f n :
  gfifo_inv f -> 0 <= n <= gfifo_count f ->
  gfifo_inv (set_o f (U32.add (o f) n))
  /\ gfifo_count (set_o f (U32.add (o f) n)) = gfifo_count f - n.
Proof.
  intros (Hi & Ho & Hc & Hn) Hle.
  pose proof (sub_range (i f) (o f)) as Hcnt.
  assert (E : gfifo_count (set_o f (U32.add (o f) n)) = gfifo_count f - n).
  { rewrite count_advance_o. apply wrap_small.
    unfold gfifo_count, U32.in_range in *. lia. }
  split; [|exact E].
  unfold gfifo_inv. rewrite E. cbn.
  repeat split; try apply add_range; try apply Hi; try apply Ho;
    try apply Hc; lia.
Qed.

Lemma inv_init f0 buf size f :
  U32.in_range size -> gfifo_init f0 buf size = (f, true) -> gfifo_inv f.
Proof.
  intros Hr. unfold gfifo_init.
  destruct (_ || _ || _); [discriminate|].
  intros [= <-]. unfold gfifo_inv, gfifo_count. cbn.
  rewrite sub_diag. unfold U32.in_range, U32.modulus in *. lia.
Qed.

Lemma inv_reset f : gfifo_inv f -> gfifo_inv (gfifo_reset f).
Proof.
  intros (Hi & Ho & Hc & Hn).
  unfold gfifo_inv, gfifo_reset, gfifo_count. cbn.
  rewrite sub_diag. unfold U32.in_range, U32.modulus in *. lia.
Qed.

(** The free space the bulk push computes is the true one. *)
Lemma free_space_exact f :
  gfifo_inv f -> U32.sub (cap f) (gfifo_count f) = cap f - gfifo_count f.
Proof.
  intros (Hi & Ho & Hc & Hn).
  pose proof (sub_range (i f) (o f)) as Hcnt.
  unfold U32.sub at 1. apply wrap_small.
  unfold gfifo_count, U32.in_range in *. lia.
Qed.

Lemma inv_step f f' : gfifo_inv f -> gfifo_step f f' -> gfifo_inv f'.
Proof.
  intros Hinv Hstep.
  pose proof (sub_range (i f) (o f)) as Hcnt. unfold U32.in_range in Hcnt.
  destruct Hstep as
    [f e f' r H | f e f' x r H | f | f len Hl | f e f' x r H
    | f e ofst f' x r Hofs H | f arr len f' r Hl H
    | f arr len f' a r Hl H | f].
  - (* push *)
    unfold gfifo_push in H.
    destruct (U32.sub (i f) (o f) <? cap f) eqn:E.
    + apply Z.ltb_lt in E. simplify_option_eq.
      apply inv_advance_i; [assumption|lia|unfold gfifo_count; lia].
    + injection H as <- <-. assumption.
  - (* pop *)
    unfold gfifo_pop in H.
    destruct (0 <? U32.sub (i f) (o f)) eqn:E.
    + apply Z.ltb_lt in E. simplify_option_eq.
      apply inv_advance_o; [assumption|unfold gfifo_count; lia].
    + injection H as <- _ _. assumption.
  - (* drop *)
    unfold gfifo_drop.
    destruct (0 <? U32.sub (i f) (o f)) eqn:E; cbn; [|assumption].
    apply Z.ltb_lt in E.
    apply inv_advance_o; [assumption|unfold gfifo_count; lia].
  - (* drop_multi *)
    unfold gfifo_drop_multi, gfifo_drop_multi_declared.
    destruct (len =? 0); cbn; [assumption|].
    destruct (U32.sub (i f) (o f) <? len) eqn:E; cbn; [assumption|].
    apply Z.ltb_ge in E. unfold U32.in_range in Hl.
    apply inv_advance_o; [assumption|unfold gfifo_count; lia].
  - (* peek *)
    unfold gfifo_peek in H.
    destruct (0 <? U32.sub (i f) (o f)); simplify_option_eq; assumption.
  - (* peek_at *)
    unfold gfifo_peek_at in H.
    destruct (ofst <? U32.sub (i f) (o f)); simplify_option_eq; assumption.
  - (* push_array *)
    unfold gfifo_push_array in H.
    destruct (len =? 0); [injection H as <- _; assumption|].
    change (U32.sub (i f) (o f)) with (gfifo_count f) in H.
    rewrite free_space_exact in H by assumption.
    destruct (cap f - gfifo_count f <? len) eqn:E;
      [injection H as <- _; assumption|].
    apply Z.ltb_ge in E. unfold U32.in_range in Hl.
    destruct (buf f) as [b|]; [|discriminate]. cbn in H.
    destruct (memcpy b _ arr 0 _) as [b1|]; [|discriminate]. cbn in H.
    match type of H with
    | context [mbind _ ?m] => destruct m as [b2|]; [|discriminate]
    end.
    cbn in H. injection H as <- _.
    apply inv_advance_i; [assumption|lia|lia].
  - (* pop_array *)
    unfold gfifo_pop_array in H.
    destruct (len =? 0); [injection H as <- _ _; assumption|].
    destruct (U32.sub (i f) (o f) <? len) eqn:E;
      [injection H as <- _ _; assumption|].
    apply Z.ltb_ge in E. unfold U32.in_range in Hl.
    destruct (buf f) as [b|]; [|discriminate]. cbn in H.
    destruct (memcpy arr 0 b _ _) as [a1|]; [|discriminate]. cbn in H.
    match type of H with
    | context [mbind _ ?m] => destruct m as [a2|]; [|discriminate]
    end.
    cbn in H. injection H as <- _ _.
    apply inv_advance_o; [assumption|unfold gfifo_count; lia].
  - (* reset *)
    apply inv_reset. assumption.
Qed.

Lemma reachable_inv f : gfifo_reachable f -> gfifo_inv f.
Proof.
  induction 1 as [f0 buf size f Hr Hinit | f f' _ IH Hstep].
  - eapply inv_init; eassumption.
  - eapply inv_step; eassumption.
Qed.

(** C1. In every state reached by a successful [gfifo_init] followed by any
    calls of push, pop, drop, drop_multi, peek, peek_at, push_array,
    pop_array and reset, the count [i - o], taken modulo 2^32, lies between
    0 and the capacity; [gfifo_is_empty] answers [true] exactly when the
    count is 0 and [gfifo_is_full] exactly when it is the capacity.  The
    indices themselves are arbitrary 32-bit values: they may have wrapped
    past 2^32 - 1 any number of times. *)
Theorem gfifo_occupancy_bound f :
  gfifo_reachable f ->
  0 <= gfifo_count f <= cap f
  /\ (gfifo_is_empty f = true <-> gfifo_count f = 0)
  /\ (gfifo_is_full f = true <-> gfifo_count f = cap f).
Proof.
  intros Hreach. destruct (reachable_inv f Hreach) as (Hi & Ho & Hc & Hn).
  pose proof (sub_range (i f) (o f)) as Hcnt. unfold U32.in_range in Hcnt.
  unfold gfifo_is_empty, gfifo_is_full, gfifo_count in *.
  split; [lia|]. split.
  - rewrite Z.eqb_eq. symmetry. apply sub_eq_0; assumption.
  - apply Z.eqb_eq.
Qed.

End Occupancy.

(** *** A reachable state whose head has wrapped *)

Section Wrapped.

Import Gfifo.

Lemma store_sevens (x : Z) :
  store [7; 7; 7; 7] (Z.land x 3) 7 = Some [7; 7; 7; 7].
Proof.
  change 3 with (Z.ones 2). rewrite Z.land_ones by lia.
  pose proof (Z.mod_pos_bound x (2 ^ 2) ltac:(lia)) as Hm.
  assert (Hc : x mod 2 ^ 2 = 0 \/ x mod 2 ^ 2 = 1 \/ x mod 2 ^ 2 = 2
               \/ x mod 2 ^ 2 = 3) by lia.
  destruct Hc as [-> | [-> | [-> | ->]]]; reflexivity.
Qed.

Lemma after_rounds_reachable (n : Z) :
  0 <= n -> gfifo_reachable (after_rounds n).
Proof.
  revert n. apply natlike_ind.
  - apply (reach_init (mk None 0 0 0 0) (Some [7; 7; 7; 7]) 4).
    + unfold U32.in_range, U32.modulus. lia.
    + reflexivity.
  - intros n Hn IH.
    pose proof (wrap_range n) as Hw. unfold U32.in_range in Hw.
    set (mid := {| buf := Some [7; 7; 7; 7]; cap := 4; msk := 3;
                   i := U32.wrap (Z.succ n); o := U32.wrap n |}).
    assert (Hi : U32.add (U32.wrap n) 1 = U32.wrap (Z.succ n)).
    { unfold U32.add, U32.wrap. rewrite Zplus_mod_idemp_l. f_equal. }
    assert (Hmid : gfifo_reachable mid).
    { apply (reach_step (after_rounds n)); [exact IH|].
      apply (step_push _ 7 _ true).
      unfold gfifo_push, after_rounds. cbn -[U32.wrap U32.sub U32.add store].
      rewrite sub_diag. cbn -[U32.wrap U32.add store].
      rewrite store_sevens. cbn -[U32.wrap U32.add].
      unfold set_i, set_buf. cbn -[U32.wrap U32.add]. rewrite Hi.
      reflexivity. }
    replace (after_rounds (Z.succ n)) with (gfifo_drop mid).1.
    + apply reach_step with (f := mid); [exact Hmid|apply step_drop].
    + unfold gfifo_drop, mid. cbn -[U32.wrap U32.sub U32.add].
      assert (Hc : U32.sub (U32.wrap (Z.succ n)) (U32.wrap n) = 1).
      { rewrite <- Hi, sub_add_l, sub_diag. reflexivity. }
      rewrite Hc. cbn -[U32.wrap U32.add]. unfold set_o.
      cbn -[U32.wrap U32.add]. rewrite Hi. reflexivity.
Qed.

Lemma wrapped_queue_reachable : gfifo_reachable wrapped_queue.
Proof.
  apply reach_step with
    (f := {| buf := Some [7; 7; 7; 7]; cap := 4; msk := 3;
             i := 0; o := 4294967295 |}).
  - apply reach_step with (f := after_rounds 4294967295).
    + apply after_rounds_reachable. lia.
    + apply (step_push _ 7 _ true). vm_compute. reflexivity.
  - apply (step_push _ 7 _ true). vm_compute. reflexivity.
Qed.

End Wrapped.

(** The theorem at a state whose head has wrapped and whose tail has not:
    its count is 2. *)
Lemma gfifo_occupancy_bound_witness :
  gfifo_reachable wrapped_queue
  /\ Gfifo.gfifo_count wrapped_queue = 2
  /\ 0 <= Gfifo.gfifo_count wrapped_queue <= Gfifo.cap wrapped_queue.
Proof.
  split; [exact wrapped_queue_reachable|].
  split; [reflexivity|].
  apply (gfifo_occupancy_bound wrapped_queue wrapped_queue_reachable).
Defined.

(** ** Refused and empty bulk requests *)

Section Bulk.

Context {T : Type}.

Import Gfifo Sfifo.

(** C3. A [push_array] of more than the free space and a [pop_array] of
    more than the count are refused with nothing changed: they return
    [false] with the queue (indices and every slot) as it was, and
    [pop_array] leaves the caller's array as it was; the buffer is not
    accessed, the result is the same for a queue whose buffer pointer is
    null, and both headers agree.  [drop_multi] as the header declares it
    tests the [len] its body reads and never the request [cnt]: it is
    refused with nothing changed when that [len] exceeds the count,
    whatever the request; but on the empty queue the request 5 returns
    [true] under [len] = 0, and on a queue of one element the request 5
    moves the tail under [len] = 1. *)
Theorem bulk_all_or_nothing
    (f : gfifo_t T) (s : sfifo_t T) (arr : list T) (n : Z) :
  (gfifo_free_space f < n -> gfifo_push_array f arr n = Some (f, false))
  /\ (gfifo_count f < n -> gfifo_pop_array f arr n = Some (f, arr, false))
  /\ (sfifo_free_space s < n -> sfifo_push_array s arr n = Some (s, false))
  /\ (sfifo_count s < n -> sfifo_pop_array s arr n = Some (s, arr, false))
  /\ (gfifo_count f < n ->
      forall cnt : Z, gfifo_drop_multi_declared n f cnt = (f, false))
  /\ (let e0 : gfifo_t Z := Gfifo.mk (Some [5; 0; 0; 0]) 4 3 0 0 in
      gfifo_drop_multi_declared 0 e0 5 = (e0, true))
  /\ (let f1 : gfifo_t Z := Gfifo.mk (Some [5; 0; 0; 0]) 4 3 1 0 in
      gfifo_drop_multi_declared 1 f1 5 = (Gfifo.set_o f1 1, true)).
Proof.
  pose proof (sub_range (Gfifo.cap f) (gfifo_count f)) as Hg.
  pose proof (sub_range (Gfifo.i f) (Gfifo.o f)) as Hgc.
  pose proof (sub_range (Sfifo.cap s) (sfifo_count s)) as Hs.
  pose proof (sub_range (Sfifo.i s) (Sfifo.o s)) as Hsc.
  unfold U32.in_range in *.
  unfold gfifo_free_space, sfifo_free_space, gfifo_count, sfifo_count in *.
  split; [|split; [|split; [|split; [|split; [|split]]]]].
  - intros Hlt. unfold gfifo_push_array.
    destruct (Z.eqb_spec n 0) as [->|_]; [lia|].
    destruct (Z.ltb_spec (U32.sub (Gfifo.cap f)
                            (U32.sub (Gfifo.i f) (Gfifo.o f))) n);
      [reflexivity|lia].
  - intros Hlt. unfold gfifo_pop_array.
    destruct (Z.eqb_spec n 0) as [->|_]; [lia|].
    destruct (Z.ltb_spec (U32.sub (Gfifo.i f) (Gfifo.o f)) n);
      [reflexivity|lia].
  - intros Hlt. unfold sfifo_push_array.
    destruct (Z.eqb_spec n 0) as [->|_]; [lia|].
    destruct (Z.ltb_spec (U32.sub (Sfifo.cap s)
                            (U32.sub (Sfifo.i s) (Sfifo.o s))) n);
      [reflexivity|lia].
  - intros Hlt. unfold sfifo_pop_array.
    destruct (Z.eqb_spec n 0) as [->|_]; [lia|].
    destruct (Z.ltb_spec (U32.sub (Sfifo.i s) (Sfifo.o s)) n);
      [reflexivity|lia].
  - intros Hlt cnt. unfold gfifo_drop_multi_declared.
    destruct (Z.eqb_spec n 0) as [->|_]; [lia|].
    destruct (Z.ltb_spec (U32.sub (Gfifo.i f) (Gfifo.o f)) n);
      [reflexivity|lia].
  - reflexivity.
  - reflexivity.
Qed.

(** C9. A [push_array] and a [pop_array] of length 0 return [true] and
    change nothing, for every queue, empty, full or otherwise: the queue
    and the caller's array come back as they were, in both headers.
    [drop_multi] as the header declares it returns [true] with nothing
    changed when the [len] its body reads is 0, whatever the request
    [cnt]; the request 0 itself is not read: under [len] = 1 it returns
    [false] on the empty queue and moves the tail of a queue of one
    element. *)
Theorem bulk_zero_length
    (f : gfifo_t T) (s : sfifo_t T) (arr : list T) :
  gfifo_push_array f arr 0 = Some (f, true)
  /\ gfifo_pop_array f arr 0 = Some (f, arr, true)
  /\ sfifo_push_array s arr 0 = Some (s, true)
  /\ sfifo_pop_array s arr 0 = Some (s, arr, true)
  /\ (forall cnt : Z, gfifo_drop_multi_declared 0 f cnt = (f, true))
  /\ (let e0 : gfifo_t Z := Gfifo.mk (Some [5; 0; 0; 0]) 4 3 0 0 in
      gfifo_drop_multi_declared 1 e0 0 = (e0, false))
  /\ (let f1 : gfifo_t Z := Gfifo.mk (Some [5; 0; 0; 0]) 4 3 1 0 in
      gfifo_drop_multi_declared 1 f1 0 = (Gfifo.set_o f1 1, true)).
Proof.
  do 4 (split; [reflexivity|]).
  split; [intros cnt; reflexivity|]. split; reflexivity.
Qed.

(** The body of [drop_multi] on a request [len] of 32 bits that is not
    refused: nothing happens for 0, otherwise [o] advances by [len] and
    nothing else changes; the count goes down by [len] when the indices are
    in step. *)
Lemma gfifo_drop_multi_body (f : gfifo_t T) (len : Z) :
  U32.in_range len -> len <= gfifo_count f ->
  gfifo_drop_multi f 0 = (f, true)
  /\ (len <> 0 ->
      gfifo_drop_multi f len = (Gfifo.set_o f (U32.add (Gfifo.o f) len), true))
  /\ (gfifo_inv f ->
      gfifo_count (gfifo_drop_multi f len).1 = gfifo_count f - len).
Proof.
  intros Hr Hle. unfold U32.in_range in Hr.
  split; [reflexivity|].
  unfold gfifo_drop_multi, gfifo_drop_multi_declared, gfifo_count in *.
  split.
  - intros Hnz. destruct (Z.eqb_spec len 0); [contradiction|].
    destruct (Z.ltb_spec (U32.sub (Gfifo.i f) (Gfifo.o f)) len);
      [lia|reflexivity].
  - intros Hinv. destruct (Z.eqb_spec len 0) as [->|Hnz]; cbn; [lia|].
    destruct (Z.ltb_spec (U32.sub (Gfifo.i f) (Gfifo.o f)) len); [lia|].
    cbn. apply inv_advance_o; [assumption|unfold gfifo_count; lia].
Qed.

End Bulk.

(** The theorem on a full queue of capacity 4 and on an empty one: a
    request of 1 more than what is available. *)
Lemma bulk_all_or_nothing_witness :
  let full := Gfifo.mk (Some [1; 2; 3; 4]) 4 3 4 0 in
  let empty := Gfifo.mk (Some [1; 2; 3; 4]) 4 3 6 6 in
  let s := Sfifo.mk [1; 2; 3; 4] 4 3 4 0 in
  Gfifo.gfifo_push_array full [9] 1 = Some (full, false)
  /\ Gfifo.gfifo_pop_array empty [9] 1 = Some (empty, [9], false)
  /\ Sfifo.sfifo_push_array s [9] 1 = Some (s, false)
  /\ Sfifo.sfifo_pop_array s [9] 5 = Some (s, [9], false)
  /\ Gfifo.gfifo_drop_multi_declared 1 empty 7 = (empty, false).
Proof.
  cbv zeta.
  pose proof (bulk_all_or_nothing (Gfifo.mk (Some [1; 2; 3; 4]) 4 3 4 0)
                (Sfifo.mk [1; 2; 3; 4] 4 3 4 0) [9] 1)
    as (Hpush & _ & Hspush & _).
  pose proof (bulk_all_or_nothing (Gfifo.mk (Some [1; 2; 3; 4]) 4 3 6 6)
                (Sfifo.mk [1; 2; 3; 4] 4 3 4 0) [9] 1)
    as (_ & Hpop & _ & _ & Hdrop & _).
  pose proof (bulk_all_or_nothing (Gfifo.mk (Some [1; 2; 3; 4]) 4 3 4 0)
                (Sfifo.mk [1; 2; 3; 4] 4 3 4 0) [9] 5)
    as (_ & _ & _ & Hspop & _).
  split; [apply Hpush; vm_compute; reflexivity|].
  split; [apply Hpop; vm_compute; reflexivity|].
  split; [apply Hspush; vm_compute; reflexivity|].
  split; [apply Hspop; vm_compute; reflexivity|].
  apply Hdrop; vm_compute; reflexivity.
Defined.

(** ** The declared parameter of [drop_multi] *)

(** C6.  [drop_multi] as the header declares it never reads its argument:
    whatever [len] stands for, calls that differ in the argument only
    return the same flag and the same queue.  On a queue of capacity 4
    that holds one element ([i] = 1, [o] = 0) the call with argument 1 is
    to return [true] with [o] = 1 and the call with argument 0 is to
    return [true] with [o] = 0, and no value of [len] gives both: under
    [len] = 0 the call with argument 1 leaves [o] at 0, under [len] = 1
    the call with argument 0 advances [o] to 1, and under [len] = 2 the
    call with argument 1 returns [false]. *)
Theorem gfifo_drop_multi_declared_ignores_argument :
  let f1 : Gfifo.gfifo_t Z := Gfifo.mk (Some [5; 0; 0; 0]) 4 3 1 0 in
  (forall (T : Type) (len : Z) (f : Gfifo.gfifo_t T) (n n' : Z),
      Gfifo.gfifo_drop_multi_declared len f n
      = Gfifo.gfifo_drop_multi_declared len f n')
  /\ (forall len : Z,
        Gfifo.gfifo_drop_multi_declared len f1 1
        = Gfifo.gfifo_drop_multi_declared len f1 0)
  /\ Gfifo.gfifo_drop_multi_declared 0 f1 1 = (f1, true)
  /\ Gfifo.gfifo_drop_multi_declared 1 f1 0 = (Gfifo.set_o f1 1, true)
  /\ Gfifo.gfifo_drop_multi_declared 2 f1 1 = (f1, false).
Proof.
  cbv zeta. split; [intros T len f n n'; reflexivity|].
  split; [intros len; reflexivity|].
  split; [reflexivity|]. split; reflexivity.
Qed.

(** ** Slots of a well-formed queue *)

Lemma land_wrap (x m : Z) :
  U32.in_range m -> Z.land (U32.wrap x) m = Z.land x m.
Proof.
  unfold U32.in_range, U32.wrap, U32.modulus. intros Hm.
  rewrite <- (Z.land_ones x 32) by lia.
  rewrite <- Z.land_assoc. f_equal.
  rewrite Z.land_comm, Z.land_ones by lia. apply Z.mod_small. exact Hm.
Qed.

Lemma slot_range (x c : Z) :
  is_power_of_two c -> 0 <= Z.land x (c - 1) < c.
Proof.
  intros (k & Hk & ->).
  replace (2 ^ k - 1) with (Z.ones k) by (rewrite Z.ones_equiv; lia).
  rewrite Z.land_ones by assumption.
  apply Z.mod_pos_bound. apply Z.pow_pos_nonneg; lia.
Qed.

Section Slots.

Context {T : Type}.

Import Gfifo.

Implicit Types f : gfifo_t T.

Lemma load_in_range (b : list T) (idx : Z) :
  0 <= idx < Z.of_nat (length b) -> exists x, load b idx = Some x.
Proof.
  intros Hr. unfold load.
  destruct (Z.leb_spec 0 idx); [|lia].
  apply lookup_lt_is_Some. lia.
Qed.

Lemma wf_slot f (b : list T) (x : Z) :
  gfifo_wf f -> buf f = Some b ->
  0 <= Z.land x (msk f) < Z.of_nat (length b).
Proof.
  intros (_ & Hp & Hm & b' & Hb & Hl) Hb2.
  rewrite Hb in Hb2. injection Hb2 as ->.
  rewrite Hm, Hl. apply slot_range. assumption.
Qed.

Lemma wf_load f (x : Z) :
  gfifo_wf f ->
  exists b v, buf f = Some b /\ load b (Z.land x (msk f)) = Some v.
Proof.
  intros Hwf. pose proof Hwf as (_ & _ & _ & b & Hb & _).
  destruct (load_in_range b (Z.land x (msk f))) as [v Hv].
  - eapply wf_slot; eassumption.
  - exists b, v. split; assumption.
Qed.

End Slots.

(** ** Peeking *)

Section Peek.

Context {T : Type}.

Import Gfifo.

Implicit Types f : gfifo_t T.

Lemma run_peek_call_same f c f' x r :
  run_peek_call f c = Some (f', x, r) -> f' = f.
Proof.
  destruct c as [e | e ofst]; cbn.
  - unfold gfifo_peek.
    destruct (0 <? U32.sub (i f) (o f)); intros H; simplify_option_eq;
      reflexivity.
  - unfold gfifo_peek_at.
    destruct (ofst <? U32.sub (i f) (o f)); intros H; simplify_option_eq;
      reflexivity.
Qed.

Lemma run_peek_calls_same f cs f' outs :
  run_peek_calls f cs = Some (f', outs) -> f' = f.
Proof.
  revert f f' outs. induction cs as [|c cs IH]; intros f f' outs; cbn.
  - intros [= <- _]. reflexivity.
  - destruct (run_peek_call f c) as [[[f1 x] r]|] eqn:E1; [|discriminate].
    cbn. apply run_peek_call_same in E1. subst f1.
    destruct (run_peek_calls f cs) as [[f2 outs2]|] eqn:E2; [|discriminate].
    cbn. intros [= <- _]. eapply IH. eassumption.
Qed.

Lemma run_peek_call_defined f c :
  gfifo_wf f -> exists x r, run_peek_call f c = Some (f, x, r).
Proof.
  intros Hwf. destruct c as [e | e ofst]; cbn.
  - unfold gfifo_peek. destruct (0 <? U32.sub (i f) (o f)).
    + destruct (wf_load f (o f) Hwf) as (b & v & -> & Hv). cbn.
      rewrite Hv. cbn. eauto.
    + eauto.
  - unfold gfifo_peek_at. destruct (ofst <? U32.sub (i f) (o f)).
    + destruct (wf_load f (U32.add (o f) ofst) Hwf) as (b & v & -> & Hv).
      cbn. rewrite Hv. cbn. eauto.
    + eauto.
Qed.

Lemma run_peek_calls_defined f cs :
  gfifo_wf f -> exists outs, run_peek_calls f cs = Some (f, outs).
Proof.
  intros Hwf. induction cs as [|c cs [outs IH]]; cbn.
  - eauto.
  - destruct (run_peek_call_defined f c Hwf) as (x & r & ->). cbn.
    rewrite IH. cbn. eauto.
Qed.

(** C8. Any sequence of [peek] and [peek_at] calls, whatever each returns,
    ends in the queue it started from: [i], [o], the count and every slot
    are the same, and on a well-formed queue every such sequence runs to
    its end.  A [peek] that returns [true] delivers the slot [o & msk]; a
    [peek_at] returns [true] only for [ofst] below the count and then
    delivers the slot [(o + ofst) & msk], the sum taken in 32 bits, which
    for a 32-bit mask is the slot of the exact sum. *)
Theorem peek_purity :
  (forall f cs f' outs,
      run_peek_calls f cs = Some (f', outs) ->
      f' = f /\ i f' = i f /\ o f' = o f /\ gfifo_count f' = gfifo_count f
      /\ buf f' = buf f)
  /\ (forall f cs,
        gfifo_wf f -> exists outs, run_peek_calls f cs = Some (f, outs))
  /\ (forall f e f' x,
        gfifo_peek f e = Some (f', x, true) ->
        exists b, buf f = Some b /\ load b (Z.land (o f) (msk f)) = Some x)
  /\ (forall f e ofst f' x,
        gfifo_peek_at f e ofst = Some (f', x, true) ->
        ofst < gfifo_count f
        /\ exists b, buf f = Some b
             /\ load b (Z.land (U32.add (o f) ofst) (msk f)) = Some x
             /\ (U32.in_range (msk f) ->
                 Z.land (U32.add (o f) ofst) (msk f)
                 = Z.land (o f + ofst) (msk f))).
Proof.
  split; [|split; [|split]].
  - intros f cs f' outs H. apply run_peek_calls_same in H. subst f'.
    repeat split.
  - intros f cs Hwf. apply run_peek_calls_defined. assumption.
  - intros f e f' x. unfold gfifo_peek.
    destruct (0 <? U32.sub (i f) (o f)); [|discriminate].
    destruct (buf f) as [b|]; [|discriminate]. cbn.
    destruct (load b _) as [v|] eqn:Ev; [|discriminate]. cbn.
    intros [= _ <-]. exists b. split; [reflexivity|assumption].
  - intros f e ofst f' x. unfold gfifo_peek_at, gfifo_count.
    destruct (Z.ltb_spec ofst (U32.sub (i f) (o f))); [|discriminate].
    destruct (buf f) as [b|]; [|discriminate]. cbn.
    destruct (load b _) as [v|] eqn:Ev; [|discriminate]. cbn.
    intros [= _ <-]. split; [assumption|]. exists b.
    split; [reflexivity|]. split; [assumption|].
    intros Hm. unfold U32.add. apply land_wrap. assumption.
Qed.

(** C10. A [pop], [peek] or [peek_at] that fails hands back the value that
    was behind the output pointer: on an empty queue [pop] and [peek]
    return [false], and so does [peek_at] for an offset not below the
    count, each with the queue and the output as they were; and whenever
    one of them returns [false] the output is the one passed in. *)
Theorem failed_read_keeps_output f (e : T) (ofst : Z) :
  (gfifo_count f = 0 ->
     gfifo_pop f e = Some (f, e, false)
     /\ gfifo_peek f e = Some (f, e, false))
  /\ (gfifo_count f <= ofst -> gfifo_peek_at f e ofst = Some (f, e, false))
  /\ (forall f' x, gfifo_pop f e = Some (f', x, false) -> x = e /\ f' = f)
  /\ (forall f' x, gfifo_peek f e = Some (f', x, false) -> x = e /\ f' = f)
  /\ (forall f' x,
        gfifo_peek_at f e ofst = Some (f', x, false) -> x = e /\ f' = f).
Proof.
  unfold gfifo_count, gfifo_pop, gfifo_peek, gfifo_peek_at.
  split; [|split; [|split; [|split]]].
  - intros ->. split; reflexivity.
  - intros Hle.
    destruct (Z.ltb_spec ofst (U32.sub (i f) (o f))); [lia|reflexivity].
  - intros f' x. destruct (0 <? U32.sub (i f) (o f)).
    + intros H. simplify_option_eq.
    + intros [= <- <-]. split; reflexivity.
  - intros f' x. destruct (0 <? U32.sub (i f) (o f)).
    + intros H. simplify_option_eq.
    + intros [= <- <-]. split; reflexivity.
  - intros f' x. destruct (ofst <? U32.sub (i f) (o f)).
    + intros H. simplify_option_eq.
    + intros [= <- <-]. split; reflexivity.
Qed.

End Peek.

(** The theorem on a queue holding 5 and 6 in slots 3 and 0: a [peek], a
    [peek_at] inside and a [peek_at] outside the stored range. *)
Lemma peek_purity_witness :
  let f := Gfifo.mk (Some [6; 0; 0; 5]) 4 3 5 3 in
  let cs := [Call_peek 0; Call_peek_at 0 1; Call_peek_at 9 2] in
  run_peek_calls f cs = Some (f, [(5, true); (6, true); (9, false)])
  /\ (exists b, Gfifo.buf f = Some b /\ load b (Z.land 3 3) = Some 5)
  /\ Gfifo.i f = 5.
Proof.
  cbv zeta.
  destruct (@peek_purity Z) as (Hsame & _ & Hpeek & _).
  split; [vm_compute; reflexivity|].
  split.
  - apply (Hpeek (Gfifo.mk (Some [6; 0; 0; 5]) 4 3 5 3) 0
             (Gfifo.mk (Some [6; 0; 0; 5]) 4 3 5 3) 5).
    vm_compute. reflexivity.
  - apply (Hsame (Gfifo.mk (Some [6; 0; 0; 5]) 4 3 5 3)
             [Call_peek 0; Call_peek_at 0 1; Call_peek_at 9 2]
             (Gfifo.mk (Some [6; 0; 0; 5]) 4 3 5 3)
             [(5, true); (6, true); (9, false)]).
    vm_compute. reflexivity.
Defined.

(** The theorem on an empty queue whose output variable holds 9. *)
Lemma failed_read_keeps_output_witness :
  let f := Gfifo.mk (Some [6; 0; 0; 5]) 4 3 5 5 in
  Gfifo.gfifo_pop f 9 = Some (f, 9, false)
  /\ Gfifo.gfifo_peek f 9 = Some (f, 9, false)
  /\ Gfifo.gfifo_peek_at f 9 0 = Some (f, 9, false).
Proof.
  cbv zeta.
  destruct (failed_read_keeps_output
              (Gfifo.mk (Some [6; 0; 0; 5]) 4 3 5 5) 9 0)
    as (Hempty & Hat & _).
  destruct Hempty as [Hpop Hpeek]; [vm_compute; reflexivity|].
  split; [exact Hpop|]. split; [exact Hpeek|].
  apply Hat. vm_compute. discriminate.
Defined.

(** ** Two runs *)

Section Runs.

Import Gfifo.

(** C2. A queue initialised over eight slots: the pushes of 1 to 8 all
    return [true]; a ninth push returns [false] and the queue, its indices
    and its slots, is as before; the queue is full; eight pops return
    [true] with 1, 2, ..., 8 in this order; the queue is then empty. *)
Theorem fifo_round_trip
    (f0 : gfifo_t Z) (b0 b1 b2 b3 b4 b5 b6 b7 e0 : Z) :
  exists f1 f2 f3 : gfifo_t Z,
    gfifo_init f0 (Some [b0; b1; b2; b3; b4; b5; b6; b7]) 8 = (f1, true)
    /\ gfifo_is_empty f1 = true
    /\ push_each f1 [1; 2; 3; 4; 5; 6; 7; 8]
       = Some (f2, [true; true; true; true; true; true; true; true])
    /\ gfifo_push f2 9 = Some (f2, false)
    /\ gfifo_is_full f2 = true
    /\ pop_times f2 8 e0
       = Some (f3, [(1, true); (2, true); (3, true); (4, true);
                    (5, true); (6, true); (7, true); (8, true)])
    /\ gfifo_is_empty f3 = true.
Proof.
  exists {| buf := Some [b0; b1; b2; b3; b4; b5; b6; b7];
            cap := 8; msk := 7; i := 0; o := 0 |}.
  exists {| buf := Some [1; 2; 3; 4; 5; 6; 7; 8];
            cap := 8; msk := 7; i := 8; o := 0 |}.
  exists {| buf := Some [1; 2; 3; 4; 5; 6; 7; 8];
            cap := 8; msk := 7; i := 8; o := 8 |}.
  split; [reflexivity|]. split; [reflexivity|]. split; [reflexivity|].
  split; [reflexivity|]. split; [reflexivity|]. split; reflexivity.
Qed.

End Runs.

Section RunsAnyType.

Context {T : Type}.

Import Gfifo.

(** C4, as the code has it.  A queue over four slots, three pushes ([i] = 3,
    [o] = 0), two pops ([o] = 2): the free space is 3 and a [push_array] of
    three elements returns [true], having copied the first element to slot
    3 and then the other two to slots 0 and 1, in two [memcpy] calls.  One
    element of the single pushes is still queued, in slot 2, so the queue
    is full and a [pop_array] of three elements returns that element
    followed by the first two of the array; the three elements of the array
    are what a [pop_array] of three returns, in the order pushed, once that
    element has been popped. *)
Theorem wrap_crossing_bulk
    (f0 : gfifo_t T) (b0 b1 b2 b3 x1 x2 x3 a1 a2 a3 e0 d1 d2 d3 : T) :
  exists f1 f2 f3 f4 f5 f6 f7 : gfifo_t T,
    gfifo_init f0 (Some [b0; b1; b2; b3]) 4 = (f1, true)
    /\ push_each f1 [x1; x2; x3] = Some (f2, [true; true; true])
    /\ i f2 = 3
    /\ o f2 = 0
    /\ pop_times f2 2 e0 = Some (f3, [(x1, true); (x2, true)])
    /\ o f3 = 2
    /\ gfifo_free_space f3 = 3
    /\ gfifo_push_array f3 [a1; a2; a3] 3 = Some (f4, true)
    /\ memcpy [x1; x2; x3; b3] 3 [a1; a2; a3] 0 1 = Some [x1; x2; x3; a1]
    /\ memcpy [x1; x2; x3; a1] 0 [a1; a2; a3] 1 2 = Some [a2; a3; x3; a1]
    /\ buf f4 = Some [a2; a3; x3; a1]
    /\ gfifo_is_full f4 = true
    /\ gfifo_pop_array f4 [d1; d2; d3] 3 = Some (f5, [x3; a1; a2], true)
    /\ gfifo_pop f4 e0 = Some (f6, x3, true)
    /\ gfifo_pop_array f6 [d1; d2; d3] 3 = Some (f7, [a1; a2; a3], true).
Proof.
  exists {| buf := Some [b0; b1; b2; b3]; cap := 4; msk := 3;
            i := 0; o := 0 |}.
  exists {| buf := Some [x1; x2; x3; b3]; cap := 4; msk := 3;
            i := 3; o := 0 |}.
  exists {| buf := Some [x1; x2; x3; b3]; cap := 4; msk := 3;
            i := 3; o := 2 |}.
  exists {| buf := Some [a2; a3; x3; a1]; cap := 4; msk := 3;
            i := 6; o := 2 |}.
  exists {| buf := Some [a2; a3; x3; a1]; cap := 4; msk := 3;
            i := 6; o := 5 |}.
  exists {| buf := Some [a2; a3; x3; a1]; cap := 4; msk := 3;
            i := 6; o := 3 |}.
  exists {| buf := Some [a2; a3; x3; a1]; cap := 4; msk := 3;
            i := 6; o := 6 |}.
  repeat (split; [reflexivity|]). reflexivity.
Qed.

End RunsAnyType.

(** C4 as stated fails: with 1, 2, 3 pushed, two of them popped and
    10, 20, 30 pushed as an array, the [pop_array] of three elements
    returns 3, 10, 20 and not 10, 20, 30. *)
Lemma wrap_crossing_bulk_counterexample :
  let f1 := Gfifo.mk (Some [0; 0; 0; 0]) 4 3 0 0 in
  let f2 := Gfifo.mk (Some [1; 2; 3; 0]) 4 3 3 0 in
  let f3 := Gfifo.mk (Some [1; 2; 3; 0]) 4 3 3 2 in
  let f4 := Gfifo.mk (Some [20; 30; 3; 10]) 4 3 6 2 in
  let f5 := Gfifo.mk (Some [20; 30; 3; 10]) 4 3 6 5 in
  Gfifo.gfifo_init (Gfifo.mk None 0 0 0 0) (Some [0; 0; 0; 0]) 4 = (f1, true)
  /\ push_each f1 [1; 2; 3] = Some (f2, [true; true; true])
  /\ pop_times f2 2 0 = Some (f3, [(1, true); (2, true)])
  /\ Gfifo.gfifo_push_array f3 [10; 20; 30] 3 = Some (f4, true)
  /\ Gfifo.gfifo_pop_array f4 [0; 0; 0] 3 = Some (f5, [3; 10; 20], true)
  /\ ~ (exists f, Gfifo.gfifo_pop_array f4 [0; 0; 0] 3
                  = Some (f, [10; 20; 30], true)).
Proof.
  cbv zeta.
  repeat (split; [reflexivity|]).
  intros [f H]. vm_compute in H. discriminate H.
Qed.

(** ** The two headers side by side *)

Section Flavours.

Context {T : Type}.

Import Gfifo Sfifo.

Implicit Types (g : gfifo_t T) (s : sfifo_t T).

Ltac same_state_start g s H :=
  destruct g as [gb gc gm gi go], s as [sb sc sm si so];
  destruct H as (Hb & Hc & Hm & Hi & Ho); cbn in Hb, Hc, Hm, Hi, Ho;
  subst gb gc gm gi go.

Lemma same_queries g s :
  same_state g s ->
  gfifo_is_empty g = sfifo_is_empty s
  /\ gfifo_is_full g = sfifo_is_full s
  /\ gfifo_count g = sfifo_count s.
Proof. intros H. same_state_start g s H. repeat split. Qed.

Lemma same_reset g s :
  same_state g s -> same_state (gfifo_reset g) (sfifo_reset s).
Proof. intros H. same_state_start g s H. repeat split. Qed.

Lemma same_push g s (e : T) :
  same_state g s -> same_outcome (gfifo_push g e) (sfifo_push s e).
Proof.
  intros H. same_state_start g s H.
  unfold gfifo_push, sfifo_push, same_outcome. cbn.
  destruct (U32.sub si so <? sc); [|repeat split].
  destruct (store sb (Z.land si sm) e); cbn; repeat split.
Qed.

Lemma same_pop g s (e : T) :
  same_state g s ->
  same_outcome (regroup (gfifo_pop g e)) (regroup (sfifo_pop s e)).
Proof.
  intros H. same_state_start g s H.
  unfold gfifo_pop, sfifo_pop, same_outcome, regroup. cbn.
  destruct (0 <? U32.sub si so); [|repeat split].
  destruct (load sb (Z.land so sm)); cbn; repeat split.
Qed.

Lemma same_drop g s :
  same_state g s ->
  (gfifo_drop g).2 = (sfifo_drop s).2
  /\ same_state (gfifo_drop g).1 (sfifo_drop s).1.
Proof.
  intros H. same_state_start g s H.
  unfold gfifo_drop, sfifo_drop. cbn.
  destruct (0 <? U32.sub si so); repeat split.
Qed.

Lemma same_peek g s (e : T) :
  same_state g s ->
  same_outcome (regroup (gfifo_peek g e)) (regroup (sfifo_peek s e)).
Proof.
  intros H. same_state_start g s H.
  unfold gfifo_peek, sfifo_peek, same_outcome, regroup. cbn.
  destruct (0 <? U32.sub si so); [|repeat split].
  destruct (load sb (Z.land so sm)); cbn; repeat split.
Qed.

Lemma same_peek_at g s (e : T) (ofst : Z) :
  same_state g s ->
  same_outcome (regroup (gfifo_peek_at g e ofst))
               (regroup (sfifo_peek_at s e ofst)).
Proof.
  intros H. same_state_start g s H.
  unfold gfifo_peek_at, sfifo_peek_at, same_outcome, regroup. cbn.
  destruct (ofst <? U32.sub si so); [|repeat split].
  destruct (load sb (Z.land (U32.add so ofst) sm)); cbn; repeat split.
Qed.

Lemma same_push_array g s (arr : list T) (len : Z) :
  same_state g s ->
  same_outcome (gfifo_push_array g arr len) (sfifo_push_array s arr len).
Proof.
  intros H. same_state_start g s H.
  unfold gfifo_push_array, sfifo_push_array, same_outcome. cbn.
  destruct (len =? 0); [repeat split|].
  destruct (U32.sub sc (U32.sub si so) <? len); [repeat split|].
  destruct (memcpy sb _ arr 0 _) as [b1|]; cbn; [|exact I].
  destruct (_ <? len); cbn; [|repeat split].
  destruct (memcpy b1 0 arr _ _); cbn; repeat split.
Qed.

Lemma same_pop_array g s (arr : list T) (len : Z) :
  same_state g s ->
  same_outcome (regroup (gfifo_pop_array g arr len))
               (regroup (sfifo_pop_array s arr len)).
Proof.
  intros H. same_state_start g s H.
  unfold gfifo_pop_array, sfifo_pop_array, same_outcome, regroup. cbn.
  destruct (len =? 0); [repeat split|].
  destruct (U32.sub si so <? len); [repeat split|].
  destruct (memcpy arr 0 sb _ _) as [a1|]; cbn; [|exact I].
  destruct (_ <? len); cbn; [|repeat split].
  destruct (memcpy a1 _ sb 0 _); cbn; repeat split.
Qed.

Lemma same_init g0 s0 (size : Z) :
  U32.in_range size -> size <> 0 -> static_assert size = true ->
  exists g s,
    gfifo_init g0 (Some (Sfifo.buf s0)) size = (g, true)
    /\ sfifo_init size (Some s0) = (Some s, true)
    /\ same_state g s
    /\ Gfifo.cap g = size /\ Gfifo.msk g = size - 1
    /\ Gfifo.i g = 0 /\ Gfifo.o g = 0.
Proof.
  intros Hr Hnz Hsa. unfold static_assert in Hsa. apply Z.eqb_eq in Hsa.
  assert (Hpos : 0 < size) by (unfold U32.in_range in Hr; lia).
  assert (Hsub : U32.sub size 1 = size - 1).
  { apply wrap_small. unfold U32.in_range in *. lia. }
  assert (Hw1 : U32.wrap (size - 1) = size - 1) by exact Hsub.
  assert (Hw : U32.wrap size = size) by (apply wrap_small; assumption).
  unfold gfifo_init, sfifo_init. rewrite Hsub, Hsa.
  destruct (Z.eqb_spec size 0) as [|_]; [contradiction|]. cbn.
  eexists. eexists. split; [reflexivity|]. split; [reflexivity|].
  unfold same_state. cbn. rewrite Hw, Hw1. repeat split.
Qed.

(** C7, as the code has it.  Of the operations of the interface table,
    [gfifo.h] declares all and [sfifo.h] all but [drop_multi].  The two
    [init] take different arguments: a buffer and a size checked at run
    time, or the queue alone with the size fixed by the type; for a 32-bit
    size other than 0 that passes the static assertion both return [true]
    and leave the same logical state, [i = o = 0], [cap = size],
    [msk = size - 1].  For every other operation the two headers declare,
    from the same logical state and with the same arguments, the results
    and the logical states after the call are the same. *)
Theorem flavours_agree :
  (forall op, In op common_operation_set -> In op gfifo_operations)
  /\ (forall op, In op common_operation_set -> op <> Drop_multi ->
                 In op sfifo_operations)
  /\ ~ In Drop_multi sfifo_operations
  /\ (forall g0 s0 size,
        U32.in_range size -> size <> 0 -> static_assert size = true ->
        exists g s,
          gfifo_init g0 (Some (Sfifo.buf s0)) size = (g, true)
          /\ sfifo_init size (Some s0) = (Some s, true)
          /\ same_state g s
          /\ Gfifo.cap g = size /\ Gfifo.msk g = size - 1
          /\ Gfifo.i g = 0 /\ Gfifo.o g = 0)
  /\ (forall g s (e : T) (n : Z) (arr : list T),
        same_state g s ->
        same_state (gfifo_reset g) (sfifo_reset s)
        /\ gfifo_is_empty g = sfifo_is_empty s
        /\ gfifo_is_full g = sfifo_is_full s
        /\ gfifo_count g = sfifo_count s
        /\ same_outcome (gfifo_push g e) (sfifo_push s e)
        /\ same_outcome (regroup (gfifo_pop g e)) (regroup (sfifo_pop s e))
        /\ (gfifo_drop g).2 = (sfifo_drop s).2
        /\ same_state (gfifo_drop g).1 (sfifo_drop s).1
        /\ same_outcome (regroup (gfifo_peek g e)) (regroup (sfifo_peek s e))
        /\ same_outcome (regroup (gfifo_peek_at g e n))
                        (regroup (sfifo_peek_at s e n))
        /\ same_outcome (gfifo_push_array g arr n) (sfifo_push_array s arr n)
        /\ same_outcome (regroup (gfifo_pop_array g arr n))
                        (regroup (sfifo_pop_array s arr n))).
Proof.
  split; [|split; [|split; [|split]]].
  - intros op _. destruct op; cbn; tauto.
  - intros op _ Hne. destruct op; cbn; tauto.
  - cbn. intros H. repeat (destruct H as [H|H]; [discriminate H|]).
    exact H.
  - apply same_init.
  - intros g s e n arr H.
    pose proof (same_queries g s H) as (He & Hf & Hc).
    pose proof (same_drop g s H) as (Hd1 & Hd2).
    split; [apply same_reset; assumption|].
    split; [assumption|]. split; [assumption|]. split; [assumption|].
    split; [apply same_push; assumption|].
    split; [apply same_pop; assumption|].
    split; [assumption|]. split; [assumption|].
    split; [apply same_peek; assumption|].
    split; [apply same_peek_at; assumption|].
    split; [apply same_push_array; assumption|].
    apply same_pop_array; assumption.
Qed.

End Flavours.

(** C7 as stated fails: [sfifo.h] declares no [drop_multi]. *)
Lemma flavours_agree_counterexample :
  ~ (forall op, In op common_operation_set ->
                In op gfifo_operations /\ In op sfifo_operations).
Proof.
  intros H. destruct (H Drop_multi) as [_ Hs].
  - cbn. tauto.
  - cbn in Hs. repeat (destruct Hs as [Hs|Hs]; [discriminate Hs|]).
    exact Hs.
Qed.

(** The theorem on two queues of capacity 4 that hold 5 and 6. *)
Lemma flavours_agree_witness :
  let g := Gfifo.mk (Some [6; 0; 0; 5]) 4 3 5 3 in
  let s := Sfifo.mk [6; 0; 0; 5] 4 3 5 3 in
  same_state g s
  /\ same_outcome (Gfifo.gfifo_push g 7) (Sfifo.sfifo_push s 7)
  /\ In Pop_array sfifo_operations.
Proof.
  cbv zeta.
  assert (Hs : same_state (Gfifo.mk (Some [6; 0; 0; 5]) 4 3 5 3)
                          (Sfifo.mk [6; 0; 0; 5] 4 3 5 3)).
  { unfold same_state. cbn. repeat split. }
  destruct (@flavours_agree Z) as (_ & Hops & _ & _ & Hsame).
  split; [exact Hs|]. split.
  - apply (Hsame _ _ 7 0 [] Hs).
  - apply Hops; [cbn; tauto|discriminate].
Defined.

(** ** No access outside the array *)

Section Safety.

Context {T : Type}.

Import Gfifo.

Implicit Types f : gfifo_t T.

Lemma store_defined (b : list T) (idx : Z) (x : T) :
  0 <= idx < Z.of_nat (length b) ->
  exists b', store b idx x = Some b' /\ length b' = length b.
Proof.
  intros Hr. unfold store.
  destruct (Z.leb_spec 0 idx); [|lia].
  destruct (Z.ltb_spec idx (Z.of_nat (length b))); [|lia]. cbn.
  eexists. split; [reflexivity|]. apply length_insert.
Qed.

Lemma memcpy_defined (dst : list T) (doff : Z) (src : list T) (soff n : Z) :
  0 <= doff -> 0 <= soff -> 0 <= n ->
  doff + n <= Z.of_nat (length dst) -> soff + n <= Z.of_nat (length src) ->
  exists r, memcpy dst doff src soff n = Some r /\ length r = length dst.
Proof.
  intros Hd Hs Hn Hdl Hsl. unfold memcpy.
  destruct (Z.leb_spec 0 doff); [|lia].
  destruct (Z.leb_spec 0 soff); [|lia].
  destruct (Z.leb_spec 0 n); [|lia].
  destruct (Z.leb_spec (doff + n) (Z.of_nat (length dst))); [|lia].
  destruct (Z.leb_spec (soff + n) (Z.of_nat (length src))); [|lia]. cbn.
  eexists. split; [reflexivity|].
  rewrite !length_app, !length_take, !length_drop. lia.
Qed.

Lemma wf_set_buf f (b b' : list T) (v : Z) :
  gfifo_wf f -> buf f = Some b -> length b' = length b ->
  gfifo_inv (set_i (set_buf f b') v) ->
  gfifo_wf (set_i (set_buf f b') v).
Proof.
  intros (_ & Hp & Hm & b0 & Hb & Hl) Hb2 Hlen Hinv.
  rewrite Hb in Hb2. injection Hb2 as ->.
  split; [assumption|]. cbn. split; [assumption|]. split; [assumption|].
  exists b'. split; [reflexivity|]. lia.
Qed.

Lemma wf_set_o f (v : Z) :
  gfifo_wf f -> gfifo_inv (set_o f v) -> gfifo_wf (set_o f v).
Proof.
  intros (_ & Hp & Hm & Hb) Hinv.
  split; [assumption|]. cbn. split; [assumption|]. split; assumption.
Qed.

Lemma wf_init f0 (b : list T) (size : Z) f :
  U32.in_range size -> Z.of_nat (length b) = size ->
  gfifo_init f0 (Some b) size = (f, true) -> gfifo_wf f.
Proof.
  intros Hr Hl Hinit. split; [eapply inv_init; eassumption|].
  pose proof (gfifo_init_test size Hr) as Htest.
  unfold gfifo_init in Hinit.
  destruct ((size =? 0) || negb (Z.land size (U32.sub size 1) =? 0)) eqn:Et;
    [discriminate|].
  assert (Hp : is_power_of_two size) by (apply Htest; reflexivity).
  pose proof (power_of_two_pos _ Hp) as Hpos.
  cbn in Hinit. injection Hinit as <-. cbn.
  split; [assumption|]. split.
  - apply wrap_small. unfold U32.in_range in *. lia.
  - exists b. split; [reflexivity|assumption].
Qed.

Lemma wf_push f (e : T) :
  gfifo_wf f -> exists f' r, gfifo_push f e = Some (f', r) /\ gfifo_wf f'.
Proof.
  intros Hwf. pose proof Hwf as (Hinv & _ & _ & b & Hb & _).
  pose proof (sub_range (i f) (o f)) as Hcnt. unfold U32.in_range in Hcnt.
  unfold gfifo_push.
  destruct (Z.ltb_spec (U32.sub (i f) (o f)) (cap f)); [|eauto].
  rewrite Hb. cbn.
  destruct (store_defined b (Z.land (i f) (msk f)) e) as (b' & -> & Hl).
  { eapply wf_slot; eassumption. }
  cbn. eexists. eexists. split; [reflexivity|].
  eapply wf_set_buf; try eassumption.
  apply inv_advance_i; [assumption|lia|unfold gfifo_count; lia].
Qed.

Lemma wf_pop f (e : T) :
  gfifo_wf f ->
  exists f' x r, gfifo_pop f e = Some (f', x, r) /\ gfifo_wf f'.
Proof.
  intros Hwf. pose proof Hwf as (Hinv & _).
  pose proof (sub_range (i f) (o f)) as Hcnt. unfold U32.in_range in Hcnt.
  unfold gfifo_pop.
  destruct (Z.ltb_spec 0 (U32.sub (i f) (o f))); [|eauto].
  destruct (wf_load f (o f) Hwf) as (b & v & -> & Hv). cbn.
  rewrite Hv. cbn. eexists. eexists. eexists. split; [reflexivity|].
  apply wf_set_o; [assumption|].
  apply inv_advance_o; [assumption|unfold gfifo_count; lia].
Qed.

(** The two segments of a bulk transfer of [len] elements that starts at
    slot [ofst] of an array of [c] slots. *)
Lemma segments (c ofst len : Z) :
  0 < c -> c < U32.modulus -> 0 <= ofst < c -> 0 < len <= c ->
  let l2e := U32.sub c ofst in
  let l1 := if len <? l2e then len else l2e in
  l2e = c - ofst /\ 0 < l1 <= len /\ ofst + l1 <= c
  /\ ((l1 <? len) = true -> U32.sub len l1 = len - l1 /\ l1 = c - ofst).
Proof.
  intros Hc Hm Ho Hl. cbv zeta.
  assert (E : U32.sub c ofst = c - ofst).
  { apply wrap_small. unfold U32.in_range. lia. }
  rewrite E. split; [reflexivity|].
  destruct (Z.ltb_spec len (c - ofst)).
  - split; [lia|]. split; [lia|].
    intros Hlt. apply Z.ltb_lt in Hlt. lia.
  - split; [lia|]. split; [lia|].
    intros Hlt. apply Z.ltb_lt in Hlt. split; [|reflexivity].
    apply wrap_small. unfold U32.in_range. lia.
Qed.

Lemma wf_push_array f (arr : list T) (len : Z) :
  gfifo_wf f -> U32.in_range len -> len <= Z.of_nat (length arr) ->
  exists f' r, gfifo_push_array f arr len = Some (f', r) /\ gfifo_wf f'.
Proof.
  intros Hwf Hr Hlen. pose proof Hwf as (Hinv & Hp & Hm & b & Hb & Hbl).
  pose proof Hinv as (Hi & Ho & Hc & Hn).
  pose proof (sub_range (i f) (o f)) as Hcnt.
  pose proof (power_of_two_pos _ Hp) as Hpos.
  unfold U32.in_range in Hcnt, Hr, Hc.
  unfold gfifo_push_array.
  destruct (Z.eqb_spec len 0); [eauto|].
  change (U32.sub (i f) (o f)) with (gfifo_count f).
  rewrite free_space_exact by assumption.
  destruct (Z.ltb_spec (cap f - gfifo_count f) len); [eauto|].
  unfold gfifo_count in *.
  pose proof (wf_slot f b (i f) Hwf Hb) as Hslot. rewrite Hbl in Hslot.
  destruct (segments (cap f) (Z.land (i f) (msk f)) len)
    as (El2e & Hl1 & Hfit & Hsecond); try lia.
  rewrite Hb. cbn.
  set (l1 := if len <? U32.sub (cap f) (Z.land (i f) (msk f))
             then len else U32.sub (cap f) (Z.land (i f) (msk f))) in *.
  destruct (memcpy_defined b (Z.land (i f) (msk f)) arr 0 l1)
    as (b1 & -> & Hb1); try lia.
  cbn. destruct (l1 <? len) eqn:E2.
  - destruct (Hsecond eq_refl) as [Esub El1]. rewrite Esub.
    destruct (memcpy_defined b1 0 arr l1 (len - l1))
      as (b2 & -> & Hb2); try lia.
    cbn. eexists. eexists. split; [reflexivity|].
    eapply wf_set_buf; try eassumption; [congruence|].
    apply inv_advance_i; [assumption|lia|unfold gfifo_count; lia].
  - cbn. eexists. eexists. split; [reflexivity|].
    eapply wf_set_buf; try eassumption.
    apply inv_advance_i; [assumption|lia|unfold gfifo_count; lia].
Qed.

Lemma wf_pop_array f (arr : list T) (len : Z) :
  gfifo_wf f -> U32.in_range len -> len <= Z.of_nat (length arr) ->
  exists f' a r,
    gfifo_pop_array f arr len = Some (f', a, r) /\ gfifo_wf f'
    /\ length a = length arr.
Proof.
  intros Hwf Hr Hlen. pose proof Hwf as (Hinv & Hp & Hm & b & Hb & Hbl).
  pose proof Hinv as (Hi & Ho & Hc & Hn).
  pose proof (sub_range (i f) (o f)) as Hcnt.
  pose proof (power_of_two_pos _ Hp) as Hpos.
  unfold U32.in_range in Hcnt, Hr, Hc.
  unfold gfifo_pop_array.
  destruct (Z.eqb_spec len 0); [eauto 6|].
  destruct (Z.ltb_spec (U32.sub (i f) (o f)) len); [eauto 6|].
  unfold gfifo_count in *.
  pose proof (wf_slot f b (o f) Hwf Hb) as Hslot. rewrite Hbl in Hslot.
  destruct (segments (cap f) (Z.land (o f) (msk f)) len)
    as (El2e & Hl1 & Hfit & Hsecond); try lia.
  rewrite Hb. cbn.
  set (l1 := if len <? U32.sub (cap f) (Z.land (o f) (msk f))
             then len else U32.sub (cap f) (Z.land (o f) (msk f))) in *.
  destruct (memcpy_defined arr 0 b (Z.land (o f) (msk f)) l1)
    as (a1 & -> & Ha1); try lia.
  cbn. destruct (l1 <? len) eqn:E2.
  - destruct (Hsecond eq_refl) as [Esub El1]. rewrite Esub.
    destruct (memcpy_defined a1 l1 b 0 (len - l1))
      as (a2 & -> & Ha2); try lia.
    cbn. eexists. eexists. eexists. split; [reflexivity|].
    split; [|congruence].
    apply wf_set_o; [assumption|].
    apply inv_advance_o; [assumption|unfold gfifo_count; lia].
  - cbn. eexists. eexists. eexists. split; [reflexivity|].
    split; [|assumption].
    apply wf_set_o; [assumption|].
    apply inv_advance_o; [assumption|unfold gfifo_count; lia].
Qed.

End Safety.

(** ** Well-formedness along a run *)

Section Frame.

Context {T : Type}.

Import Gfifo.

Implicit Types f : gfifo_t T.

Lemma store_length (b : list T) (idx : Z) (x : T) (b' : list T) :
  store b idx x = Some b' -> length b' = length b.
Proof.
  unfold store. destruct (_ && _); [|discriminate].
  intros [= <-]. apply length_insert.
Qed.

Lemma memcpy_length (dst : list T) (doff : Z) (src : list T) (soff n : Z)
    (r : list T) :
  memcpy dst doff src soff n = Some r -> length r = length dst.
Proof.
  intros H.
  destruct (Z_le_gt_dec 0 doff); [|unfold memcpy in H;
    destruct (Z.leb_spec 0 doff); [lia|discriminate]].
  unfold memcpy in H.
  destruct (Z.leb_spec 0 doff); [|discriminate].
  destruct (Z.leb_spec 0 soff); [|discriminate].
  destruct (Z.leb_spec 0 n); [|discriminate].
  destruct (Z.leb_spec (doff + n) (Z.of_nat (length dst))); [|discriminate].
  destruct (Z.leb_spec (soff + n) (Z.of_nat (length src))); [|discriminate].
  cbn in H. injection H as <-.
  rewrite !length_app, !length_take, !length_drop. lia.
Qed.

(** Closes the cases in which the array is the one of before the call. *)
Ltac frame_same :=
  cbn; repeat split;
  let b := fresh "b" in
  let Hb := fresh "Hb" in
  intros b Hb; exists b; split; [first [exact Hb | congruence]|reflexivity].

(** A call changes neither the capacity nor the mask nor the length of the
    array. *)
Lemma step_frame f f' :
  gfifo_step f f' ->
  cap f' = cap f /\ msk f' = msk f
  /\ forall b, buf f = Some b ->
               exists b', buf f' = Some b' /\ length b' = length b.
Proof.
  intros Hstep.
  destruct Hstep as
    [f e f' r H | f e f' x r H | f | f len Hl | f e f' x r H
    | f e ofst f' x r Hofs H | f arr len f' r Hl H
    | f arr len f' a r Hl H | f].
  - unfold gfifo_push in H. destruct (_ <? _).
    + destruct (buf f) as [b0|] eqn:Eb; [|discriminate]. cbn in H.
      destruct (store b0 _ e) as [b1|] eqn:Es; [|discriminate].
      cbn in H. injection H as <- _. cbn. repeat split.
      intros b [= <-]. exists b1. split; [reflexivity|].
      eapply store_length; eassumption.
    + injection H as <- _. frame_same.
  - unfold gfifo_pop in H. destruct (_ <? _).
    + destruct (buf f) as [b0|] eqn:Eb; [|discriminate]. cbn in H.
      destruct (load b0 _); [|discriminate].
      cbn in H. injection H as <- _ _. frame_same.
    + injection H as <- _ _. frame_same.
  - unfold gfifo_drop. destruct (_ <? _); frame_same.
  - unfold gfifo_drop_multi, gfifo_drop_multi_declared.
    destruct (_ =? _); [frame_same|].
    destruct (_ <? _); frame_same.
  - unfold gfifo_peek in H. destruct (_ <? _).
    + destruct (buf f) as [b0|] eqn:Eb; [|discriminate]. cbn in H.
      destruct (load b0 _); [|discriminate].
      cbn in H. injection H as <- _ _. frame_same.
    + injection H as <- _ _. frame_same.
  - unfold gfifo_peek_at in H. destruct (_ <? _).
    + destruct (buf f) as [b0|] eqn:Eb; [|discriminate]. cbn in H.
      destruct (load b0 _); [|discriminate].
      cbn in H. injection H as <- _ _. frame_same.
    + injection H as <- _ _. frame_same.
  - unfold gfifo_push_array in H.
    destruct (_ =? _); [injection H as <- _; frame_same|].
    destruct (_ <? _); [injection H as <- _; frame_same|].
    destruct (buf f) as [b0|] eqn:Eb; [|discriminate]. cbn in H.
    destruct (memcpy b0 _ arr 0 _) as [b1|] eqn:E1; [|discriminate].
    cbn in H. apply memcpy_length in E1.
    destruct (_ <? len).
    + destruct (memcpy b1 0 arr _ _) as [b2|] eqn:E2; [|discriminate].
      cbn in H. apply memcpy_length in E2. injection H as <- _. cbn.
      repeat split. intros b [= <-]. exists b2.
      split; [reflexivity|congruence].
    + cbn in H. injection H as <- _. cbn.
      repeat split. intros b [= <-]. exists b1.
      split; [reflexivity|congruence].
  - unfold gfifo_pop_array in H.
    destruct (_ =? _); [injection H as <- _ _; frame_same|].
    destruct (_ <? _); [injection H as <- _ _; frame_same|].
    destruct (buf f) as [b0|] eqn:Eb; [|discriminate]. cbn in H.
    destruct (memcpy arr 0 b0 _ _) as [a1|]; [|discriminate]. cbn in H.
    destruct (_ <? len).
    + destruct (memcpy a1 _ b0 0 _) as [a2|]; [|discriminate].
      cbn in H. injection H as <- _ _. frame_same.
    + cbn in H. injection H as <- _ _. frame_same.
  - unfold gfifo_reset. frame_same.
Qed.

Lemma wf_step f f' : gfifo_wf f -> gfifo_step f f' -> gfifo_wf f'.
Proof.
  intros (Hinv & Hp & Hm & b & Hb & Hl) Hstep.
  destruct (step_frame f f' Hstep) as (Hc & Hk & Hbuf).
  destruct (Hbuf b Hb) as (b' & Hb' & Hl').
  split; [eapply inv_step; eassumption|].
  rewrite Hc, Hk. split; [assumption|]. split; [assumption|].
  exists b'. split; [assumption|]. lia.
Qed.

End Frame.

(** ** The embedded-buffer queue *)

Section Embedded.

Context {T : Type}.

Import Gfifo Sfifo.

Implicit Types s : sfifo_t T.

Lemma same_state_to_gfifo s : same_state (to_gfifo s) s.
Proof. unfold same_state. cbn. repeat split. Qed.

Lemma same_state_eq (g : gfifo_t T) s : same_state g s -> g = to_gfifo s.
Proof.
  destruct g as [gb gc gm gi go]. unfold same_state, to_gfifo. cbn.
  intros (-> & -> & -> & -> & ->). reflexivity.
Qed.

Lemma same_outcome_some {A : Type} (r : option (gfifo_t T * A)) s' (a : A) :
  same_outcome r (Some (s', a)) -> r = Some (to_gfifo s', a).
Proof.
  unfold same_outcome. destruct r as [[g' a']|]; [|contradiction].
  intros [-> H]. apply same_state_eq in H. subst g'. reflexivity.
Qed.

Lemma regroup_some {Q A B : Type} (r : option (Q * A * B)) q (a : A) (b : B) :
  regroup r = Some (q, (a, b)) -> r = Some (q, a, b).
Proof.
  unfold regroup. destruct r as [[[q' a'] b']|]; [|discriminate].
  cbn. intros [= -> -> ->]. reflexivity.
Qed.

(** Every call on the embedded-buffer queue is the same call on the
    external-buffer queue with the same fields. *)
Lemma sfifo_step_sim s s' :
  sfifo_step s s' -> gfifo_step (to_gfifo s) (to_gfifo s').
Proof.
  pose proof (same_state_to_gfifo s) as Hs.
  intros Hstep.
  destruct Hstep as
    [s e s' r H | s e s' x r H | s | s e s' x r H
    | s e ofst s' x r Hofs H | s arr len s' r Hl H
    | s arr len s' a r Hl H | s].
  - pose proof (same_push _ _ e Hs) as Hsim. rewrite H in Hsim.
    apply same_outcome_some in Hsim. eapply step_push. eassumption.
  - pose proof (same_pop _ _ e Hs) as Hsim. rewrite H in Hsim.
    apply same_outcome_some, regroup_some in Hsim.
    eapply step_pop. eassumption.
  - destruct (same_drop _ _ Hs) as [_ Hd]. apply same_state_eq in Hd.
    rewrite <- Hd. apply step_drop.
  - pose proof (same_peek _ _ e Hs) as Hsim. rewrite H in Hsim.
    apply same_outcome_some, regroup_some in Hsim.
    eapply step_peek. eassumption.
  - pose proof (same_peek_at _ _ e ofst Hs) as Hsim. rewrite H in Hsim.
    apply same_outcome_some, regroup_some in Hsim.
    eapply step_peek_at; eassumption.
  - pose proof (same_push_array _ _ arr len Hs) as Hsim. rewrite H in Hsim.
    apply same_outcome_some in Hsim. eapply step_push_array; eassumption.
  - pose proof (same_pop_array _ _ arr len Hs) as Hsim. rewrite H in Hsim.
    apply same_outcome_some, regroup_some in Hsim.
    eapply step_pop_array; eassumption.
  - pose proof (same_reset _ _ Hs) as Hr. apply same_state_eq in Hr.
    rewrite <- Hr. apply step_reset.
Qed.

Lemma sfifo_reachable_inv (size : Z) s :
  sfifo_reachable size s -> gfifo_inv (to_gfifo s).
Proof.
  induction 1 as [s0 s Hinit | s s' _ IH Hstep].
  - cbn in Hinit. injection Hinit as <-.
    unfold gfifo_inv, gfifo_count. cbn. rewrite sub_diag.
    pose proof (wrap_range size) as Hw.
    unfold U32.in_range, U32.modulus in *. lia.
  - eapply inv_step; [exact IH|]. apply sfifo_step_sim. assumption.
Qed.

(** The occupancy bound of the external-buffer queue holds for the
    embedded-buffer queue as well. *)
Lemma sfifo_occupancy_bound (size : Z) s :
  sfifo_reachable size s ->
  0 <= sfifo_count s <= Sfifo.cap s
  /\ (sfifo_is_empty s = true <-> sfifo_count s = 0)
  /\ (sfifo_is_full s = true <-> sfifo_count s = Sfifo.cap s).
Proof.
  intros Hreach.
  destruct (sfifo_reachable_inv size s Hreach) as (Hi & Ho & Hc & Hn).
  unfold gfifo_count in Hn. cbn in Hi, Ho, Hc, Hn.
  pose proof (sub_range (Sfifo.i s) (Sfifo.o s)) as Hcnt.
  unfold U32.in_range in Hcnt.
  unfold sfifo_is_empty, sfifo_is_full, sfifo_count.
  split; [lia|]. split.
  - rewrite Z.eqb_eq. symmetry. apply sub_eq_0; assumption.
  - apply Z.eqb_eq.
Qed.

End Embedded.

(** * The queue as a list *)

(** ** Slots modulo the capacity *)

Lemma pow2_divides_modulus (c : Z) :
  is_power_of_two c -> c < U32.modulus -> (c | U32.modulus).
Proof.
  intros (k & Hk & ->) Hlt. unfold U32.modulus in *.
  assert (Hk32 : k < 32).
  { destruct (Z_lt_le_dec k 32) as [|Hge]; [assumption|].
    pose proof (Z.pow_le_mono_r 2 32 k ltac:(lia) Hge). lia. }
  exists (2 ^ (32 - k)). rewrite <- Z.pow_add_r by lia. f_equal. lia.
Qed.

Lemma land_pred_mod (x c : Z) :
  is_power_of_two c -> Z.land x (c - 1) = x mod c.
Proof.
  intros (k & Hk & ->).
  replace (2 ^ k - 1) with (Z.ones k) by (rewrite Z.ones_equiv; lia).
  apply Z.land_ones. assumption.
Qed.

Lemma wrap_mod (x c : Z) :
  0 < c -> (c | U32.modulus) -> U32.wrap x mod c = x mod c.
Proof.
  intros Hc Hd. unfold U32.wrap. apply Z.mod_mod_divide. assumption.
Qed.

Lemma mod_add_small (x k c : Z) :
  0 < c -> 0 <= k -> x mod c + k < c -> (x + k) mod c = x mod c + k.
Proof.
  intros Hc Hk Hlt. pose proof (Z.mod_pos_bound x c Hc).
  rewrite <- Zplus_mod_idemp_l. apply Z.mod_small. lia.
Qed.

Lemma mod_add_wrap (x k c : Z) :
  0 < c -> c <= x mod c + k < 2 * c -> (x + k) mod c = x mod c + k - c.
Proof.
  intros Hc Hr. rewrite <- Zplus_mod_idemp_l.
  transitivity ((x mod c + k - c + 1 * c) mod c); [f_equal; lia|].
  rewrite Z_mod_plus_full. apply Z.mod_small. lia.
Qed.

(** Offsets less than the capacity apart fall into different slots. *)
Lemma mod_add_inj (x k k' c : Z) :
  0 < c -> 0 <= k < c -> 0 <= k' < c ->
  (x + k) mod c = (x + k') mod c -> k = k'.
Proof.
  intros Hc Hk Hk' E.
  assert (Hd : (k - k') mod c = 0).
  { replace (k - k') with ((x + k) - (x + k')) by lia.
    rewrite Zminus_mod, E, Z.sub_diag. apply Z.mod_0_l. lia. }
  apply Z.mod_divide in Hd; [|lia]. destruct Hd as [q Hq].
  assert (q = 0) by nia. lia.
Qed.

(** ** Reading the queued elements *)

Section Queued.

Context {T : Type}.

Import Gfifo.

Implicit Types f : gfifo_t T.

Lemma wf_facts f :
  gfifo_wf f ->
  exists b,
    buf f = Some b /\ Z.of_nat (length b) = cap f /\ 0 < cap f
    /\ (cap f | U32.modulus)
    /\ (forall x, Z.land x (msk f) = x mod cap f)
    /\ 0 <= gfifo_count f <= cap f
    /\ i f mod cap f = (o f + gfifo_count f) mod cap f.
Proof.
  intros ((Hi & Ho & Hc & Hn) & Hp & Hm & b & Hb & Hl).
  pose proof (power_of_two_pos _ Hp) as Hpos.
  pose proof (sub_range (i f) (o f)) as Hcnt.
  assert (Hd : (cap f | U32.modulus)).
  { apply pow2_divides_modulus; [assumption|]. unfold U32.in_range in Hc. lia. }
  exists b. split; [assumption|]. split; [assumption|].
  split; [assumption|]. split; [assumption|]. split.
  - intros x. rewrite Hm. apply land_pred_mod. assumption.
  - unfold gfifo_count in *. unfold U32.in_range in Hcnt.
    split; [lia|].
    rewrite Zplus_mod. unfold U32.sub. rewrite wrap_mod by assumption.
    rewrite <- Zplus_mod. f_equal. lia.
Qed.

Lemma queued_length f :
  gfifo_wf f -> Z.of_nat (length (gfifo_queued f)) = gfifo_count f.
Proof.
  intros Hwf. destruct (wf_facts f Hwf) as (b & Hb & Hl & Hc & _ & _ & Hn & _).
  unfold gfifo_queued. rewrite Hb, length_take, length_rotate. lia.
Qed.

Lemma queued_lookup f (b : list T) (k : nat) :
  gfifo_wf f -> buf f = Some b -> Z.of_nat k < gfifo_count f ->
  gfifo_queued f !! k = b !! Z.to_nat ((o f + Z.of_nat k) mod cap f).
Proof.
  intros Hwf Hb Hk.
  destruct (wf_facts f Hwf) as (b' & Hb' & Hl & Hc & _ & Hland & Hn & _).
  rewrite Hb in Hb'. injection Hb' as <-.
  unfold gfifo_queued. rewrite Hb.
  rewrite lookup_take_lt by lia. rewrite lookup_rotate_r by lia.
  unfold rotate_nat_add. f_equal. f_equal.
  rewrite Hl, Hland. pose proof (Z.mod_pos_bound (o f) (cap f) Hc).
  rewrite Z2Nat.id by lia. apply Zplus_mod_idemp_l.
Qed.

(** A list is the queued one when it has the length of the count and the
    elements of the slots from the tail on. *)
Lemma queued_eq f (b l : list T) :
  gfifo_wf f -> buf f = Some b ->
  Z.of_nat (length l) = gfifo_count f ->
  (forall k : nat, Z.of_nat k < gfifo_count f ->
     l !! k = b !! Z.to_nat ((o f + Z.of_nat k) mod cap f)) ->
  gfifo_queued f = l.
Proof.
  intros Hwf Hb Hlen Hl. apply list_eq. intros k.
  destruct (Z_lt_le_dec (Z.of_nat k) (gfifo_count f)) as [Hk|Hk].
  - rewrite Hl by assumption. apply queued_lookup; assumption.
  - pose proof (queued_length f Hwf).
    rewrite !lookup_ge_None_2 by lia. reflexivity.
Qed.

End Queued.

(** ** What a copy leaves in the destination *)

Section Copy.

Context {T : Type}.

Lemma memcpy_lookup (dst : list T) (doff : Z) (src : list T) (soff n : Z)
    (r : list T) (j : nat) :
  memcpy dst doff src soff n = Some r ->
  r !! j = if decide (doff <= Z.of_nat j < doff + n)
           then src !! Z.to_nat (soff + (Z.of_nat j - doff))
           else dst !! j.
Proof.
  unfold memcpy.
  destruct (Z.leb_spec 0 doff); [|discriminate].
  destruct (Z.leb_spec 0 soff); [|discriminate].
  destruct (Z.leb_spec 0 n); [|discriminate].
  destruct (Z.leb_spec (doff + n) (Z.of_nat (length dst))); [|discriminate].
  destruct (Z.leb_spec (soff + n) (Z.of_nat (length src))); [|discriminate].
  cbn. intros [= <-].
  destruct (decide (doff <= Z.of_nat j < doff + n)) as [Hin|Hout].
  - rewrite lookup_app_r by (rewrite length_take; lia).
    rewrite length_take.
    rewrite lookup_app_l by (rewrite length_take, length_drop; lia).
    rewrite lookup_take_lt by lia. rewrite lookup_drop. f_equal. lia.
  - destruct (Z_lt_le_dec (Z.of_nat j) doff).
    + rewrite lookup_app_l by (rewrite length_take; lia).
      apply lookup_take_lt. lia.
    + rewrite lookup_app_r by (rewrite length_take; lia).
      rewrite length_take.
      rewrite lookup_app_r by (rewrite length_take, length_drop; lia).
      rewrite length_take, length_drop, lookup_drop. f_equal. lia.
Qed.

End Copy.

Lemma mod_sub_cases (j x c : Z) :
  0 < c -> 0 <= j < c ->
  (j - x) mod c = if Z_lt_le_dec j (x mod c) then j - x mod c + c
                  else j - x mod c.
Proof.
  intros Hc Hj. pose proof (Z.mod_pos_bound x c Hc).
  rewrite <- Zminus_mod_idemp_r. destruct (Z_lt_le_dec j (x mod c)).
  - transitivity ((j - x mod c + c + (-1) * c) mod c); [f_equal; lia|].
    rewrite Z_mod_plus_full. apply Z.mod_small. lia.
  - apply Z.mod_small. lia.
Qed.

Lemma mod_neg_small (d c : Z) :
  0 < c -> - c <= d < 0 -> d mod c = d + c.
Proof.
  intros Hc Hd.
  transitivity ((d + c + (-1) * c) mod c); [f_equal; lia|].
  rewrite Z_mod_plus_full. apply Z.mod_small. lia.
Qed.

(** ** The array after a bulk push, the output after a bulk pop *)

Section Ring.

Context {T : Type}.

Import Gfifo.

Implicit Types f : gfifo_t T.

(** After a bulk push of [len] elements the slot [j] holds element
    [(j - i) mod cap] of the source when that is below [len], and what it
    held before otherwise. *)
Lemma push_array_buffer f (b arr : list T) (len : Z) :
  gfifo_wf f -> buf f = Some b ->
  0 < len <= cap f - gfifo_count f -> len <= Z.of_nat (length arr) ->
  exists b2,
    gfifo_push_array f arr len
    = Some (set_i (set_buf f b2) (U32.add (i f) len), true)
    /\ length b2 = length b
    /\ forall j : nat,
         Z.of_nat j < cap f ->
         b2 !! j = if decide ((Z.of_nat j - i f) mod cap f < len)
                   then arr !! Z.to_nat ((Z.of_nat j - i f) mod cap f)
                   else b !! j.
Proof.
  intros Hwf Hb Hlen Harr.
  destruct (wf_facts f Hwf) as (b' & Hb' & Hl & Hc & Hd & Hland & Hn & _).
  rewrite Hb in Hb'. injection Hb' as <-.
  pose proof Hwf as (Hinv & _). pose proof Hinv as (_ & _ & Hcr & _).
  unfold U32.in_range in Hcr.
  pose proof (Z.mod_pos_bound (i f) (cap f) Hc) as Hofs.
  unfold gfifo_push_array.
  destruct (Z.eqb_spec len 0); [lia|].
  change (U32.sub (i f) (o f)) with (gfifo_count f).
  rewrite free_space_exact by assumption.
  destruct (Z.ltb_spec (cap f - gfifo_count f) len); [lia|].
  rewrite Hland.
  destruct (segments (cap f) (i f mod cap f) len)
    as (El2e & Hl1 & Hfit & Hsecond); try lia.
  rewrite Hb. cbn.
  set (l1 := if len <? U32.sub (cap f) (i f mod cap f)
             then len else U32.sub (cap f) (i f mod cap f)) in *.
  destruct (memcpy_defined b (i f mod cap f) arr 0 l1)
    as (b1 & E1 & Hb1); try lia.
  rewrite E1. cbn. destruct (l1 <? len) eqn:E2.
  - destruct (Hsecond eq_refl) as [Esub El1]. rewrite Esub.
    destruct (memcpy_defined b1 0 arr l1 (len - l1))
      as (b2 & E3 & Hb2); try lia.
    rewrite E3. cbn. exists b2. split; [reflexivity|].
    split; [congruence|]. intros j Hj.
    rewrite (memcpy_lookup _ _ _ _ _ _ j E3).
    rewrite (memcpy_lookup _ _ _ _ _ _ j E1).
    rewrite (mod_sub_cases (Z.of_nat j) (i f) (cap f)) by lia.
    destruct (Z_lt_le_dec (Z.of_nat j) (i f mod cap f));
      repeat case_decide; try lia; try reflexivity; f_equal; lia.
  - apply Z.ltb_ge in E2. cbn. exists b1. split; [reflexivity|].
    split; [assumption|]. intros j Hj.
    rewrite (memcpy_lookup _ _ _ _ _ _ j E1).
    rewrite (mod_sub_cases (Z.of_nat j) (i f) (cap f)) by lia.
    destruct (Z_lt_le_dec (Z.of_nat j) (i f mod cap f));
      repeat case_decide; try lia; try reflexivity; f_equal; lia.
Qed.

(** After a bulk pop of [len] elements the output holds, below [len], the
    slots from the tail on, and above what it held before. *)
Lemma pop_array_output f (b arr : list T) (len : Z) :
  gfifo_wf f -> buf f = Some b ->
  0 < len <= gfifo_count f -> len <= Z.of_nat (length arr) ->
  exists a2,
    gfifo_pop_array f arr len = Some (set_o f (U32.add (o f) len), a2, true)
    /\ length a2 = length arr
    /\ forall k : nat,
         a2 !! k = if decide (Z.of_nat k < len)
                   then b !! Z.to_nat ((o f + Z.of_nat k) mod cap f)
                   else arr !! k.
Proof.
  intros Hwf Hb Hlen Harr.
  destruct (wf_facts f Hwf) as (b' & Hb' & Hl & Hc & Hd & Hland & Hn & _).
  rewrite Hb in Hb'. injection Hb' as <-.
  pose proof Hwf as (Hinv & _). pose proof Hinv as (_ & _ & Hcr & _).
  unfold U32.in_range in Hcr.
  pose proof (Z.mod_pos_bound (o f) (cap f) Hc) as Hofs.
  unfold gfifo_pop_array.
  destruct (Z.eqb_spec len 0); [lia|].
  change (U32.sub (i f) (o f)) with (gfifo_count f).
  destruct (Z.ltb_spec (gfifo_count f) len); [lia|].
  rewrite Hland.
  destruct (segments (cap f) (o f mod cap f) len)
    as (El2e & Hl1 & Hfit & Hsecond); try lia.
  rewrite Hb. cbn.
  set (l1 := if len <? U32.sub (cap f) (o f mod cap f)
             then len else U32.sub (cap f) (o f mod cap f)) in *.
  destruct (memcpy_defined arr 0 b (o f mod cap f) l1)
    as (a1 & E1 & Ha1); try lia.
  rewrite E1. cbn. destruct (l1 <? len) eqn:E2.
  - destruct (Hsecond eq_refl) as [Esub El1]. rewrite Esub.
    destruct (memcpy_defined a1 l1 b 0 (len - l1))
      as (a2 & E3 & Ha2); try lia.
    rewrite E3. cbn. exists a2. split; [reflexivity|].
    split; [congruence|]. intros k.
    rewrite (memcpy_lookup _ _ _ _ _ _ k E3).
    rewrite (memcpy_lookup _ _ _ _ _ _ k E1).
    repeat case_decide; try lia; try reflexivity; f_equal.
    + rewrite mod_add_wrap by lia. lia.
    + rewrite mod_add_small by lia. lia.
  - apply Z.ltb_ge in E2. cbn. exists a1. split; [reflexivity|].
    split; [assumption|]. intros k.
    rewrite (memcpy_lookup _ _ _ _ _ _ k E1).
    repeat case_decide; try lia; try reflexivity; f_equal.
    rewrite mod_add_small by lia. lia.
Qed.

End Ring.

(** ** Enqueueing *)

Section Enqueue.

Context {T : Type}.

Import Gfifo.

Implicit Types f : gfifo_t T.

Lemma head_slot_add f (m : Z) :
  gfifo_wf f ->
  (i f + m) mod cap f = (o f + (gfifo_count f + m)) mod cap f.
Proof.
  intros Hwf. destruct (wf_facts f Hwf) as (_ & _ & _ & _ & _ & _ & _ & Hi).
  rewrite <- Zplus_mod_idemp_l, Hi, Zplus_mod_idemp_l. f_equal. lia.
Qed.

Lemma queued_append f f' (b b' l : list T) :
  gfifo_wf f -> gfifo_wf f' -> buf f = Some b -> buf f' = Some b' ->
  o f' = o f -> cap f' = cap f ->
  gfifo_count f' = gfifo_count f + Z.of_nat (length l) ->
  (forall k : nat, Z.of_nat k < gfifo_count f ->
     b' !! Z.to_nat ((o f + Z.of_nat k) mod cap f)
     = b !! Z.to_nat ((o f + Z.of_nat k) mod cap f)) ->
  (forall k : nat, (k < length l)%nat ->
     b' !! Z.to_nat ((i f + Z.of_nat k) mod cap f) = l !! k) ->
  gfifo_queued f' = gfifo_queued f ++ l.
Proof.
  intros Hwf Hwf' Hb Hb' Ho Hc Hcnt Hold Hnew.
  pose proof (queued_length f Hwf) as Hql.
  apply (queued_eq f' b'); try assumption.
  - rewrite length_app. lia.
  - intros k Hk. rewrite Ho, Hc.
    destruct (Z_lt_le_dec (Z.of_nat k) (gfifo_count f)) as [Hlt|Hge].
    + rewrite lookup_app_l by lia. rewrite Hold by assumption.
      apply queued_lookup; assumption.
    + rewrite lookup_app_r by lia.
      rewrite <- Hnew by lia. f_equal. f_equal.
      rewrite head_slot_add by assumption. f_equal. lia.
Qed.

Lemma push_result f (b : list T) (e : T) :
  gfifo_wf f -> buf f = Some b -> gfifo_count f < cap f ->
  gfifo_push f e
  = Some (set_i (set_buf f (<[Z.to_nat (i f mod cap f) := e]> b))
            (U32.add (i f) 1), true).
Proof.
  intros Hwf Hb Hlt.
  destruct (wf_facts f Hwf) as (b' & Hb' & Hl & Hc & _ & Hland & _).
  rewrite Hb in Hb'. injection Hb' as <-.
  pose proof (Z.mod_pos_bound (i f) (cap f) Hc) as Hofs.
  unfold gfifo_push. change (U32.sub (i f) (o f)) with (gfifo_count f).
  destruct (Z.ltb_spec (gfifo_count f) (cap f)); [|lia].
  rewrite Hb, Hland. cbn. unfold store.
  destruct (Z.leb_spec 0 (i f mod cap f)); [|lia].
  destruct (Z.ltb_spec (i f mod cap f) (Z.of_nat (length b))); [|lia].
  reflexivity.
Qed.

Lemma push_ok f (b : list T) (e : T) :
  gfifo_wf f -> buf f = Some b -> gfifo_count f < cap f ->
  let f' := set_i (set_buf f (<[Z.to_nat (i f mod cap f) := e]> b))
              (U32.add (i f) 1) in
  gfifo_push f e = Some (f', true) /\ gfifo_wf f'
  /\ gfifo_queued f' = gfifo_queued f ++ [e]
  /\ gfifo_count f' = gfifo_count f + 1.
Proof.
  intros Hwf Hb Hlt. cbv zeta.
  destruct (wf_facts f Hwf) as (b0 & Hb0 & Hl & Hc & _ & Hland & Hn & Hi).
  rewrite Hb in Hb0. injection Hb0 as <-.
  pose proof Hwf as (Hinv & _).
  pose proof (Z.mod_pos_bound (i f) (cap f) Hc) as Hofs.
  rewrite (push_result f b e Hwf Hb Hlt).
  set (b' := <[Z.to_nat (i f mod cap f) := e]> b).
  destruct (inv_advance_i f b' 1 Hinv ltac:(lia) ltac:(lia))
    as [Hinv' Hcnt'].
  assert (Hwf' : gfifo_wf (set_i (set_buf f b') (U32.add (i f) 1))).
  { eapply wf_set_buf; try eassumption. apply length_insert. }
  split; [reflexivity|]. split; [assumption|]. split; [|assumption].
  apply (queued_append f _ b b' [e]); try assumption; try reflexivity.
  - intros k Hk. apply list_lookup_insert_ne. intros E.
    apply Z2Nat.inj in E;
      [|lia|apply Z.mod_pos_bound; assumption].
    rewrite Hi in E. apply mod_add_inj in E; lia.
  - intros k Hk. cbn in Hk. assert (k = 0%nat) as -> by lia. cbn.
    rewrite Z.add_0_r. apply list_lookup_insert_eq. lia.
Qed.

Lemma push_full f (e : T) :
  cap f <= gfifo_count f -> gfifo_push f e = Some (f, false).
Proof.
  intros Hfull. unfold gfifo_push.
  change (U32.sub (i f) (o f)) with (gfifo_count f).
  destruct (Z.ltb_spec (gfifo_count f) (cap f)); [lia|reflexivity].
Qed.

(** X1. On a well-formed queue [push] returns [false] exactly when the
    queue is full, and then nothing changes; otherwise it returns [true],
    the element is queued behind the ones that were there, the tail is
    untouched and the queue is well-formed again. *)
Theorem push_appends f (e : T) :
  gfifo_wf f ->
  (gfifo_is_full f = true -> gfifo_push f e = Some (f, false))
  /\ (gfifo_is_full f = false ->
      exists f',
        gfifo_push f e = Some (f', true) /\ gfifo_wf f'
        /\ gfifo_queued f' = gfifo_queued f ++ [e]
        /\ gfifo_count f' = gfifo_count f + 1 /\ o f' = o f).
Proof.
  intros Hwf.
  destruct (wf_facts f Hwf) as (b & Hb & Hl & Hc & _ & Hland & Hn & Hi).
  unfold gfifo_is_full. change (U32.sub (i f) (o f)) with (gfifo_count f).
  split.
  - intros Hfull. apply Z.eqb_eq in Hfull. apply push_full. lia.
  - intros Hfull. apply Z.eqb_neq in Hfull.
    destruct (push_ok f b e Hwf Hb ltac:(lia)) as (Hp & Hwf' & Hq & Hcnt).
    eexists. split; [exact Hp|]. split; [assumption|].
    split; [assumption|]. split; [assumption|reflexivity].
Qed.

Lemma push_array_ok f (arr : list T) (len : Z) :
  gfifo_wf f -> 0 < len <= cap f - gfifo_count f ->
  len <= Z.of_nat (length arr) ->
  exists f',
    gfifo_push_array f arr len = Some (f', true) /\ gfifo_wf f'
    /\ gfifo_queued f' = gfifo_queued f ++ take (Z.to_nat len) arr
    /\ gfifo_count f' = gfifo_count f + len /\ o f' = o f
    /\ i f' = U32.add (i f) len.
Proof.
  intros Hwf Hlen Harr.
  destruct (wf_facts f Hwf) as (b & Hb & Hl & Hc & _ & Hland & Hn & Hi).
  pose proof Hwf as (Hinv & _).
  destruct (push_array_buffer f b arr len Hwf Hb Hlen Harr)
    as (b2 & -> & Hlen2 & Hslots).
  destruct (inv_advance_i f b2 len Hinv ltac:(lia) ltac:(lia))
    as [Hinv' Hcnt'].
  assert (Hwf' : gfifo_wf (set_i (set_buf f b2) (U32.add (i f) len))).
  { eapply wf_set_buf; eassumption. }
  eexists. split; [reflexivity|]. split; [assumption|].
  split; [|split; [assumption|split; reflexivity]].
  apply (queued_append f _ b b2); try assumption; try reflexivity.
  - rewrite Hcnt', length_take. lia.
  - intros k Hk.
    pose proof (Z.mod_pos_bound (o f + Z.of_nat k) (cap f) Hc) as Hs.
    rewrite Hslots by lia. rewrite Z2Nat.id by lia.
    rewrite Zminus_mod_idemp_l.
    rewrite Zminus_mod, Hi, <- Zminus_mod.
    replace (o f + Z.of_nat k - (o f + gfifo_count f))
      with (Z.of_nat k - gfifo_count f) by lia.
    rewrite mod_neg_small by lia.
    case_decide; [lia|reflexivity].
  - intros k Hk. rewrite length_take in Hk.
    pose proof (Z.mod_pos_bound (i f + Z.of_nat k) (cap f) Hc) as Hs.
    rewrite Hslots by lia. rewrite Z2Nat.id by lia.
    rewrite Zminus_mod_idemp_l.
    replace (i f + Z.of_nat k - i f) with (Z.of_nat k) by lia.
    rewrite Z.mod_small by lia.
    case_decide; [|lia]. rewrite Nat2Z.id.
    symmetry. apply lookup_take_lt. lia.
Qed.

(** X2. On a well-formed queue a [push_array] of [len] elements, [len] of
    32 bits and within the source array, returns [false] exactly when
    [len] exceeds the free space [cap - count]; otherwise it returns
    [true] and the first [len] elements of the source are queued, in
    their order, behind the ones that were there. *)
Theorem push_array_appends f (arr : list T) (len : Z) :
  gfifo_wf f -> U32.in_range len -> len <= Z.of_nat (length arr) ->
  (cap f - gfifo_count f < len -> gfifo_push_array f arr len = Some (f, false))
  /\ (len <= cap f - gfifo_count f ->
      exists f',
        gfifo_push_array f arr len = Some (f', true) /\ gfifo_wf f'
        /\ gfifo_queued f' = gfifo_queued f ++ take (Z.to_nat len) arr
        /\ gfifo_count f' = gfifo_count f + len /\ o f' = o f).
Proof.
  intros Hwf Hr Harr. unfold U32.in_range in Hr.
  destruct (wf_facts f Hwf) as (b & Hb & Hl & Hc & _ & Hland & Hn & Hi).
  pose proof Hwf as (Hinv & _).
  split.
  - intros Hlt.
    unfold gfifo_push_array.
    destruct (Z.eqb_spec len 0); [lia|].
    change (U32.sub (i f) (o f)) with (gfifo_count f).
    rewrite free_space_exact by assumption.
    destruct (Z.ltb_spec (cap f - gfifo_count f) len); [reflexivity|lia].
  - intros Hle. destruct (Z.eq_dec len 0) as [->|Hnz].
    + exists f. split; [reflexivity|]. split; [assumption|].
      cbn. rewrite app_nil_r. split; [reflexivity|]. split; [lia|reflexivity].
    + destruct (push_array_ok f arr len Hwf ltac:(lia) Harr)
        as (f' & H1 & H2 & H3 & H4 & H5 & _).
      exists f'. split; [assumption|]. split; [assumption|].
      split; [assumption|]. split; assumption.
Qed.

End Enqueue.

(** ** Dequeueing *)

Section Dequeue.

Context {T : Type}.

Import Gfifo.

Implicit Types f : gfifo_t T.

Lemma empty_iff_count f :
  gfifo_wf f -> (gfifo_is_empty f = true <-> gfifo_count f = 0).
Proof.
  intros ((Hi & Ho & _) & _). unfold gfifo_is_empty, gfifo_count.
  rewrite Z.eqb_eq. symmetry. apply sub_eq_0; assumption.
Qed.

(** Advancing the tail by [n] drops the [n] oldest elements. *)
Lemma queued_advance_o f (n : Z) :
  gfifo_wf f -> 0 <= n <= gfifo_count f ->
  gfifo_wf (set_o f (U32.add (o f) n))
  /\ gfifo_queued (set_o f (U32.add (o f) n))
     = drop (Z.to_nat n) (gfifo_queued f)
  /\ gfifo_count (set_o f (U32.add (o f) n)) = gfifo_count f - n.
Proof.
  intros Hwf Hn.
  destruct (wf_facts f Hwf) as (b & Hb & Hl & Hc & Hd & Hland & Hcnt & Hi).
  pose proof Hwf as (Hinv & _).
  destruct (inv_advance_o f n Hinv Hn) as [Hinv' Hcnt'].
  assert (Hwf' : gfifo_wf (set_o f (U32.add (o f) n))).
  { apply wf_set_o; assumption. }
  pose proof (queued_length f Hwf) as Hql.
  split; [assumption|]. split; [|assumption].
  apply (queued_eq _ b); try assumption.
  - rewrite length_drop. lia.
  - intros k Hk. cbn [o cap set_o]. rewrite lookup_drop.
    rewrite (queued_lookup f b) by (try assumption; lia).
    f_equal. f_equal.
    rewrite <- (Zplus_mod_idemp_l (U32.add (o f) n)).
    unfold U32.add. rewrite wrap_mod by assumption.
    rewrite Zplus_mod_idemp_l. f_equal. lia.
Qed.

Lemma queued_head f (b : list T) :
  gfifo_wf f -> buf f = Some b -> 0 < gfifo_count f ->
  exists x l, gfifo_queued f = x :: l
              /\ load b (Z.land (o f) (msk f)) = Some x.
Proof.
  intros Hwf Hb Hpos.
  destruct (wf_facts f Hwf) as (b' & Hb' & Hl & Hc & _ & Hland & _).
  rewrite Hb in Hb'. injection Hb' as <-.
  pose proof (queued_length f Hwf) as Hql.
  pose proof (queued_lookup f b 0 Hwf Hb ltac:(lia)) as H0.
  rewrite Z.add_0_r in H0.
  destruct (gfifo_queued f) as [|x l]; [cbn in Hql; lia|].
  exists x, l. split; [reflexivity|].
  pose proof (Z.mod_pos_bound (o f) (cap f) Hc).
  unfold load. rewrite Hland.
  destruct (Z.leb_spec 0 (o f mod cap f)); [|lia].
  rewrite <- H0. reflexivity.
Qed.

(** X3. On a well-formed queue [pop] fails exactly when nothing is queued,
    leaving queue and output as they were; otherwise it returns [true]
    with the oldest element, and the queue holds the remaining ones in
    their order, with head and array untouched. *)
Theorem pop_takes_oldest f (e : T) :
  gfifo_wf f ->
  match gfifo_queued f with
  | [] => gfifo_is_empty f = true /\ gfifo_pop f e = Some (f, e, false)
  | x :: l =>
      gfifo_is_empty f = false
      /\ exists f',
           gfifo_pop f e = Some (f', x, true) /\ gfifo_wf f'
           /\ gfifo_queued f' = l /\ i f' = i f /\ buf f' = buf f
  end.
Proof.
  intros Hwf.
  destruct (wf_facts f Hwf) as (b & Hb & Hl & Hc & _ & Hland & Hcnt & _).
  pose proof (queued_length f Hwf) as Hql.
  pose proof (empty_iff_count f Hwf) as Hempty.
  unfold gfifo_pop. change (U32.sub (i f) (o f)) with (gfifo_count f).
  destruct (Z.ltb_spec 0 (gfifo_count f)) as [Hpos|Hz].
  - destruct (queued_head f b Hwf Hb Hpos) as (x & l & Hq & Hload).
    rewrite Hq. split.
    { destruct (gfifo_is_empty f); [|reflexivity].
      destruct Hempty as [Hz _]. specialize (Hz eq_refl). lia. }
    rewrite Hb. cbn. rewrite Hload. cbn.
    destruct (queued_advance_o f 1 Hwf ltac:(lia)) as (Hwf' & Hq' & _).
    eexists. split; [reflexivity|]. split; [assumption|].
    split; [|split; [reflexivity|exact Hb]].
    rewrite Hq', Hq. reflexivity.
  - assert (Hz0 : gfifo_count f = 0) by lia.
    destruct (gfifo_queued f) as [|x l]; [|cbn in Hql; lia].
    split; [apply Hempty; assumption|reflexivity].
Qed.

Lemma pop_array_ok f (arr : list T) (len : Z) :
  gfifo_wf f -> 0 < len <= gfifo_count f -> len <= Z.of_nat (length arr) ->
  gfifo_pop_array f arr len
  = Some (set_o f (U32.add (o f) len),
          take (Z.to_nat len) (gfifo_queued f) ++ drop (Z.to_nat len) arr,
          true).
Proof.
  intros Hwf Hlen Harr.
  destruct (wf_facts f Hwf) as (b & Hb & Hl & Hc & _ & Hland & Hcnt & _).
  pose proof (queued_length f Hwf) as Hql.
  destruct (pop_array_output f b arr len Hwf Hb Hlen Harr)
    as (a2 & -> & Hlen2 & Hout).
  f_equal. f_equal. f_equal. apply list_eq. intros k.
  rewrite Hout. case_decide as Hk.
  - rewrite lookup_app_l by (rewrite length_take; lia).
    rewrite lookup_take_lt by lia.
    symmetry. apply queued_lookup; [assumption|assumption|lia].
  - rewrite lookup_app_r by (rewrite length_take; lia).
    rewrite length_take, lookup_drop. f_equal. lia.
Qed.

(** X4. On a well-formed queue a [pop_array] of [len] elements, [len] of
    32 bits and within the output array, fails exactly when fewer than
    [len] elements are queued; otherwise it returns [true], the output
    holds the [len] oldest elements in their order followed by what it
    held beyond [len], and the queue holds the remaining elements. *)
Theorem pop_array_takes_oldest f (arr : list T) (len : Z) :
  gfifo_wf f -> U32.in_range len -> len <= Z.of_nat (length arr) ->
  (gfifo_count f < len -> gfifo_pop_array f arr len = Some (f, arr, false))
  /\ (len <= gfifo_count f ->
      exists f',
        gfifo_pop_array f arr len
        = Some (f', take (Z.to_nat len) (gfifo_queued f)
                    ++ drop (Z.to_nat len) arr, true)
        /\ gfifo_wf f'
        /\ gfifo_queued f' = drop (Z.to_nat len) (gfifo_queued f)
        /\ i f' = i f /\ buf f' = buf f).
Proof.
  intros Hwf Hr Harr. unfold U32.in_range in Hr.
  destruct (wf_facts f Hwf) as (b & Hb & Hl & Hc & _ & Hland & Hcnt & _).
  pose proof (queued_length f Hwf) as Hql.
  split.
  - intros Hlt. unfold gfifo_pop_array.
    destruct (Z.eqb_spec len 0); [lia|].
    change (U32.sub (i f) (o f)) with (gfifo_count f).
    destruct (Z.ltb_spec (gfifo_count f) len); [reflexivity|lia].
  - intros Hle. destruct (Z.eq_dec len 0) as [->|Hnz].
    + exists f. cbn. rewrite drop_0.
      split; [reflexivity|]. split; [assumption|].
      split; [reflexivity|]. split; reflexivity.
    + rewrite (pop_array_ok f arr len Hwf ltac:(lia) Harr).
      destruct (queued_advance_o f len Hwf ltac:(lia)) as (Hwf' & Hq' & _).
      eexists. split; [reflexivity|]. split; [assumption|].
      split; [assumption|]. split; reflexivity.
Qed.

(** X5. On a well-formed queue [drop] fails exactly when nothing is
    queued, changing nothing; otherwise it returns [true] and removes the
    oldest element and nothing else. *)
Theorem drop_removes_oldest f :
  gfifo_wf f ->
  gfifo_drop f
  = (if gfifo_is_empty f then (f, false)
     else (set_o f (U32.add (o f) 1), true))
  /\ gfifo_wf (gfifo_drop f).1
  /\ gfifo_queued (gfifo_drop f).1 = drop 1 (gfifo_queued f).
Proof.
  intros Hwf.
  pose proof (wf_facts f Hwf) as (b & Hb & Hl & Hc & _ & Hland & Hcnt & _).
  pose proof (queued_length f Hwf) as Hql.
  pose proof (empty_iff_count f Hwf) as Hempty.
  assert (Hcases : gfifo_is_empty f = true /\ gfifo_count f = 0
                   \/ gfifo_is_empty f = false /\ 0 < gfifo_count f).
  { destruct (gfifo_is_empty f) eqn:E.
    - left. split; [reflexivity|]. apply Hempty. reflexivity.
    - right. split; [reflexivity|].
      destruct (Z.eq_dec (gfifo_count f) 0) as [Hz|]; [|lia].
      apply Hempty in Hz. discriminate. }
  assert (Hdrop : gfifo_drop f
                  = (if gfifo_is_empty f then (f, false)
                     else (set_o f (U32.add (o f) 1), true))).
  { unfold gfifo_drop. change (U32.sub (i f) (o f)) with (gfifo_count f).
    destruct Hcases as [[-> Hz]|[-> Hpos]].
    - destruct (Z.ltb_spec 0 (gfifo_count f)); [lia|reflexivity].
    - destruct (Z.ltb_spec 0 (gfifo_count f)); [reflexivity|lia]. }
  split; [exact Hdrop|]. rewrite Hdrop. split.
  - destruct Hcases as [[-> Hz]|[-> Hpos]]; cbn; [assumption|].
    apply queued_advance_o; [assumption|lia].
  - destruct Hcases as [[-> Hz]|[-> Hpos]]; cbn.
    + destruct (gfifo_queued f); [reflexivity|cbn in Hql; lia].
    + apply queued_advance_o; [assumption|lia].
Qed.

(** X8. On a well-formed queue [drop_multi], its request being the [len]
    its body reads, of 32 bits, fails with nothing changed when [len]
    exceeds the count, and otherwise returns [true] and removes the [len]
    oldest elements, with head and array untouched. *)
Theorem drop_multi_removes_oldest f (len : Z) :
  gfifo_wf f -> U32.in_range len ->
  (gfifo_count f < len -> gfifo_drop_multi f len = (f, false))
  /\ (len <= gfifo_count f ->
      (gfifo_drop_multi f len).2 = true
      /\ gfifo_wf (gfifo_drop_multi f len).1
      /\ gfifo_queued (gfifo_drop_multi f len).1
         = drop (Z.to_nat len) (gfifo_queued f)
      /\ i (gfifo_drop_multi f len).1 = i f
      /\ buf (gfifo_drop_multi f len).1 = buf f).
Proof.
  intros Hwf Hr. unfold U32.in_range in Hr.
  pose proof (wf_facts f Hwf) as (b & Hb & Hl & Hc & _ & Hland & Hcnt & _).
  split.
  - intros Hlt. unfold gfifo_drop_multi, gfifo_drop_multi_declared.
    destruct (Z.eqb_spec len 0); [lia|].
    change (U32.sub (i f) (o f)) with (gfifo_count f).
    destruct (Z.ltb_spec (gfifo_count f) len); [reflexivity|lia].
  - intros Hle. unfold gfifo_drop_multi, gfifo_drop_multi_declared.
    destruct (Z.eqb_spec len 0) as [->|Hnz]; cbn.
    + split; [reflexivity|]. split; [assumption|].
      split; [reflexivity|]. split; reflexivity.
    + change (U32.sub (i f) (o f)) with (gfifo_count f).
      destruct (Z.ltb_spec (gfifo_count f) len); [lia|]. cbn.
      destruct (queued_advance_o f len Hwf ltac:(lia)) as (Hwf' & Hq' & _).
      split; [reflexivity|]. split; [assumption|].
      split; [assumption|]. split; reflexivity.
Qed.

(** X6. On a well-formed queue [peek_at] with an offset that is not
    negative returns [true] exactly for the offsets below the count and
    then delivers the queued element of that rank, the oldest having rank
    0; [peek] is [peek_at] at offset 0.  The queue is returned as it was
    and a failing call leaves the output as it was. *)
Theorem peek_at_reads_queued f (e : T) (ofst : Z) :
  gfifo_wf f -> 0 <= ofst ->
  gfifo_peek_at f e ofst
  = Some (f, default e (gfifo_queued f !! Z.to_nat ofst),
          bool_decide (ofst < gfifo_count f))
  /\ gfifo_peek f e = gfifo_peek_at f e 0.
Proof.
  intros Hwf Hofs.
  destruct (wf_facts f Hwf) as (b & Hb & Hl & Hc & Hd & Hland & Hcnt & _).
  pose proof (queued_length f Hwf) as Hql.
  pose proof Hwf as ((_ & Ho & _) & _).
  split.
  - unfold gfifo_peek_at.
    change (U32.sub (i f) (o f)) with (gfifo_count f).
    destruct (Z.ltb_spec ofst (gfifo_count f)) as [Hlt|Hge].
    + rewrite bool_decide_eq_true_2 by assumption.
      rewrite Hb, Hland. cbn. unfold U32.add.
      rewrite wrap_mod by assumption.
      pose proof (Z.mod_pos_bound (o f + ofst) (cap f) Hc).
      unfold load. destruct (Z.leb_spec 0 ((o f + ofst) mod cap f)); [|lia].
      rewrite (queued_lookup f b) by (try assumption; lia).
      rewrite Z2Nat.id by lia.
      destruct (lookup_lt_is_Some_2 b (Z.to_nat ((o f + ofst) mod cap f)))
        as [v Hv]; [lia|].
      rewrite Hv. reflexivity.
    + rewrite bool_decide_eq_false_2 by lia.
      rewrite lookup_ge_None_2 by lia. reflexivity.
  - unfold gfifo_peek, gfifo_peek_at, U32.add.
    rewrite Z.add_0_r, wrap_small by assumption. reflexivity.
Qed.

(** X7. [reset] empties every queue, whatever it held: nothing is queued
    afterwards, while the array keeps its elements; and on a well-formed
    queue [reset] gives exactly the queue that [gfifo_init] gives over the
    same array with the same capacity, well-formed again. *)
Theorem reset_empties f :
  gfifo_queued (gfifo_reset f) = []
  /\ gfifo_is_empty (gfifo_reset f) = true
  /\ buf (gfifo_reset f) = buf f
  /\ (gfifo_wf f ->
      gfifo_wf (gfifo_reset f)
      /\ gfifo_init f (buf f) (cap f) = (gfifo_reset f, true)).
Proof.
  split.
  { unfold gfifo_queued, gfifo_reset, gfifo_count. cbn.
    destruct (buf f); reflexivity. }
  do 2 (split; [reflexivity|]).
  intros Hwf. pose proof Hwf as (Hinv & Hp & Hm & b & Hb & Hl).
  pose proof Hinv as (_ & _ & Hc & _).
  split.
  - split; [apply inv_reset; assumption|].
    cbn. split; [assumption|]. split; [assumption|]. exists b.
    split; assumption.
  - pose proof (power_of_two_pos _ Hp) as Hpos.
    pose proof (proj2 (gfifo_init_test (cap f) Hc) Hp) as Htest.
    unfold gfifo_init. rewrite Htest, Hb. cbn.
    unfold gfifo_reset, set_i, set_o. cbn. rewrite Hb, Hm.
    f_equal. f_equal. apply wrap_small. unfold U32.in_range in *. lia.
Qed.

End Dequeue.

(** ** Runs of single calls, and the bulk calls as such runs *)

Section Sequences.

Context {T : Type}.

Import Gfifo.

Implicit Types f : gfifo_t T.

Lemma set_o_same f : set_o f (o f) = f.
Proof. destruct f. reflexivity. Qed.

Lemma set_o_set_o f (v w : Z) : set_o (set_o f v) w = set_o f w.
Proof. reflexivity. Qed.

Lemma add_add (a m n : Z) : U32.add (U32.add a m) n = U32.add a (m + n).
Proof.
  unfold U32.add, U32.wrap. rewrite Zplus_mod_idemp_l. f_equal. lia.
Qed.

Lemma pop_ok f (e x : T) (l : list T) :
  gfifo_wf f -> gfifo_queued f = x :: l ->
  gfifo_pop f e = Some (set_o f (U32.add (o f) 1), x, true)
  /\ gfifo_wf (set_o f (U32.add (o f) 1))
  /\ gfifo_queued (set_o f (U32.add (o f) 1)) = l.
Proof.
  intros Hwf Hq.
  destruct (wf_facts f Hwf) as (b & Hb & _).
  pose proof (queued_length f Hwf) as Hql. rewrite Hq in Hql. cbn in Hql.
  destruct (queued_head f b Hwf Hb ltac:(lia)) as (x' & l' & Hq' & Hload).
  rewrite Hq in Hq'. injection Hq' as <- <-.
  destruct (queued_advance_o f 1 Hwf ltac:(lia)) as (Hwf' & Hqa & _).
  split; [|split; [assumption|rewrite Hqa, Hq; reflexivity]].
  unfold gfifo_pop. change (U32.sub (i f) (o f)) with (gfifo_count f).
  destruct (Z.ltb_spec 0 (gfifo_count f)); [|lia].
  rewrite Hb. cbn. rewrite Hload. reflexivity.
Qed.

Lemma pop_times_ok (n : nat) : forall f (e : T),
  gfifo_wf f -> Z.of_nat n <= gfifo_count f ->
  pop_times f n e
  = Some (set_o f (U32.add (o f) (Z.of_nat n)),
          (fun x => (x, true)) <$> take n (gfifo_queued f))
  /\ gfifo_wf (set_o f (U32.add (o f) (Z.of_nat n)))
  /\ gfifo_queued (set_o f (U32.add (o f) (Z.of_nat n)))
     = drop n (gfifo_queued f).
Proof.
  induction n as [|n IH]; intros f e Hwf Hle.
  - pose proof Hwf as ((_ & Ho & _) & _).
    cbn [pop_times take fmap list_fmap Z.of_nat].
    unfold U32.add. rewrite Z.add_0_r, wrap_small by assumption.
    rewrite set_o_same, drop_0. split; [reflexivity|].
    split; [assumption|reflexivity].
  - pose proof (queued_length f Hwf) as Hql.
    destruct (gfifo_queued f) as [|x l] eqn:Hq; [cbn in Hql; lia|].
    destruct (pop_ok f e x l Hwf Hq) as (Hpop & Hwf1 & Hq1).
    pose proof (queued_length _ Hwf1) as Hql1. rewrite Hq1 in Hql1.
    cbn in Hql.
    destruct (IH (set_o f (U32.add (o f) 1)) x Hwf1 ltac:(lia))
      as (Hrest & Hwf2 & Hq2).
    cbn [o set_o] in Hrest, Hwf2, Hq2.
    rewrite set_o_set_o, add_add in Hrest, Hwf2, Hq2.
    replace (1 + Z.of_nat n) with (Z.of_nat (S n)) in Hrest, Hwf2, Hq2
      by lia.
    cbn [pop_times]. rewrite Hpop. cbn. rewrite Hrest. cbn.
    rewrite Hq1. split; [reflexivity|]. split; [assumption|].
    rewrite Hq2, Hq1. reflexivity.
Qed.

Lemma push_each_ok (es : list T) : forall f,
  gfifo_wf f ->
  let n := Nat.min (length es) (Z.to_nat (cap f - gfifo_count f)) in
  exists f',
    push_each f es
    = Some (f', replicate n true ++ replicate (length es - n) false)
    /\ gfifo_wf f'
    /\ gfifo_queued f' = gfifo_queued f ++ take n es
    /\ o f' = o f /\ cap f' = cap f.
Proof.
  induction es as [|e es IH]; intros f Hwf; cbv zeta.
  - exists f. cbn. rewrite app_nil_r.
    split; [reflexivity|]. split; [assumption|].
    split; [reflexivity|]. split; reflexivity.
  - cbv zeta in IH.
    destruct (wf_facts f Hwf) as (b & Hb & _ & _ & _ & _ & Hn & _).
    destruct (Z_lt_le_dec (gfifo_count f) (cap f)) as [Hlt|Hge].
    + destruct (push_ok f b e Hwf Hb Hlt) as (Hp & Hwf1 & Hq1 & Hc1).
      destruct (IH _ Hwf1) as (f' & Hrest & Hwf' & Hq' & Ho' & Hcap').
      cbn [cap set_i set_buf o] in Hrest, Hq', Ho', Hcap'.
      rewrite Hc1 in Hrest, Hq'.
      assert (Hpe : push_each f (e :: es)
                    = Some (f', true :: replicate
                              (Nat.min (length es)
                                 (Z.to_nat (cap f - (gfifo_count f + 1))))
                              true
                            ++ replicate
                                 (length es
                                  - Nat.min (length es)
                                      (Z.to_nat
                                         (cap f - (gfifo_count f + 1))))
                                 false)).
      { cbn [push_each]. rewrite Hp. cbn. rewrite Hrest. reflexivity. }
      exists f'. rewrite Hpe.
      replace (Nat.min (length (e :: es)) (Z.to_nat (cap f - gfifo_count f)))
        with (S (Nat.min (length es)
                   (Z.to_nat (cap f - (gfifo_count f + 1)))))
        by (cbn [length]; lia).
      split; [reflexivity|]. split; [assumption|].
      split; [|split; assumption].
      rewrite Hq', Hq1, <- app_assoc. reflexivity.
    + destruct (IH f Hwf) as (f' & Hrest & Hwf' & Hq' & Ho' & Hcap').
      replace (Z.to_nat (cap f - gfifo_count f)) with 0%nat in * by lia.
      rewrite Nat.min_0_r in *. rewrite Nat.sub_0_r in *.
      cbn [replicate app take] in *.
      assert (Hpe : push_each f (e :: es)
                    = Some (f', false :: replicate (length es) false)).
      { cbn [push_each]. rewrite (push_full f e) by lia. cbn.
        rewrite Hrest. reflexivity. }
      exists f'. rewrite Hpe.
      split; [reflexivity|]. split; [assumption|].
      split; [|split; assumption]. assumption.
Qed.

(** X9. On a well-formed queue a run of pushes goes through for as many
    elements as there is free space: these pushes return [true] and their
    elements are queued in order behind the ones that were there; every
    later push returns [false] and leaves the queue alone. *)
Theorem push_each_fills f (es : list T) :
  gfifo_wf f ->
  let n := Nat.min (length es) (Z.to_nat (cap f - gfifo_count f)) in
  exists f',
    push_each f es
    = Some (f', replicate n true ++ replicate (length es - n) false)
    /\ gfifo_wf f'
    /\ gfifo_queued f' = gfifo_queued f ++ take n es.
Proof.
  intros Hwf. cbv zeta.
  destruct (push_each_ok es f Hwf) as (f' & H1 & H2 & H3 & _).
  exists f'. split; [exact H1|]. split; assumption.
Qed.

(** X10. On a well-formed queue that holds at least [n] elements, [n]
    pops return [true] with the [n] oldest elements, oldest first, and
    leave the remaining ones queued; head and array are untouched. *)
Theorem pop_times_drains f (n : nat) (e : T) :
  gfifo_wf f -> Z.of_nat n <= gfifo_count f ->
  exists f',
    pop_times f n e
    = Some (f', (fun x => (x, true)) <$> take n (gfifo_queued f))
    /\ gfifo_wf f'
    /\ gfifo_queued f' = drop n (gfifo_queued f)
    /\ i f' = i f /\ buf f' = buf f.
Proof.
  intros Hwf Hle.
  destruct (pop_times_ok n f e Hwf Hle) as (H1 & H2 & H3).
  eexists. split; [exact H1|]. split; [assumption|].
  split; [assumption|]. split; reflexivity.
Qed.

End Sequences.

Section BulkAsRuns.

Context {T : Type}.

Import Gfifo.

Implicit Types f : gfifo_t T.

Lemma set_i_same f (b : list T) :
  buf f = Some b -> set_i (set_buf f b) (i f) = f.
Proof. destruct f as [fb fc fm fi fo]. cbn. intros ->. reflexivity. Qed.

Lemma succ_slot (x c : Z) :
  0 < c ->
  (x + 1) mod c = x mod c + 1 /\ x mod c + 1 < c
  \/ (x + 1) mod c = 0 /\ x mod c = c - 1.
Proof.
  intros Hc. pose proof (Z.mod_pos_bound x c Hc).
  destruct (Z_lt_le_dec (x mod c + 1) c).
  - left. split; [|assumption]. apply mod_add_small; lia.
  - right. split; [|lia]. rewrite mod_add_wrap by lia. lia.
Qed.

(** The array after a run of pushes that all find room. *)
Lemma push_each_state (es : list T) : forall f (b : list T),
  gfifo_wf f -> buf f = Some b ->
  Z.of_nat (length es) <= cap f - gfifo_count f ->
  exists b',
    push_each f es
    = Some (set_i (set_buf f b') (U32.add (i f) (Z.of_nat (length es))),
            replicate (length es) true)
    /\ length b' = length b
    /\ forall j : nat,
         Z.of_nat j < cap f ->
         b' !! j
         = if decide ((Z.of_nat j - i f) mod cap f < Z.of_nat (length es))
           then es !! Z.to_nat ((Z.of_nat j - i f) mod cap f)
           else b !! j.
Proof.
  induction es as [|e es IH]; intros f b Hwf Hb Hroom.
  - exists b. pose proof Hwf as ((Hi & _) & _).
    destruct (wf_facts f Hwf) as (_ & _ & _ & Hc & _).
    cbn [push_each length replicate Z.of_nat].
    unfold U32.add. rewrite Z.add_0_r, wrap_small by assumption.
    rewrite set_i_same by assumption.
    split; [reflexivity|]. split; [reflexivity|].
    intros j Hj.
    pose proof (Z.mod_pos_bound (Z.of_nat j - i f) (cap f) Hc).
    case_decide; [lia|reflexivity].
  - destruct (wf_facts f Hwf) as (b0 & Hb0 & Hl & Hc & Hd & _ & Hn & _).
    rewrite Hb in Hb0. injection Hb0 as <-.
    cbn [length] in Hroom.
    destruct (push_ok f b e Hwf Hb ltac:(lia)) as (Hp & Hwf1 & _ & Hc1).
    set (b1 := <[Z.to_nat (i f mod cap f) := e]> b) in *.
    destruct (IH _ b1 Hwf1 eq_refl) as (b' & Hrest & Hlen' & Hslots).
    { rewrite Hc1. cbn [cap set_i set_buf]. lia. }
    cbn [cap set_i set_buf i] in Hrest, Hslots.
    exists b'. split; [|split].
    + cbn [push_each]. rewrite Hp. cbn. rewrite Hrest. cbn.
      rewrite add_add. unfold set_i, set_buf. cbn.
      do 4 f_equal. lia.
    + rewrite Hlen'. apply length_insert.
    + intros j Hj. rewrite (Hslots j Hj).
      pose proof (Z.mod_pos_bound (i f) (cap f) Hc) as Hm.
      assert (E1 : (Z.of_nat j - U32.add (i f) 1) mod cap f
                   = (Z.of_nat j - (i f + 1)) mod cap f).
      { rewrite <- Zminus_mod_idemp_r. unfold U32.add.
        rewrite wrap_mod by assumption. apply Zminus_mod_idemp_r. }
      rewrite E1.
      rewrite (mod_sub_cases (Z.of_nat j) (i f + 1) (cap f)) by lia.
      rewrite (mod_sub_cases (Z.of_nat j) (i f) (cap f)) by lia.
      cbn [length].
      destruct (succ_slot (i f) (cap f) Hc) as [[Es Hs]|[Es Hs]];
        rewrite Es;
        destruct (Z_lt_le_dec (Z.of_nat j) (i f mod cap f + 1));
        destruct (Z_lt_le_dec (Z.of_nat j) (i f mod cap f));
        destruct (Z_lt_le_dec (Z.of_nat j) 0);
        repeat case_decide; try lia.
      all: try (destruct (Z.eq_dec (Z.of_nat j) (i f mod cap f)) as [Ej|Ej]).
      all: try (replace (Z.of_nat j - i f mod cap f) with 0 by lia; cbn;
                subst b1; replace j with (Z.to_nat (i f mod cap f)) by lia;
                apply list_lookup_insert_eq; lia).
      all: try (subst b1; apply list_lookup_insert_ne; lia).
      all: try (match goal with
                | |- ?l !! Z.to_nat ?a = (_ :: ?l) !! Z.to_nat ?b =>
                    replace (Z.to_nat b) with (S (Z.to_nat a)) by lia;
                    reflexivity
                end).
Qed.

End BulkAsRuns.

Section BulkAsRunsTheorems.

Context {T : Type}.

Import Gfifo.

Implicit Types f : gfifo_t T.

(** X11. On a well-formed queue with room for [len] elements a
    [push_array] of [len] elements ends in exactly the queue, array
    included, in which pushing the first [len] elements of the source one
    by one ends, and all these pushes return [true]. *)
Theorem push_array_is_pushes f (arr : list T) (len : Z) :
  gfifo_wf f -> U32.in_range len -> len <= Z.of_nat (length arr) ->
  len <= cap f - gfifo_count f ->
  exists f',
    gfifo_push_array f arr len = Some (f', true)
    /\ push_each f (take (Z.to_nat len) arr)
       = Some (f', replicate (Z.to_nat len) true).
Proof.
  intros Hwf Hr Harr Hroom. unfold U32.in_range in Hr.
  destruct (wf_facts f Hwf) as (b & Hb & Hl & Hc & _).
  pose proof Hwf as ((Hi & _) & _).
  assert (Htl : length (take (Z.to_nat len) arr) = Z.to_nat len).
  { rewrite length_take. lia. }
  destruct (push_each_state (take (Z.to_nat len) arr) f b Hwf Hb)
    as (b' & Hpe & Hlen' & Hslots'); [lia|].
  rewrite Htl in Hpe, Hslots'. rewrite Z2Nat.id in Hpe, Hslots' by lia.
  destruct (Z.eq_dec len 0) as [->|Hnz].
  - exists f. split; [reflexivity|]. rewrite Hpe. cbn.
    unfold U32.add. rewrite Z.add_0_r, wrap_small by assumption.
    assert (b' = b) as ->.
    { apply list_eq. intros j.
      destruct (Z_lt_le_dec (Z.of_nat j) (cap f)) as [Hj|Hj].
      - rewrite (Hslots' j Hj).
        pose proof (Z.mod_pos_bound (Z.of_nat j - i f) (cap f) Hc).
        case_decide; [lia|reflexivity].
      - rewrite !lookup_ge_None_2 by lia. reflexivity. }
    rewrite set_i_same by assumption. reflexivity.
  - destruct (push_array_buffer f b arr len Hwf Hb ltac:(lia) Harr)
      as (b2 & Hpa & Hlen2 & Hslots2).
    eexists. split; [exact Hpa|]. rewrite Hpe.
    assert (b' = b2) as ->; [|reflexivity].
    apply list_eq. intros j.
    destruct (Z_lt_le_dec (Z.of_nat j) (cap f)) as [Hj|Hj].
    + rewrite (Hslots' j Hj), (Hslots2 j Hj).
      pose proof (Z.mod_pos_bound (Z.of_nat j - i f) (cap f) Hc).
      case_decide; [|reflexivity]. apply lookup_take_lt. lia.
    + rewrite !lookup_ge_None_2 by lia. reflexivity.
Qed.

(** X12. On a well-formed queue that holds at least [len] elements a
    [pop_array] of [len] elements ends in the queue in which [len] single
    pops end, and fills the first [len] places of the output with the
    elements these pops return, in the same order; the places beyond
    [len] keep what they held. *)
Theorem pop_array_is_pops f (arr : list T) (len : Z) (e : T) :
  gfifo_wf f -> U32.in_range len -> len <= Z.of_nat (length arr) ->
  len <= gfifo_count f ->
  exists f' xs,
    gfifo_pop_array f arr len = Some (f', xs ++ drop (Z.to_nat len) arr, true)
    /\ pop_times f (Z.to_nat len) e = Some (f', (fun x => (x, true)) <$> xs)
    /\ length xs = Z.to_nat len.
Proof.
  intros Hwf Hr Harr Hle. unfold U32.in_range in Hr.
  pose proof (queued_length f Hwf) as Hql.
  destruct (pop_times_ok (Z.to_nat len) f e Hwf ltac:(lia)) as (Hpt & _).
  rewrite Z2Nat.id in Hpt by lia.
  exists (set_o f (U32.add (o f) len)), (take (Z.to_nat len) (gfifo_queued f)).
  split; [|split; [exact Hpt|rewrite length_take; lia]].
  destruct (Z.eq_dec len 0) as [->|Hnz].
  - pose proof Hwf as ((_ & Ho & _) & _).
    unfold U32.add. rewrite Z.add_0_r, wrap_small by assumption.
    rewrite set_o_same. reflexivity.
  - apply pop_array_ok; [assumption|lia|assumption].
Qed.

Lemma round_trip_ok f (arr out : list T) (len : Z) :
  gfifo_wf f -> gfifo_is_empty f = true ->
  0 <= len <= cap f ->
  len <= Z.of_nat (length arr) -> len <= Z.of_nat (length out) ->
  exists f1 f2,
    gfifo_push_array f arr len = Some (f1, true)
    /\ gfifo_pop_array f1 out len
       = Some (f2, take (Z.to_nat len) arr ++ drop (Z.to_nat len) out, true)
    /\ gfifo_wf f2 /\ gfifo_is_empty f2 = true
    /\ i f2 = U32.add (i f) len /\ o f2 = U32.add (o f) len.
Proof.
  intros Hwf Hemp Hlen Harr Hout.
  destruct (wf_facts f Hwf) as (b & Hb & Hl & Hc & _ & _ & Hcnt & _).
  pose proof Hwf as ((Hi & Ho & Hcr & _) & _).
  apply empty_iff_count in Hemp; [|assumption].
  pose proof (queued_length f Hwf) as Hql.
  assert (Hq0 : gfifo_queued f = []).
  { destruct (gfifo_queued f); [reflexivity|cbn in Hql; lia]. }
  assert (Hio : i f = o f).
  { apply sub_eq_0; assumption. }
  destruct (Z.eq_dec len 0) as [->|Hnz].
  - exists f, f. cbn. rewrite drop_0. unfold U32.add.
    rewrite !Z.add_0_r, !wrap_small by assumption.
    split; [reflexivity|]. split; [reflexivity|]. split; [assumption|].
    split; [apply empty_iff_count; assumption|]. split; reflexivity.
  - destruct (push_array_buffer f b arr len Hwf Hb ltac:(lia) Harr)
      as (b2 & Hpa & Hlen2 & Hslots).
    pose proof Hwf as (Hinv & _).
    destruct (inv_advance_i f b2 len Hinv ltac:(lia) ltac:(lia))
      as [Hinv1 Hcnt1].
    set (f1 := set_i (set_buf f b2) (U32.add (i f) len)) in *.
    assert (Hwf1 : gfifo_wf f1) by (eapply wf_set_buf; eassumption).
    assert (Hq1 : gfifo_queued f1 = take (Z.to_nat len) arr).
    { rewrite <- (app_nil_l (take (Z.to_nat len) arr)), <- Hq0.
      apply (queued_append f f1 b b2); try assumption; try reflexivity.
      - rewrite Hcnt1, length_take. lia.
      - intros k Hk. lia.
      - intros k Hk. rewrite length_take in Hk.
        pose proof (Z.mod_pos_bound (i f + Z.of_nat k) (cap f) Hc) as Hs.
        rewrite Hslots by lia. rewrite Z2Nat.id by lia.
        rewrite Zminus_mod_idemp_l.
        replace (i f + Z.of_nat k - i f) with (Z.of_nat k) by lia.
        rewrite Z.mod_small by lia.
        case_decide; [|lia]. rewrite Nat2Z.id.
        symmetry. apply lookup_take_lt. lia. }
    destruct (queued_advance_o f1 len Hwf1 ltac:(lia)) as (Hwf2 & _ & Hc2).
    exists f1, (set_o f1 (U32.add (o f1) len)).
    split; [exact Hpa|]. split.
    + rewrite (pop_array_ok f1 out len Hwf1 ltac:(lia) Hout).
      rewrite Hq1, take_take, Nat.min_id. reflexivity.
    + split; [assumption|].
      split; [apply empty_iff_count; [assumption|lia]|].
      split; reflexivity.
Qed.


(** X13. What goes in comes out: on a well-formed empty queue, wherever
    its indices stand, a [push_array] of [len] elements, [len] at most the
    capacity, followed by a [pop_array] of [len] elements returns [true]
    twice and hands the [len] elements back in their order; the queue is
    empty again and both indices have advanced by [len], modulo 2^32. *)
Theorem bulk_round_trip f (arr out : list T) (len : Z) :
  gfifo_wf f -> gfifo_is_empty f = true ->
  0 <= len <= cap f ->
  len <= Z.of_nat (length arr) -> len <= Z.of_nat (length out) ->
  exists f1 f2,
    gfifo_push_array f arr len = Some (f1, true)
    /\ gfifo_pop_array f1 out len
       = Some (f2, take (Z.to_nat len) arr ++ drop (Z.to_nat len) out, true)
    /\ gfifo_wf f2 /\ gfifo_is_empty f2 = true
    /\ i f2 = U32.add (i f) len /\ o f2 = U32.add (o f) len.
Proof. apply round_trip_ok. Qed.

End BulkAsRunsTheorems.

(** * Memory safety *)

Section SafetyTheorems.

Context {T : Type}.

Import Gfifo.

Implicit Types f : gfifo_t T.

(** X14. On a well-formed queue no call reads or writes outside the queue's
    array, and none outside the caller's array when that has at least
    [len] elements: [push], [pop], [peek], [peek_at], [push_array] and
    [pop_array] all return, whatever the element, the offset and the
    32-bit length are, and leave a well-formed queue; [pop_array] does not
    change the length of the caller's array. *)
Theorem calls_stay_in_bounds f (e : T) (ofst len : Z) (arr : list T) :
  gfifo_wf f -> U32.in_range len -> len <= Z.of_nat (length arr) ->
  (exists f' r, gfifo_push f e = Some (f', r) /\ gfifo_wf f')
  /\ (exists f' x r, gfifo_pop f e = Some (f', x, r) /\ gfifo_wf f')
  /\ (exists x r, gfifo_peek f e = Some (f, x, r))
  /\ (exists x r, gfifo_peek_at f e ofst = Some (f, x, r))
  /\ (exists f' r, gfifo_push_array f arr len = Some (f', r) /\ gfifo_wf f')
  /\ (exists f' a r,
        gfifo_pop_array f arr len = Some (f', a, r) /\ gfifo_wf f'
        /\ length a = length arr).
Proof.
  intros Hwf Hr Hlen.
  split; [apply wf_push; assumption|].
  split; [apply wf_pop; assumption|].
  split; [apply (run_peek_call_defined f (Call_peek e) Hwf)|].
  split; [apply (run_peek_call_defined f (Call_peek_at e ofst) Hwf)|].
  split; [apply wf_push_array; assumption|].
  apply wf_pop_array; assumption.
Qed.

Lemma run_frame (f f' : gfifo_t T) :
  gfifo_run f f' ->
  cap f' = cap f /\ msk f' = msk f
  /\ forall b, buf f = Some b ->
               exists b', buf f' = Some b' /\ length b' = length b.
Proof.
  induction 1 as [f1|f1 f2 f3 Hstep _ IH].
  - split; [reflexivity|]. split; [reflexivity|]. eauto.
  - destruct (step_frame f1 f2 Hstep) as (Hc & Hm & Hb).
    destruct IH as (Hc' & Hm' & Hb').
    split; [congruence|]. split; [congruence|].
    intros b Hbuf. destruct (Hb b Hbuf) as (b2 & Hb2 & Hl2).
    destruct (Hb' b2 Hb2) as (b3 & Hb3 & Hl3).
    exists b3. split; [assumption|congruence].
Qed.

(** X15. A queue that [gfifo_init] accepts over an array of exactly
    [size] elements is well-formed: its capacity is a power of two, its
    mask the capacity less 1, its array as long as the capacity and its
    count within the capacity.  Every run of calls keeps it so, and
    changes neither the capacity, which stays [size], nor the mask, which
    stays [size - 1], nor the length of the array. *)
Theorem well_formed_run (f0 : gfifo_t T) (b : list T) (size : Z) f :
  U32.in_range size -> Z.of_nat (length b) = size ->
  gfifo_init f0 (Some b) size = (f, true) ->
  gfifo_wf f
  /\ forall f', gfifo_run f f' ->
        gfifo_wf f' /\ cap f' = size /\ msk f' = size - 1
        /\ exists b', buf f' = Some b' /\ length b' = length b.
Proof.
  intros Hr Hl Hinit.
  assert (Hwf : gfifo_wf f) by (eapply wf_init; eassumption).
  assert (Hfields : cap f = size /\ msk f = size - 1 /\ buf f = Some b).
  { pose proof (gfifo_init_test size Hr) as Htest.
    unfold gfifo_init in Hinit.
    destruct ((size =? 0) || negb (Z.land size (U32.sub size 1) =? 0))
      eqn:Et; [discriminate|].
    assert (Hp : is_power_of_two size) by (apply Htest; reflexivity).
    pose proof (power_of_two_pos _ Hp) as Hpos.
    cbn in Hinit. injection Hinit as <-. cbn.
    split; [reflexivity|]. split; [|reflexivity].
    apply wrap_small. unfold U32.in_range in *. lia. }
  destruct Hfields as (Hc & Hm & Hb).
  split; [assumption|]. clear Hinit. intros f' Hrun.
  destruct (run_frame f f' Hrun) as (Hc' & Hm' & Hb').
  split; [|split; [congruence|split; [congruence|apply Hb'; assumption]]].
  clear Hc' Hm' Hb' Hc Hm Hb.
  induction Hrun as [f1|f1 f2 f3 Hstep _ IH]; [assumption|].
  apply IH. eapply wf_step; eassumption.
Qed.

End SafetyTheorems.

(** * The static assertion of [sfifo.h] *)

(** X16. The assertion [(size & (size - 1)) == 0] lets through the powers
    of two and 0, and nothing else. *)
Theorem static_assert_accepts (size : Z) :
  Sfifo.static_assert size = true <-> size = 0 \/ is_power_of_two size.
Proof.
  unfold Sfifo.static_assert. rewrite Z.eqb_eq.
  destruct (Z.lt_trichotomy size 0) as [Hneg|[->|Hpos]].
  - split.
    + intros E. assert (Hl : Z.land size (size - 1) < 0).
      { apply Z.land_neg. lia. }
      lia.
    + intros [->|Hp]; [lia|]. apply power_of_two_pos in Hp. lia.
  - split; [intros _; left; reflexivity|reflexivity].
  - rewrite land_pred_iff by assumption. split; [tauto|].
    intros [->|Hp]; [lia|assumption].
Qed.

(** * The embedded-buffer queue as a list *)

Section EmbeddedQueue.

Context {T : Type}.

Import Gfifo Sfifo.

Implicit Types s : sfifo_t T.

Lemma same_outcome_inv {A : Type} (g' : gfifo_t T) (a : A)
    (r : option (sfifo_t T * A)) :
  same_outcome (Some (g', a)) r ->
  exists s', r = Some (s', a) /\ g' = to_gfifo s'.
Proof.
  unfold same_outcome. destruct r as [[s' a']|]; [|contradiction].
  intros [-> H]. exists s'. split; [reflexivity|].
  apply same_state_eq. assumption.
Qed.

Lemma regroup_inv {Q A B : Type} (r : option (Q * A * B)) q (a : A) (b : B) :
  regroup r = Some (q, (a, b)) -> r = Some (q, a, b).
Proof.
  unfold regroup. destruct r as [[[q' a'] b']|]; [|discriminate].
  cbn. intros [= -> -> ->]. reflexivity.
Qed.

Lemma sfifo_push_from s (e : T) (g' : gfifo_t T) (r : bool) :
  gfifo_push (to_gfifo s) e = Some (g', r) ->
  exists s', sfifo_push s e = Some (s', r) /\ g' = to_gfifo s'.
Proof.
  intros H. pose proof (same_push _ _ e (same_state_to_gfifo s)) as Hsim.
  rewrite H in Hsim. apply same_outcome_inv. assumption.
Qed.

Lemma sfifo_pop_from s (e x : T) (g' : gfifo_t T) (r : bool) :
  gfifo_pop (to_gfifo s) e = Some (g', x, r) ->
  exists s', sfifo_pop s e = Some (s', x, r) /\ g' = to_gfifo s'.
Proof.
  intros H. pose proof (same_pop _ _ e (same_state_to_gfifo s)) as Hsim.
  rewrite H in Hsim. cbn in Hsim.
  apply same_outcome_inv in Hsim. destruct Hsim as (s' & Hr & Hg).
  exists s'. split; [apply regroup_inv; assumption|assumption].
Qed.

Lemma sfifo_push_array_from s (arr : list T) (len : Z) (g' : gfifo_t T)
    (r : bool) :
  gfifo_push_array (to_gfifo s) arr len = Some (g', r) ->
  exists s', sfifo_push_array s arr len = Some (s', r) /\ g' = to_gfifo s'.
Proof.
  intros H.
  pose proof (same_push_array _ _ arr len (same_state_to_gfifo s)) as Hsim.
  rewrite H in Hsim. apply same_outcome_inv. assumption.
Qed.

Lemma sfifo_pop_array_from s (arr a : list T) (len : Z) (g' : gfifo_t T)
    (r : bool) :
  gfifo_pop_array (to_gfifo s) arr len = Some (g', a, r) ->
  exists s', sfifo_pop_array s arr len = Some (s', a, r) /\ g' = to_gfifo s'.
Proof.
  intros H.
  pose proof (same_pop_array _ _ arr len (same_state_to_gfifo s)) as Hsim.
  rewrite H in Hsim. cbn in Hsim.
  apply same_outcome_inv in Hsim. destruct Hsim as (s' & Hr & Hg).
  exists s'. split; [apply regroup_inv; assumption|assumption].
Qed.

Lemma sfifo_init_wf (size : Z) (s0 s : sfifo_t T) :
  U32.in_range size -> is_power_of_two size ->
  Z.of_nat (length (Sfifo.buf s0)) = size ->
  sfifo_init size (Some s0) = (Some s, true) ->
  sfifo_wf s /\ sfifo_is_empty s = true /\ Sfifo.cap s = size
  /\ Sfifo.buf s = Sfifo.buf s0.
Proof.
  intros Hr Hp Hl Hinit. cbn in Hinit. injection Hinit as <-.
  pose proof (power_of_two_pos _ Hp) as Hpos.
  assert (Hw : U32.wrap size = size) by (apply wrap_small; assumption).
  assert (Hw1 : U32.wrap (size - 1) = size - 1).
  { apply wrap_small. unfold U32.in_range in *. lia. }
  unfold sfifo_wf, gfifo_wf, gfifo_inv, gfifo_count, to_gfifo. cbn.
  rewrite Hw, Hw1, sub_diag.
  split; [|split; [reflexivity|split; reflexivity]].
  split.
  - unfold U32.in_range, U32.modulus in *. lia.
  - split; [assumption|]. split; [reflexivity|].
    eexists. split; [reflexivity|assumption].
Qed.

Lemma sfifo_round_trip_ok s (arr out : list T) (len : Z) :
  sfifo_wf s -> sfifo_is_empty s = true ->
  0 <= len <= Sfifo.cap s ->
  len <= Z.of_nat (length arr) -> len <= Z.of_nat (length out) ->
  exists s1 s2,
    sfifo_push_array s arr len = Some (s1, true)
    /\ sfifo_pop_array s1 out len
       = Some (s2, take (Z.to_nat len) arr ++ drop (Z.to_nat len) out, true)
    /\ sfifo_wf s2 /\ sfifo_is_empty s2 = true
    /\ Sfifo.cap s2 = Sfifo.cap s.
Proof.
  intros Hwf Hemp Hlen Harr Hout.
  destruct (round_trip_ok (to_gfifo s) arr out len Hwf Hemp Hlen Harr Hout)
    as (g1 & g2 & Hpush & Hpop & Hwf2 & Hemp2 & Hi2 & Ho2).
  destruct (sfifo_push_array_from s arr len g1 true Hpush) as (s1 & Hs1 & ->).
  destruct (sfifo_pop_array_from s1 out _ len g2 true Hpop) as (s2 & Hs2 & ->).
  exists s1, s2. split; [assumption|]. split; [assumption|].
  split; [assumption|]. split; [assumption|].
  assert (Hst1 : gfifo_step (to_gfifo s) (to_gfifo s1)).
  { eapply step_push_array; [|exact Hpush].
    destruct Hwf as ((_ & _ & Hc & _) & _). cbn in Hc.
    unfold U32.in_range in *. lia. }
  assert (Hst2 : gfifo_step (to_gfifo s1) (to_gfifo s2)).
  { eapply step_pop_array; [|exact Hpop].
    destruct Hwf as ((_ & _ & Hc & _) & _). cbn in Hc.
    unfold U32.in_range in *. lia. }
  apply step_frame in Hst1, Hst2.
  destruct Hst1 as (Hc1 & _), Hst2 as (Hc2 & _). cbn in Hc1, Hc2.
  congruence.
Qed.

(** X17. The embedded-buffer queue is the same first-in first-out queue.
    On a well-formed one: a [push] into a queue that is not full returns
    [true] and queues the element last; a [pop] from a queue that holds
    elements returns [true] with the oldest and keeps the others; a
    [push_array] of [len] elements that fit returns [true] and queues the
    first [len] elements of the source in their order; a [pop_array] of
    [len] elements that are there returns [true] with the [len] oldest in
    the first [len] places of the output, the other places untouched. *)
Theorem sfifo_is_fifo s (e : T) (arr : list T) (len : Z) :
  sfifo_wf s -> U32.in_range len -> len <= Z.of_nat (length arr) ->
  (sfifo_is_full s = false ->
     exists s', sfifo_push s e = Some (s', true) /\ sfifo_wf s'
                /\ sfifo_queued s' = sfifo_queued s ++ [e])
  /\ (forall x l, sfifo_queued s = x :: l ->
        exists s', sfifo_pop s e = Some (s', x, true) /\ sfifo_wf s'
                   /\ sfifo_queued s' = l)
  /\ (len <= Sfifo.cap s - sfifo_count s ->
        exists s', sfifo_push_array s arr len = Some (s', true)
                   /\ sfifo_wf s'
                   /\ sfifo_queued s'
                      = sfifo_queued s ++ take (Z.to_nat len) arr)
  /\ (len <= sfifo_count s ->
        exists s', sfifo_pop_array s arr len
                   = Some (s', take (Z.to_nat len) (sfifo_queued s)
                               ++ drop (Z.to_nat len) arr, true)
                   /\ sfifo_wf s'
                   /\ sfifo_queued s' = drop (Z.to_nat len) (sfifo_queued s)).
Proof.
  intros Hwf Hr Harr. unfold U32.in_range in Hr.
  pose proof Hwf as Hwfg. unfold sfifo_wf in Hwfg.
  destruct (wf_facts _ Hwfg) as (b & Hb & _ & _ & _ & _ & Hcnt & _).
  change (gfifo_count (to_gfifo s)) with (sfifo_count s) in Hcnt.
  change (Gfifo.cap (to_gfifo s)) with (Sfifo.cap s) in Hcnt.
  split; [|split; [|split]].
  - intros Hfull. unfold sfifo_is_full in Hfull. apply Z.eqb_neq in Hfull.
    destruct (push_ok (to_gfifo s) b e Hwfg Hb) as (Hp & Hwf' & Hq & _).
    { change (gfifo_count (to_gfifo s)) with (sfifo_count s).
      change (Gfifo.cap (to_gfifo s)) with (Sfifo.cap s).
      unfold sfifo_count in *. lia. }
    destruct (sfifo_push_from s e _ true Hp) as (s' & Hs & Hg).
    rewrite Hg in Hwf', Hq.
    exists s'. split; [assumption|]. split; assumption.
  - intros x l Hq.
    destruct (pop_ok (to_gfifo s) e x l Hwfg Hq) as (Hp & Hwf' & Hq').
    destruct (sfifo_pop_from s e x _ true Hp) as (s' & Hs & Hg).
    rewrite Hg in Hwf', Hq'.
    exists s'. split; [assumption|]. split; assumption.
  - intros Hroom. destruct (Z.eq_dec len 0) as [->|Hnz].
    + exists s. cbn. rewrite app_nil_r.
      split; [reflexivity|]. split; [assumption|reflexivity].
    + destruct (push_array_ok (to_gfifo s) arr len Hwfg) as
        (g' & Hp & Hwf' & Hq & _); [|assumption|].
      { change (gfifo_count (to_gfifo s)) with (sfifo_count s).
        change (Gfifo.cap (to_gfifo s)) with (Sfifo.cap s). lia. }
      destruct (sfifo_push_array_from s arr len g' true Hp) as (s' & Hs & ->).
      exists s'. split; [assumption|]. split; assumption.
  - intros Hle. destruct (Z.eq_dec len 0) as [->|Hnz].
    + exists s. cbn. rewrite drop_0.
      split; [reflexivity|]. split; [assumption|reflexivity].
    + pose proof (pop_array_ok (to_gfifo s) arr len Hwfg) as Hp.
      specialize (Hp ltac:(change (gfifo_count (to_gfifo s))
                             with (sfifo_count s); lia) Harr).
      destruct (queued_advance_o (to_gfifo s) len Hwfg) as (Hwf' & Hq' & _).
      { change (gfifo_count (to_gfifo s)) with (sfifo_count s). lia. }
      destruct (sfifo_pop_array_from s arr _ len _ true Hp) as (s' & Hs & Hg).
      rewrite Hg in Hwf', Hq'.
      exists s'. split; [exact Hs|]. split; assumption.
Qed.

(** X18. [sfifo_init] returns [false] for a null queue and [true]
    otherwise; for the type declared with a 32-bit power of two [size],
    whose array has [size] elements, it leaves a well-formed empty queue
    of capacity [size] over the same array, whatever the fields held. *)
Theorem sfifo_init_well_formed (size : Z) (s0 : sfifo_t T) :
  U32.in_range size -> is_power_of_two size ->
  Z.of_nat (length (Sfifo.buf s0)) = size ->
  sfifo_init (T := T) size None = (None, false)
  /\ exists s,
       sfifo_init size (Some s0) = (Some s, true)
       /\ sfifo_wf s /\ sfifo_queued s = [] /\ Sfifo.cap s = size
       /\ Sfifo.buf s = Sfifo.buf s0.
Proof.
  intros Hr Hp Hl. split; [reflexivity|].
  eexists. split; [reflexivity|].
  destruct (sfifo_init_wf size s0 _ Hr Hp Hl eq_refl) as (Hwf & He & Hc & Hb).
  split; [assumption|]. split; [|split; assumption].
  unfold sfifo_queued, sfifo_count. cbn. rewrite sub_diag. reflexivity.
Qed.

End EmbeddedQueue.

(** * The demonstration programs *)

Section Demos.

Import Gfifo Sfifo Demo.

Variable gen : Z -> Z.

Lemma io_count_range : U32.in_range IO_DATA_BYTE_COUNT.
Proof. unfold U32.in_range, U32.modulus, IO_DATA_BYTE_COUNT. lia. Qed.

Lemma round_data (x : Z) (pop_data : list Z) :
  length pop_data = Z.to_nat IO_DATA_BYTE_COUNT ->
  let push_data := replicate (Z.to_nat IO_DATA_BYTE_COUNT) x in
  take (Z.to_nat IO_DATA_BYTE_COUNT) push_data
  ++ drop (Z.to_nat IO_DATA_BYTE_COUNT) pop_data = push_data
  /\ memcmp_differs push_data push_data IO_DATA_BYTE_COUNT = false.
Proof.
  intros Hl. cbv zeta. split.
  - rewrite take_ge by (rewrite length_replicate; lia).
    rewrite drop_ge by lia. apply app_nil_r.
  - unfold memcmp_differs. rewrite bool_decide_eq_true_2; reflexivity.
Qed.

Lemma round_trip_cap (f : gfifo_t Z) (arr out : list Z) (len : Z) :
  gfifo_wf f -> gfifo_is_empty f = true ->
  0 <= len <= Gfifo.cap f ->
  len <= Z.of_nat (length arr) -> len <= Z.of_nat (length out) ->
  exists f1 f2,
    gfifo_push_array f arr len = Some (f1, true)
    /\ gfifo_pop_array f1 out len
       = Some (f2, take (Z.to_nat len) arr ++ drop (Z.to_nat len) out, true)
    /\ gfifo_wf f2 /\ gfifo_is_empty f2 = true
    /\ Gfifo.cap f2 = Gfifo.cap f.
Proof.
  intros Hwf Hemp Hlen Harr Hout.
  destruct (round_trip_ok f arr out len Hwf Hemp Hlen Harr Hout)
    as (f1 & f2 & Hpush & Hpop & Hwf2 & Hemp2 & _).
  exists f1, f2. split; [assumption|]. split; [assumption|].
  split; [assumption|]. split; [assumption|].
  assert (Hr : U32.in_range len).
  { destruct Hwf as ((_ & _ & Hc & _) & _).
    unfold U32.in_range in *. lia. }
  pose proof (step_frame _ _ (step_push_array f arr len f1 true Hr Hpush))
    as (Hc1 & _).
  pose proof (step_frame _ _ (step_pop_array f1 out len f2 _ true Hr Hpop))
    as (Hc2 & _).
  congruence.
Qed.

Lemma gfifo_loop_ok (n : nat) : forall (i : Z) (fifo : gfifo_t Z)
    (pop_data : list Z),
  gfifo_wf fifo -> gfifo_is_empty fifo = true ->
  Gfifo.cap fifo = FIFO_SIZE ->
  length pop_data = Z.to_nat IO_DATA_BYTE_COUNT ->
  exists fifo' pop_data',
    gfifo_loop gen n i fifo pop_data = Some (None, fifo', pop_data').
Proof.
  induction n as [|n IH]; intros i fifo pop_data Hwf Hemp Hcap Hlen.
  - eexists. eexists. reflexivity.
  - destruct (round_data (gen i) pop_data Hlen) as [Hdata Hcmp].
    destruct (round_trip_cap fifo
                (replicate (Z.to_nat IO_DATA_BYTE_COUNT) (gen i))
                pop_data IO_DATA_BYTE_COUNT Hwf Hemp)
      as (f1 & f2 & Hpush & Hpop & Hwf2 & Hemp2 & Hcap2).
    + rewrite Hcap. unfold IO_DATA_BYTE_COUNT, FIFO_SIZE. lia.
    + rewrite length_replicate. unfold IO_DATA_BYTE_COUNT. lia.
    + rewrite Hlen. unfold IO_DATA_BYTE_COUNT. lia.
    + rewrite Hdata in Hpop.
      destruct (IH (i + 1) f2
                  (replicate (Z.to_nat IO_DATA_BYTE_COUNT) (gen i))
                  Hwf2 Hemp2 ltac:(congruence)
                  ltac:(apply length_replicate))
        as (fifo' & pop_data' & Hrest).
      exists fifo', pop_data'.
      cbn [gfifo_loop]. rewrite Hpush. cbn [mbind option_bind negb].
      rewrite Hpop. cbn [mbind option_bind negb].
      rewrite Hcmp. exact Hrest.
Qed.

Lemma sfifo_loop_ok (n : nat) : forall (i : Z) (fifo : sfifo_t Z)
    (pop_data : list Z),
  sfifo_wf fifo -> sfifo_is_empty fifo = true ->
  Sfifo.cap fifo = FIFO_SIZE ->
  length pop_data = Z.to_nat IO_DATA_BYTE_COUNT ->
  exists fifo' pop_data',
    sfifo_loop gen n i fifo pop_data = Some (None, fifo', pop_data').
Proof.
  induction n as [|n IH]; intros i fifo pop_data Hwf Hemp Hcap Hlen.
  - eexists. eexists. reflexivity.
  - destruct (round_data (gen i) pop_data Hlen) as [Hdata Hcmp].
    destruct (sfifo_round_trip_ok fifo
                (replicate (Z.to_nat IO_DATA_BYTE_COUNT) (gen i))
                pop_data IO_DATA_BYTE_COUNT Hwf Hemp)
      as (f1 & f2 & Hpush & Hpop & Hwf2 & Hemp2 & Hcap2).
    + rewrite Hcap. unfold IO_DATA_BYTE_COUNT, FIFO_SIZE. lia.
    + rewrite length_replicate. unfold IO_DATA_BYTE_COUNT. lia.
    + rewrite Hlen. unfold IO_DATA_BYTE_COUNT. lia.
    + rewrite Hdata in Hpop.
      destruct (IH (i + 1) f2
                  (replicate (Z.to_nat IO_DATA_BYTE_COUNT) (gen i))
                  Hwf2 Hemp2 ltac:(congruence)
                  ltac:(apply length_replicate))
        as (fifo' & pop_data' & Hrest).
      exists fifo', pop_data'.
      cbn [sfifo_loop]. rewrite Hpush. cbn [mbind option_bind negb].
      rewrite Hpop. cbn [mbind option_bind negb].
      rewrite Hcmp. exact Hrest.
Qed.

Lemma fifo_size_facts :
  U32.in_range FIFO_SIZE /\ is_power_of_two FIFO_SIZE
  /\ Z.of_nat (length fifo_buf) = FIFO_SIZE.
Proof.
  split; [unfold U32.in_range, U32.modulus, FIFO_SIZE; lia|].
  split; [exists 10; split; [lia|reflexivity]|].
  unfold fifo_buf. rewrite length_replicate. unfold FIFO_SIZE. lia.
Qed.

(** X19. [main] of [demo_gfifo.c] over the three functions of the header
    that it calls, [init], [push_array] and [pop_array].  As shipped the
    file does not compile, because the expansion of [DECLARE_GFIFO_TYPE]
    contains [drop_multi] with its undeclared [len]; [main] never calls
    that function.  With that function out of the way [main] returns 0
    whenever the report file could be opened, whatever bytes the
    generator delivers: in none of the 50000 rounds does [push_array] or
    [pop_array] fail or the comparison of the 17 bytes find a difference,
    and no access leaves an array.  It returns -1 when the file could not
    be opened. *)
Theorem demo_gfifo_passes :
  gfifo_main gen true = Some 0 /\ gfifo_main gen false = Some (-1).
Proof.
  split; [|reflexivity].
  destruct fifo_size_facts as (Hr & Hp & Hl).
  unfold gfifo_main.
  assert (Hinit : gfifo_init gfifo_fifo (Some fifo_buf) FIFO_SIZE
                  = ({| Gfifo.buf := Some fifo_buf; Gfifo.cap := FIFO_SIZE;
                        Gfifo.msk := 1023; Gfifo.i := 0; Gfifo.o := 0 |},
                     true)) by reflexivity.
  rewrite Hinit. cbn [fst].
  pose proof (wf_init _ _ _ _ Hr Hl Hinit) as Hwf.
  destruct (gfifo_loop_ok (Z.to_nat CIRCULAR_LOOP) 0 _ pop_data Hwf)
    as (fifo' & pd' & Hloop);
    [reflexivity|reflexivity|apply length_replicate|].
  rewrite Hloop. reflexivity.
Qed.

(** X20. [main] of [demo_sfifo.c] returns 0 whenever the report file
    could be opened, whatever bytes the generator delivers, and -1 when
    it could not. *)
Theorem demo_sfifo_passes :
  sfifo_main gen true = Some 0 /\ sfifo_main gen false = Some (-1).
Proof.
  split; [|reflexivity].
  destruct fifo_size_facts as (Hr & Hp & Hl).
  unfold sfifo_main.
  assert (Hinit : sfifo_init FIFO_SIZE (Some sfifo_fifo)
                  = (Some {| Sfifo.buf := Sfifo.buf sfifo_fifo;
                             Sfifo.cap := FIFO_SIZE; Sfifo.msk := 1023;
                             Sfifo.i := 0; Sfifo.o := 0 |}, true))
    by reflexivity.
  rewrite Hinit. cbn [fst].
  destruct (sfifo_init_wf FIFO_SIZE sfifo_fifo _ Hr Hp Hl Hinit)
    as (Hwf & Hemp & Hcap & _).
  destruct (sfifo_loop_ok (Z.to_nat CIRCULAR_LOOP) 0 _ pop_data Hwf Hemp Hcap)
    as (fifo' & pd' & Hloop); [apply length_replicate|].
  rewrite Hloop. reflexivity.
Qed.

End Demos.

(** * Counting, and reading before removing *)

Section Counting.

Context {T : Type}.

Import Gfifo.

Implicit Types f : gfifo_t T.

(** X21. On a well-formed queue [gfifo_count] is the number of queued
    elements, which never exceeds the capacity; the queue is empty
    exactly when nothing is queued and full exactly when as many elements
    as the capacity are; the free space that [push_array] computes is the
    capacity less that number. *)
Theorem count_is_length f :
  gfifo_wf f ->
  gfifo_count f = Z.of_nat (length (gfifo_queued f))
  /\ Z.of_nat (length (gfifo_queued f)) <= cap f
  /\ (gfifo_is_empty f = true <-> gfifo_queued f = [])
  /\ (gfifo_is_full f = true <-> Z.of_nat (length (gfifo_queued f)) = cap f)
  /\ gfifo_free_space f = cap f - Z.of_nat (length (gfifo_queued f)).
Proof.
  intros Hwf. pose proof (queued_length f Hwf) as Hql.
  destruct (wf_facts f Hwf) as (_ & _ & _ & _ & _ & _ & Hcnt & _).
  pose proof Hwf as (Hinv & _).
  split; [lia|]. split; [lia|]. split; [|split].
  - rewrite (empty_iff_count f Hwf). split.
    + intros Hz. destruct (gfifo_queued f); [reflexivity|cbn in Hql; lia].
    + intros Hq. rewrite Hq in Hql. cbn in Hql. lia.
  - unfold gfifo_is_full. change (U32.sub (i f) (o f)) with (gfifo_count f).
    rewrite Z.eqb_eq. lia.
  - unfold gfifo_free_space. rewrite free_space_exact by assumption. lia.
Qed.

(** X22. For every queue, [pop] is [peek] followed by [drop]: it returns
    the element and the flag that [peek] returns, and leaves the queue
    that [drop] leaves. *)
Theorem pop_is_peek_then_drop f (e : T) :
  gfifo_pop f e
  = ('(f1, x, r) ← gfifo_peek f e; Some ((gfifo_drop f1).1, x, r))
  /\ (forall f' x r, gfifo_pop f e = Some (f', x, r) ->
                     r = (gfifo_drop f).2).
Proof.
  unfold gfifo_pop, gfifo_peek, gfifo_drop.
  destruct (0 <? U32.sub (i f) (o f)) eqn:E.
  - split.
    + destruct (buf f) as [b|]; [|reflexivity]. cbn.
      destruct (load b _); cbn; [|reflexivity].
      rewrite E. reflexivity.
    + intros f' x r H. destruct (buf f) as [b|]; [|discriminate].
      cbn in H. destruct (load b _); [|discriminate].
      cbn in H. injection H as _ _ <-. reflexivity.
  - split.
    + cbn. rewrite E. reflexivity.
    + intros f' x r [= _ _ <-]. reflexivity.
Qed.

End Counting.

(** * A queue type declared for the size 0 *)

Section SizeZero.

Context {T : Type}.

Import Gfifo Sfifo.

Implicit Types s : sfifo_t T.

Lemma sfifo_reachable_cap (size : Z) s :
  sfifo_reachable size s -> Sfifo.cap s = U32.wrap size.
Proof.
  induction 1 as [s0 s Hinit | s s' _ IH Hstep].
  - cbn in Hinit. injection Hinit as <-. reflexivity.
  - apply sfifo_step_sim, step_frame in Hstep.
    destruct Hstep as (Hc & _). cbn in Hc. congruence.
Qed.

(** X23. The queue type declared for [size] 0, which the static
    assertion lets through, gives a queue that never holds anything: in
    every state it reaches it is empty and full at once, and every
    [push], every [push_array] of a 32-bit length other than 0, every
    [pop] and every [peek] returns [false] and leaves the queue and the
    output as they were, without touching the array. *)
Theorem sfifo_size_zero s (e : T) (arr : list T) (len : Z) :
  sfifo_reachable 0 s -> 0 < len ->
  sfifo_count s = 0
  /\ sfifo_is_empty s = true /\ sfifo_is_full s = true
  /\ sfifo_push s e = Some (s, false)
  /\ sfifo_push_array s arr len = Some (s, false)
  /\ sfifo_pop s e = Some (s, e, false)
  /\ sfifo_peek s e = Some (s, e, false).
Proof.
  intros Hreach Hlen.
  pose proof (sfifo_reachable_cap 0 s Hreach) as Hcap.
  change (U32.wrap 0) with 0 in Hcap.
  destruct (sfifo_reachable_inv 0 s Hreach) as (Hi & Ho & _ & Hn).
  unfold gfifo_count in Hn. cbn in Hi, Ho, Hn. rewrite Hcap in Hn.
  pose proof (sub_range (Sfifo.i s) (Sfifo.o s)) as Hcnt.
  unfold U32.in_range in Hcnt.
  assert (Hz : U32.sub (Sfifo.i s) (Sfifo.o s) = 0) by lia.
  assert (Hio : Sfifo.i s = Sfifo.o s) by (apply sub_eq_0; assumption).
  unfold sfifo_count, sfifo_is_empty, sfifo_is_full, sfifo_push,
    sfifo_push_array, sfifo_pop, sfifo_peek.
  rewrite Hz, Hcap. split; [reflexivity|].
  split; [apply Z.eqb_eq; assumption|]. split; [reflexivity|].
  split; [reflexivity|]. split; [|split; reflexivity].
  destruct (Z.eqb_spec len 0); [lia|].
  destruct (Z.ltb_spec (U32.sub 0 0) len) as [|Hge]; [reflexivity|].
  rewrite sub_diag in Hge. lia.
Qed.

End SizeZero.

(** * The theorems on the example queues *)

Lemma four_is_power_of_two : is_power_of_two 4.
Proof. exists 2. split; [lia|reflexivity]. Qed.

Lemma example_queue_wf : gfifo_wf example_queue.
Proof.
  unfold gfifo_wf, gfifo_inv, U32.in_range, U32.modulus. cbn.
  split; [|split; [exact four_is_power_of_two|split; [reflexivity|]]].
  - split; [lia|]. split; [lia|]. split; [lia|].
    vm_compute. discriminate.
  - eexists. split; reflexivity.
Qed.

Lemma example_empty_queue_wf : gfifo_wf example_empty_queue.
Proof.
  unfold gfifo_wf, gfifo_inv, U32.in_range, U32.modulus. cbn.
  split; [|split; [exact four_is_power_of_two|split; [reflexivity|]]].
  - split; [lia|]. split; [lia|]. split; [lia|].
    vm_compute. discriminate.
  - eexists. split; reflexivity.
Qed.

Lemma example_squeue_wf : sfifo_wf example_squeue.
Proof. exact example_queue_wf. Qed.

Lemma two_in_range : U32.in_range 2.
Proof. unfold U32.in_range, U32.modulus. lia. Qed.

Lemma four_in_range : U32.in_range 4.
Proof. unfold U32.in_range, U32.modulus. lia. Qed.

(** The theorem on the example queue: 7 is queued behind 5 and 6. *)
Lemma push_appends_witness :
  gfifo_wf example_queue
  /\ exists f', Gfifo.gfifo_push example_queue 7 = Some (f', true)
                /\ gfifo_queued f' = [5; 6; 7].
Proof.
  split; [exact example_queue_wf|].
  destruct (push_appends example_queue 7 example_queue_wf) as [_ H].
  destruct (H eq_refl) as (f' & Hp & _ & Hq & _).
  exists f'. split; [exact Hp|exact Hq].
Defined.

(** The theorem on the example queue: two of 7, 8, 9. *)
Lemma push_array_appends_witness :
  gfifo_wf example_queue /\ U32.in_range 2
  /\ exists f', Gfifo.gfifo_push_array example_queue [7; 8; 9] 2
                = Some (f', true)
                /\ gfifo_queued f' = [5; 6; 7; 8].
Proof.
  split; [exact example_queue_wf|]. split; [exact two_in_range|].
  destruct (push_array_appends example_queue [7; 8; 9] 2 example_queue_wf
              two_in_range ltac:(cbn; lia)) as [_ H].
  destruct (H ltac:(vm_compute; discriminate)) as (f' & Hp & _ & Hq & _).
  exists f'. split; [exact Hp|exact Hq].
Defined.

(** The theorem on the example queue: 5 comes out, 6 stays. *)
Lemma pop_takes_oldest_witness :
  gfifo_wf example_queue
  /\ exists f', Gfifo.gfifo_pop example_queue 0 = Some (f', 5, true)
                /\ gfifo_queued f' = [6].
Proof.
  split; [exact example_queue_wf|].
  assert (H : Gfifo.gfifo_is_empty example_queue = false
              /\ exists f',
                   Gfifo.gfifo_pop example_queue 0 = Some (f', 5, true)
                   /\ gfifo_wf f' /\ gfifo_queued f' = [6]
                   /\ Gfifo.i f' = Gfifo.i example_queue
                   /\ Gfifo.buf f' = Gfifo.buf example_queue)
    by exact (pop_takes_oldest example_queue 0 example_queue_wf).
  destruct H as (_ & f' & Hp & _ & Hq & _).
  exists f'. split; [exact Hp|exact Hq].
Defined.

(** The theorem on the example queue and an output of three
    places. *)
Lemma pop_array_takes_oldest_witness :
  gfifo_wf example_queue /\ U32.in_range 2
  /\ exists f', Gfifo.gfifo_pop_array example_queue [0; 0; 9] 2
                = Some (f', [5; 6; 9], true)
                /\ gfifo_queued f' = [].
Proof.
  split; [exact example_queue_wf|]. split; [exact two_in_range|].
  destruct (pop_array_takes_oldest example_queue [0; 0; 9] 2
              example_queue_wf two_in_range ltac:(cbn; lia)) as [_ H].
  destruct (H ltac:(vm_compute; discriminate)) as (f' & Hp & _ & Hq & _).
  exists f'. split; [exact Hp|exact Hq].
Defined.

(** The theorem on the example queue. *)
Lemma drop_removes_oldest_witness :
  gfifo_wf example_queue
  /\ gfifo_queued (Gfifo.gfifo_drop example_queue).1 = [6].
Proof.
  split; [exact example_queue_wf|].
  destruct (drop_removes_oldest example_queue example_queue_wf)
    as (_ & _ & Hq).
  exact Hq.
Defined.

(** The theorem on the example queue at offset 1. *)
Lemma peek_at_reads_queued_witness :
  gfifo_wf example_queue
  /\ Gfifo.gfifo_peek_at example_queue 0 1 = Some (example_queue, 6, true).
Proof.
  split; [exact example_queue_wf|].
  destruct (peek_at_reads_queued example_queue 0 1 example_queue_wf
              ltac:(lia)) as [H _].
  exact H.
Defined.

(** The theorem on the example queue. *)
Lemma reset_empties_witness :
  gfifo_wf example_queue
  /\ Gfifo.gfifo_init example_queue (Some [6; 0; 0; 5]) 4
     = (Gfifo.gfifo_reset example_queue, true).
Proof.
  split; [exact example_queue_wf|].
  destruct (reset_empties example_queue) as (_ & _ & _ & H).
  destruct (H example_queue_wf) as [_ Hinit]. exact Hinit.
Defined.

(** The theorem on the example queue. *)
Lemma drop_multi_removes_oldest_witness :
  gfifo_wf example_queue /\ U32.in_range 2
  /\ gfifo_queued (Gfifo.gfifo_drop_multi example_queue 2).1 = [].
Proof.
  split; [exact example_queue_wf|]. split; [exact two_in_range|].
  destruct (drop_multi_removes_oldest example_queue 2 example_queue_wf
              two_in_range) as [_ H].
  destruct (H ltac:(vm_compute; discriminate)) as (_ & _ & Hq & _).
  exact Hq.
Defined.

(** The theorem on the example queue: room for two of three. *)
Lemma push_each_fills_witness :
  gfifo_wf example_queue
  /\ exists f', push_each example_queue [7; 8; 9]
                = Some (f', [true; true; false])
                /\ gfifo_queued f' = [5; 6; 7; 8].
Proof.
  split; [exact example_queue_wf|].
  destruct (push_each_fills example_queue [7; 8; 9] example_queue_wf)
    as (f' & Hp & _ & Hq).
  exists f'. split; [exact Hp|exact Hq].
Defined.

(** The theorem on the example queue. *)
Lemma pop_times_drains_witness :
  gfifo_wf example_queue
  /\ exists f', pop_times example_queue 2 0
                = Some (f', [(5, true); (6, true)])
                /\ gfifo_queued f' = [].
Proof.
  split; [exact example_queue_wf|].
  destruct (pop_times_drains example_queue 2 0 example_queue_wf
              ltac:(vm_compute; discriminate))
    as (f' & Hp & _ & Hq & _).
  exists f'. split; [exact Hp|exact Hq].
Defined.

(** The theorem on the example queue. *)
Lemma push_array_is_pushes_witness :
  gfifo_wf example_queue /\ U32.in_range 2
  /\ exists f', Gfifo.gfifo_push_array example_queue [7; 8; 9] 2
                = Some (f', true)
                /\ push_each example_queue [7; 8] = Some (f', [true; true]).
Proof.
  split; [exact example_queue_wf|]. split; [exact two_in_range|].
  exact (push_array_is_pushes example_queue [7; 8; 9] 2 example_queue_wf
           two_in_range ltac:(cbn; lia) ltac:(vm_compute; discriminate)).
Defined.

(** The theorem on the example queue. *)
Lemma pop_array_is_pops_witness :
  gfifo_wf example_queue /\ U32.in_range 2
  /\ exists f' xs, Gfifo.gfifo_pop_array example_queue [0; 0; 9] 2
                   = Some (f', xs ++ [9], true)
                   /\ pop_times example_queue 2 0
                      = Some (f', (fun x => (x, true)) <$> xs)
                   /\ length xs = 2%nat.
Proof.
  split; [exact example_queue_wf|]. split; [exact two_in_range|].
  exact (pop_array_is_pops example_queue [0; 0; 9] 2 0 example_queue_wf
           two_in_range ltac:(cbn; lia) ltac:(vm_compute; discriminate)).
Defined.

(** The theorem on the empty example queue: three elements across
    the end of the array. *)
Lemma bulk_round_trip_witness :
  gfifo_wf example_empty_queue
  /\ Gfifo.gfifo_is_empty example_empty_queue = true
  /\ exists f1 f2,
       Gfifo.gfifo_push_array example_empty_queue [1; 2; 3] 3
       = Some (f1, true)
       /\ Gfifo.gfifo_pop_array f1 [0; 0; 0] 3 = Some (f2, [1; 2; 3], true).
Proof.
  split; [exact example_empty_queue_wf|]. split; [reflexivity|].
  destruct (bulk_round_trip example_empty_queue [1; 2; 3] [0; 0; 0] 3
              example_empty_queue_wf eq_refl ltac:(cbn; lia)
              ltac:(cbn; lia) ltac:(cbn; lia))
    as (f1 & f2 & Hp & Hq & _).
  exists f1, f2. split; [exact Hp|exact Hq].
Defined.

(** The theorem on the example queue. *)
Lemma calls_stay_in_bounds_witness :
  gfifo_wf example_queue /\ U32.in_range 2
  /\ exists f' r, Gfifo.gfifo_push example_queue 7 = Some (f', r)
                  /\ gfifo_wf f'.
Proof.
  split; [exact example_queue_wf|]. split; [exact two_in_range|].
  destruct (calls_stay_in_bounds example_queue 7 1 2 [7; 8; 9]
              example_queue_wf two_in_range ltac:(cbn; lia)) as [H _].
  exact H.
Defined.

(** The theorem on a queue initialised over four slots, after a run of a
    push of 7, a bulk push of 8, 9 and 10, a pop and a reset. *)
Lemma well_formed_run_witness :
  let f := Gfifo.mk (Some [0; 0; 0; 0]) 4 3 0 0 in
  let f' := Gfifo.mk (Some [7; 8; 9; 10]) 4 3 0 0 in
  U32.in_range 4
  /\ Gfifo.gfifo_init (Gfifo.mk None 0 0 0 0) (Some [0; 0; 0; 0]) 4
     = (f, true)
  /\ gfifo_run f f'
  /\ gfifo_wf f' /\ Gfifo.cap f' = 4 /\ Gfifo.msk f' = 3.
Proof.
  cbv zeta.
  assert (Hrun : gfifo_run (Gfifo.mk (Some [0; 0; 0; 0]) 4 3 0 0)
                           (Gfifo.mk (Some [7; 8; 9; 10]) 4 3 0 0)).
  { apply run_step with (f1 := Gfifo.mk (Some [7; 0; 0; 0]) 4 3 1 0).
    { apply (step_push _ 7 _ true). reflexivity. }
    apply run_step with (f1 := Gfifo.mk (Some [7; 8; 9; 10]) 4 3 4 0).
    { apply (step_push_array _ [8; 9; 10] 3 _ true).
      - unfold U32.in_range, U32.modulus. lia.
      - reflexivity. }
    apply run_step with (f1 := Gfifo.mk (Some [7; 8; 9; 10]) 4 3 4 1).
    { apply (step_pop _ 0 _ 7 true). reflexivity. }
    apply run_step with (f1 := Gfifo.mk (Some [7; 8; 9; 10]) 4 3 0 0).
    { apply (step_reset (Gfifo.mk (Some [7; 8; 9; 10]) 4 3 4 1)). }
    apply run_done. }
  split; [exact four_in_range|]. split; [reflexivity|].
  split; [exact Hrun|].
  destruct (well_formed_run (Gfifo.mk None 0 0 0 0) [0; 0; 0; 0] 4
              (Gfifo.mk (Some [0; 0; 0; 0]) 4 3 0 0)
              four_in_range eq_refl eq_refl) as [_ H].
  destruct (H _ Hrun) as (Hwf & Hc & Hm & _).
  split; [exact Hwf|]. split; [exact Hc|exact Hm].
Defined.

(** The theorem at 1024 and at 0. *)
Lemma static_assert_accepts_witness :
  Sfifo.static_assert 1024 = true /\ Sfifo.static_assert 0 = true.
Proof.
  split.
  - apply (static_assert_accepts 1024). right. exists 10.
    split; [lia|reflexivity].
  - apply (static_assert_accepts 0). left. reflexivity.
Defined.

(** The theorem on the embedded-buffer example queue. *)
Lemma sfifo_is_fifo_witness :
  sfifo_wf example_squeue /\ U32.in_range 2
  /\ exists s', Sfifo.sfifo_pop_array example_squeue [0; 0; 9] 2
                = Some (s', [5; 6; 9], true)
                /\ sfifo_queued s' = [].
Proof.
  split; [exact example_squeue_wf|]. split; [exact two_in_range|].
  destruct (sfifo_is_fifo example_squeue 0 [0; 0; 9] 2 example_squeue_wf
              two_in_range ltac:(cbn; lia)) as (_ & _ & _ & H).
  destruct (H ltac:(vm_compute; discriminate)) as (s' & Hp & _ & Hq).
  exists s'. split; [exact Hp|exact Hq].
Defined.

(** The theorem for the size 4. *)
Lemma sfifo_init_well_formed_witness :
  U32.in_range 4 /\ is_power_of_two 4
  /\ exists s, Sfifo.sfifo_init 4 (Some example_squeue) = (Some s, true)
               /\ sfifo_wf s /\ sfifo_queued s = [].
Proof.
  split; [exact four_in_range|]. split; [exact four_is_power_of_two|].
  destruct (sfifo_init_well_formed 4 example_squeue four_in_range
              four_is_power_of_two eq_refl) as (_ & s & Hi & Hwf & Hq & _).
  exists s. split; [exact Hi|]. split; [exact Hwf|exact Hq].
Defined.

(** The theorem on the example queue. *)
Lemma count_is_length_witness :
  gfifo_wf example_queue
  /\ Gfifo.gfifo_count example_queue
     = Z.of_nat (length (gfifo_queued example_queue)).
Proof.
  split; [exact example_queue_wf|].
  destruct (count_is_length example_queue example_queue_wf) as [H _].
  exact H.
Defined.

(** The theorem on the example queue. *)
Lemma pop_is_peek_then_drop_witness :
  Gfifo.gfifo_pop example_queue 0
  = Some (Gfifo.mk (Some [6; 0; 0; 5]) 4 3 5 4, 5, true)
  /\ true = (Gfifo.gfifo_drop example_queue).2.
Proof.
  split; [reflexivity|].
  destruct (pop_is_peek_then_drop example_queue 0) as [_ H].
  apply (H (Gfifo.mk (Some [6; 0; 0; 5]) 4 3 5 4) 5 true). reflexivity.
Defined.

(** The theorem on the queue that [sfifo_init] leaves for the size
    0. *)
Lemma sfifo_size_zero_witness :
  let s := Sfifo.mk ([] : list Z) 0 4294967295 0 0 in
  sfifo_reachable 0 s /\ 0 < 1
  /\ Sfifo.sfifo_push s 7 = Some (s, false).
Proof.
  cbv zeta.
  assert (Hr : sfifo_reachable 0 (Sfifo.mk ([] : list Z) 0 4294967295 0 0)).
  { apply (sreach_init 0 (Sfifo.mk [] 0 0 0 0)). reflexivity. }
  split; [exact Hr|]. split; [lia|].
  destruct (sfifo_size_zero _ 7 [7] 1 Hr ltac:(lia))
    as (_ & _ & _ & H & _).
  exact H.
Defined.
